(** * Adafruit PyPortal: a shallow embedding of the library and its properties

    Two generations of the library are embedded:

    - [Legacy]: the single-file module [adafruit_pyportal.py], where
      [PyPortal] drives the ESP32, the display and the SD card itself;
    - [Package]: the package [adafruit_pyportal/] ([__init__.py] and
      [peripherals.py]), where [PyPortal] delegates to [Network], [Graphics]
      and [Peripherals] objects.

    Python values are embedded as an inductive type, exceptions as an error
    result, attribute updates as explicit state passing, and calls into
    hardware or imported libraries as events of a trace whose outcome is read
    from an environment record. *)

From Stdlib Require Import String Ascii.
From Stdlib Require Import List ZArith QArith Qround Lia Bool.
Import ListNotations.

Set Warnings "-register-all".

(** ** Python data *)

(** A Python [str] is a sequence of characters. *)
Definition str := list ascii.

Definition lit (s : string) : str := list_ascii_of_string s.

Definition space : ascii := " "%char.
Definition LF : ascii := ascii_of_nat 10.
Definition CR : ascii := ascii_of_nat 13.

Fixpoint str_eqb (a b : str) : bool :=
  match a, b with
  | [], [] => true
  | x :: a', y :: b' => Ascii.eqb x y && str_eqb a' b'
  | _, _ => false
  end.

(** One element of a JSON path: a dictionary key or a list index. *)
Inductive key :=
| KStr (s : str)
| KInt (i : Z).

(** The exceptions that the embedded code raises, catches or lets through.
    A [KeyError] carries the key that was not found.  A [ValueError] is one
    raised with a message, as the libraries raise it: [error.args[0]] is a
    string.  [ValueErrorNoArgs] is a [ValueError] raised without arguments
    and [ValueErrorNotStr] one whose first argument is not a string; both
    are caught where [ValueError] is, and differ where a handler reads
    [error.args[0]].  [Reload] stands for [supervisor.reload()], which
    abandons the running program. *)
Inductive exn :=
| KeyError (k : key)
| IndexError | TypeError | ValueError | AttributeError
| OSError | RuntimeError | MemoryError | UnboundLocalError | Reload
| ValueErrorNoArgs | ValueErrorNotStr | OverflowError.

Inductive result (A : Type) :=
| Ok (a : A)
| Raise (e : exn).
Arguments Ok {A} a.
Arguments Raise {A} e.

Definition rbind {A B} (r : result A) (f : A -> result B) : result B :=
  match r with
  | Ok a => f a
  | Raise e => Raise e
  end.

Fixpoint rmap {A B} (f : A -> result B) (l : list A) : result (list B) :=
  match l with
  | [] => Ok []
  | a :: l' =>
      rbind (f a) (fun b => rbind (rmap f l') (fun bs => Ok (b :: bs)))
  end.

(** Values that [json()] produces, that the extraction code collects and that
    [fetch] returns: [None], booleans, integers, floats, strings, lists and
    dictionaries with string keys. *)
Inductive pyval :=
| PNone
| PBool (b : bool)
| PInt (z : Z)
| PFloat (q : Q)
| PStr (s : str)
| PList (l : list pyval)
| PDict (d : list (str * pyval)).

Fixpoint dict_get (k : str) (d : list (str * pyval)) : option pyval :=
  match d with
  | [] => None
  | (k', v) :: d' => if str_eqb k k' then Some v else dict_get k d'
  end.

(** Position designated by index [i] in a sequence of [len] items; negative
    indices count from the end. *)
Definition seq_index (len : nat) (i : Z) : option nat :=
  if (0 <=? i)%Z then
    if (i <? Z.of_nat len)%Z then Some (Z.to_nat i) else None
  else
    if (- Z.of_nat len <=? i)%Z then Some (Z.to_nat (Z.of_nat len + i)) else None.

(** [value[x]] *)
Definition getitem (value : pyval) (x : key) : result pyval :=
  match value, x with
  | PDict d, KStr k =>
      match dict_get k d with
      | Some v => Ok v
      | None => Raise (KeyError x)
      end
  | PDict _, KInt _ => Raise (KeyError x)
  | PList l, KInt i =>
      match seq_index (length l) i with
      | Some n => match nth_error l n with
                  | Some v => Ok v
                  | None => Raise IndexError
                  end
      | None => Raise IndexError
      end
  | PStr s, KInt i =>
      match seq_index (length s) i with
      | Some n => match nth_error s n with
                  | Some c => Ok (PStr [c])
                  | None => Raise IndexError
                  end
      | None => Raise IndexError
      end
  | _, _ => Raise TypeError
  end.

(** [len(v)] *)
Definition py_len (v : pyval) : result Z :=
  match v with
  | PStr s => Ok (Z.of_nat (length s))
  | PList l => Ok (Z.of_nat (length l))
  | PDict d => Ok (Z.of_nat (length d))
  | _ => Raise TypeError
  end.

(** ** String helpers used by [wrap_nicely] *)

(** [s.replace(c, '')] for a one-character [c]. *)
Definition replace_del (c : ascii) (s : str) : str :=
  filter (fun x => negb (Ascii.eqb x c)) s.

(** [s.split(sep)] for a one-character separator: never empty. *)
Fixpoint str_split (sep : ascii) (s : str) : list str :=
  match s with
  | [] => [[]]
  | c :: s' =>
      if Ascii.eqb c sep then [] :: str_split sep s'
      else match str_split sep s' with
           | w :: ws => (c :: w) :: ws
           | [] => [[c]]
           end
  end.

(** Truth value of a string. *)
Definition nonempty (s : str) : bool :=
  match s with
  | [] => false
  | _ :: _ => true
  end.

(** [sep.join(parts)] *)
Fixpoint join (sep : str) (parts : list str) : str :=
  match parts with
  | [] => []
  | [p] => p
  | p :: rest => p ++ sep ++ join sep rest
  end.

(** ** Static helpers of [adafruit_pyportal.py] *)

(** [PyPortal._json_traverse]: the loop [for x in path: value = value[x]]. *)
Fixpoint _json_traverse (json : pyval) (path : list key) : result pyval :=
  match path with
  | [] => Ok json
  | x :: rest =>
      match getitem json x with
      | Ok value => _json_traverse value rest
      | Raise e => Raise e
      end
  end.

(** The subscript expression [j[k0][k1]...[kn]], read as Python parses it:
    the outermost subscript is the last key.  The keys are given innermost
    last, that is, as the reversed path. *)
Fixpoint subscript_chain (j : pyval) (rev_path : list key) : result pyval :=
  match rev_path with
  | [] => Ok j
  | kn :: inner => rbind (subscript_chain j inner) (fun v => getitem v kn)
  end.

(** One iteration of the loop over [words] in [wrap_nicely]. *)
Definition wrap_step (max_chars : Z) (acc : list str * str) (w : str)
  : list str * str :=
  let '(the_lines, the_line) := acc in
  if (Z.of_nat (length (the_line ++ space :: w)) <=? max_chars)%Z
  then (the_lines, the_line ++ space :: w)
  else (the_lines ++ [the_line], w).

(** [PyPortal.wrap_nicely] *)
Definition wrap_nicely (string : str) (max_chars : Z) : result (list str) :=
  let string := replace_del CR (replace_del LF string) in
  let words := str_split space string in
  let '(the_lines, the_line) := fold_left (wrap_step max_chars) words ([], []) in
  let the_lines :=
    if nonempty the_line then the_lines ++ [the_line] else the_lines in
  match the_lines with
  | [] => Raise IndexError
  | first :: others => Ok (tl first :: others)
  end.

(** The words of a line: its non-empty pieces between spaces. *)
Definition words_of (s : str) : list str := filter nonempty (str_split space s).

(** *** Loop invariants of [wrap_nicely] *)

(** The lines of [wrap_nicely], before the first one loses its leading
    character. *)
Definition wrap_lines (string : str) (max_chars : Z) : list str :=
  let words := str_split space (replace_del CR (replace_del LF string)) in
  let acc := fold_left (wrap_step max_chars) words ([], []) in
  if nonempty (snd acc) then fst acc ++ [snd acc] else fst acc.

(** The words collected so far. *)
Definition collected (acc : list str * str) : list str :=
  concat (map words_of (fst acc)) ++ words_of (snd acc).

(** The first line built is empty or begins with the separating space. *)
Definition lead (l : str) : Prop :=
  match l with [] => True | c :: _ => c = space end.

Definition first_lead (acc : list str * str) : Prop :=
  match fst acc with
  | [] => lead (snd acc)
  | first :: _ => lead first
  end.

(** After one word at least, a line exists or is being built. *)
Definition live (acc : list str * str) : Prop :=
  fst acc <> [] \/ snd acc <> [].

(** A line that holds a space has passed the length test. *)
Definition fits (max_chars : Z) (l : str) : Prop :=
  In space l -> (Z.of_nat (length l) <= max_chars)%Z.

Definition all_fit (max_chars : Z) (acc : list str * str) : Prop :=
  Forall (fits max_chars) (fst acc) /\ fits max_chars (snd acc).

(** Characters satisfying [P] everywhere. *)
Definition all_chars (P : ascii -> Prop) (acc : list str * str) : Prop :=
  Forall (Forall P) (fst acc) /\ Forall P (snd acc).

(** ** Numbers and the backlight *)

(** A Python number as [set_backlight] can receive it: an [int], or a [float]
    that is finite, infinite or not a number.  A finite float is represented by
    the rational it denotes. *)
Inductive num :=
| NInt (z : Z)
| NFloat (q : Q)
| NInf
| NNegInf
| NNan.

(** [a < b]; comparisons between [int] and [float] are exact, and every
    comparison with a NaN is false. *)
Definition num_lt (a b : num) : bool :=
  match a, b with
  | NNan, _ | _, NNan => false
  | _, NNegInf => false
  | NNegInf, _ => true
  | NInf, _ => false
  | _, NInf => true
  | NInt x, NInt y => (x <? y)%Z
  | NInt x, NFloat y => if Qlt_le_dec (inject_Z x) y then true else false
  | NFloat x, NInt y => if Qlt_le_dec x (inject_Z y) then true else false
  | NFloat x, NFloat y => if Qlt_le_dec x y then true else false
  end.

(** [min(a, b)] and [max(a, b)]: the first argument is kept unless the second
    is strictly smaller (resp. greater). *)
Definition py_min (a b : num) : num := if num_lt b a then b else a.
Definition py_max (a b : num) : num := if num_lt a b then b else a.

(** Truncation toward zero. *)
Definition Qtrunc (q : Q) : Z :=
  if Qlt_le_dec q 0 then Qceiling q else Qfloor q.

(** [int(x)] *)
Definition num_int (x : num) : result Z :=
  match x with
  | NInt z => Ok z
  | NFloat q => Ok (Qtrunc q)
  | NInf | NNegInf => Raise OverflowError
  | NNan => Raise ValueError
  end.

(** The display object: [auto_brightness] and [brightness]. *)
Record Display := {
  auto_brightness : bool;
  brightness : num;
}.

(** The attributes that [set_backlight] reads and writes: the PWM output, if
    the board has one, with its [duty_cycle], and the display. *)
Record Light := {
  _backlight : option Z;
  display : Display;
}.

Section Backlight.
(** The float format's rounding of an exact product; boards differ in the
    float format they use. *)
Variable round : Q -> Q.

(** [val * 65535] *)
Definition times_65535 (val : num) : num :=
  match val with
  | NInt z => NInt (z * 65535)
  | NFloat q => NFloat (round (q * 65535))
  | NInf => NInf
  | NNegInf => NNegInf
  | NNan => NNan
  end.

(** The first statement of [set_backlight]:
    [val = max(0, min(1.0, val))]. *)
Definition clamp (val : num) : num := py_max (NInt 0) (py_min (NFloat 1) val).

(** [PyPortal.set_backlight], the same in both generations. *)
Definition set_backlight (self : Light) (val : num) : result Light :=
  let val := clamp val in
  match _backlight self with
  | Some _ =>
      rbind (num_int (times_65535 val))
            (fun duty => Ok {| _backlight := Some duty; display := display self |})
  | None =>
      Ok {| _backlight := None;
            display := {| auto_brightness := false; brightness := val |} |}
  end.
End Backlight.

(** The number that a Python number denotes, when it is finite. *)
Definition num_value (x : num) : option Q :=
  match x with
  | NInt z => Some (inject_Z z)
  | NFloat q => Some q
  | _ => None
  end.

(** ** Truth values and slices *)

(** [bool(v)] *)
Definition truthy (v : pyval) : bool :=
  match v with
  | PNone => false
  | PBool b => b
  | PInt z => negb (z =? 0)%Z
  | PFloat q => negb (Qeq_bool q 0)
  | PStr s => nonempty s
  | PList l => match l with [] => false | _ => true end
  | PDict d => match d with [] => false | _ => true end
  end.

(** Truth value of an optional string, list or tuple: [None] and the empty
    sequence are false. *)
Definition some_nonempty {A} (o : option (list A)) : bool :=
  match o with
  | Some (_ :: _) => true
  | _ => false
  end.

(** [s[:n]] *)
Definition slice_to (s : str) (n : Z) : str :=
  if (n <? 0)%Z then firstn (Z.to_nat (Z.of_nat (length s) + n)) s
  else firstn (Z.to_nat n) s.

(** ** Effects

    A method runs on the attributes of its object, may raise, and leaves a
    trace of the calls it makes outside the program.  Attributes written
    before an exception stay written. *)

Section Effects.
Variables S E : Type.

Definition M (A : Type) : Type := S -> result A * S * list E.

Definition ret {A} (a : A) : M A := fun s => (Ok a, s, []).

Definition raise {A} (e : exn) : M A := fun s => (Raise e, s, []).

Definition lift {A} (r : result A) : M A := fun s => (r, s, []).

Definition bind {A B} (c : M A) (f : A -> M B) : M B := fun s =>
  match c s with
  | (Ok a, s', tr) => let '(r, s'', tr') := f a s' in (r, s'', tr ++ tr')
  | (Raise e, s', tr) => (Raise e, s', tr)
  end.

Definition emit (e : E) : M unit := fun s => (Ok tt, s, [e]).

Definition get_self : M S := fun s => (Ok s, s, []).

Definition put_self (s' : S) : M unit := fun _ => (Ok tt, s', []).

(** [try: c  except ...: handler]; [handler e] is [None] for an exception
    that no clause catches. *)
Definition try_except {A} (c : M A) (handler : exn -> option (M A)) : M A :=
  fun s =>
    match c s with
    | (Ok a, s', tr) => (Ok a, s', tr)
    | (Raise e, s', tr) =>
        match handler e with
        | Some h => let '(r, s'', tr') := h s' in (r, s'', tr ++ tr')
        | None => (Raise e, s', tr)
        end
    end.

(** [for x in l: body(x)] *)
Fixpoint for_each {A} (l : list A) (body : A -> M unit) : M unit :=
  match l with
  | [] => ret tt
  | x :: l' => bind (body x) (fun _ => for_each l' body)
  end.

(** [for x in l: out.append(f(x))] *)
Fixpoint collect {A B} (l : list A) (f : A -> M B) : M (list B) :=
  match l with
  | [] => ret []
  | x :: l' => bind (f x) (fun b => bind (collect l' f) (fun bs => ret (b :: bs)))
  end.
End Effects.

Arguments ret {S E A} a.
Arguments raise {S E A} e.
Arguments lift {S E A} r.
Arguments bind {S E A B} c f.
Arguments emit {S E} e.
Arguments get_self {S E}.
Arguments put_self {S E} s'.
Arguments try_except {S E A} c handler.
Arguments for_each {S E A} l body.
Arguments collect {S E A B} l f.

Declare Scope effect_scope.
Delimit Scope effect_scope with effect.
Notation "x <- c ;; k" := (bind c (fun x => k))
  (at level 61, c at next level, right associativity) : effect_scope.
Notation "c ;; k" := (bind c (fun _ => k))
  (at level 61, right associativity) : effect_scope.

(** What a request gives back: the body as text, and what [json()] makes of
    it. *)
Record response := {
  text : str;
  json : result pyval;
}.

(** ** [adafruit_pyportal.py] *)

Module Legacy.

Local Open Scope effect_scope.

(** Calls that leave the program, and the cleanup step of [fetch]. *)
Inductive event :=
| EvFirmwareVersion                      (* self._esp.firmware_version *)
| EvSleep (seconds : Z)                  (* time.sleep(seconds) *)
| EvEspReset                             (* self._esp.reset() *)
| EvSetInterface                         (* requests.set_interface(self._esp) *)
| EvEspConnect                           (* self._esp.connect(secrets) *)
| EvLocalFile                            (* Fake_Requests(LOCALFILE) *)
| EvGet (url : option str)               (* requests.get(self._url, headers=...) *)
| EvJson                                 (* r.json() *)
| EvTraverse (path : list key)           (* PyPortal._json_traverse(json_out, path) *)
| EvSearch (regexp : str)                (* re.search(regexp, r.text) *)
| EvRelease                              (* json_out = None; r = None; gc.collect() *)
| EvConverterUrl (image_url : pyval)     (* self.image_converter_url(image_url, ...) *)
| EvWget (url filename : str) (chunk_size : Z)   (* self.wget(...) *)
| EvSetBackground (file_or_color : pyval)        (* self.set_background(...) *)
| EvCallback (values : pyval)            (* self._success_callback(values) *)
| EvSetText (index : nat) (string : str). (* a Label made by self.set_text *)

(** What the world outside the program answers. *)
Record Env := {
  (** outcome of the n-th read of [self._esp.firmware_version] *)
  firmware_version : nat -> result str;
  (** [self._esp.is_connected] when [_connect_esp] is entered *)
  is_connected : bool;
  (** failed [self._esp.connect(secrets)] before the one that succeeds *)
  connect_failures : nat;
  (** [secrets['ssid'] == 'CHANGE ME'] *)
  ssid_is_placeholder : bool;
  (** [Fake_Requests(LOCALFILE)] *)
  local_file : result response;
  (** [requests.get(url, headers=headers)] *)
  requests_get : option str -> option pyval -> result response;
  (** [re.search(regexp, text)]: no match, or the match's [group] method *)
  re_search : str -> str -> option (Z -> result pyval);
  (** [image_converter_url(image_url, width, height)] *)
  converter_url : pyval -> Z -> Z -> result str;
  (** [wget(url, filename, chunk_size=...)] *)
  wget_outcome : str -> str -> Z -> result unit;
  (** opening a bitmap file and putting it in a tile grid *)
  open_bitmap : str -> result unit;
  (** [int(v)] *)
  py_int : pyval -> result Z;
  (** ["{:,d}".format(n)] *)
  format_thousands : Z -> str;
  (** [str(v)] for a [v] that is not a string *)
  py_str : pyval -> str;
}.

(** One text area: the entries at one index of [_text], [_text_color],
    [_text_position], [_text_wrap], [_text_maxlen], [_text_transform]. *)
Record TextSlot := {
  text_label : option str;
  text_color : pyval;
  text_position : option (Z * Z);
  text_wrap : Z;
  text_maxlen : Z;
  text_transform : option (pyval -> result pyval);
}.

(** The attributes of a [PyPortal] that [fetch] and its helpers use.
    Functions supplied by the application ([_success_callback],
    [text_transform]) are taken as functions of the value they are given. *)
Record PyPortal := {
  _url : option str;
  _headers : option pyval;
  _json_path : option (list (list key));
  _regexp_path : option (list str);
  _success_callback : option (pyval -> result unit);
  _uselocal : bool;
  _default_bg : pyval;
  _sdcard : bool;
  _text_font : bool;
  _text : option (list TextSlot);
  _image_json_path : option (list key);
  _image_url_path : option str;
  _image_resize : Z * Z;
  _image_position : Z * Z;
}.

Definition with_url (self : PyPortal) (url : option str) : PyPortal :=
  {| _url := url;
     _headers := _headers self;
     _json_path := _json_path self;
     _regexp_path := _regexp_path self;
     _success_callback := _success_callback self;
     _uselocal := _uselocal self;
     _default_bg := _default_bg self;
     _sdcard := _sdcard self;
     _text_font := _text_font self;
     _text := _text self;
     _image_json_path := _image_json_path self;
     _image_url_path := _image_url_path self;
     _image_resize := _image_resize self;
     _image_position := _image_position self |}.

Definition with_text (self : PyPortal) (slots : option (list TextSlot)) : PyPortal :=
  {| _url := _url self;
     _headers := _headers self;
     _json_path := _json_path self;
     _regexp_path := _regexp_path self;
     _success_callback := _success_callback self;
     _uselocal := _uselocal self;
     _default_bg := _default_bg self;
     _sdcard := _sdcard self;
     _text_font := _text_font self;
     _text := slots;
     _image_json_path := _image_json_path self;
     _image_url_path := _image_url_path self;
     _image_resize := _image_resize self;
     _image_position := _image_position self |}.

Definition with_label (slot : TextSlot) (string : str) : TextSlot :=
  {| text_label := Some string;
     text_color := text_color slot;
     text_position := text_position slot;
     text_wrap := text_wrap slot;
     text_maxlen := text_maxlen slot;
     text_transform := text_transform slot |}.

Fixpoint replace_nth {A} (l : list A) (n : nat) (a : A) : list A :=
  match l, n with
  | [], _ => []
  | _ :: l', O => a :: l'
  | x :: l', S n' => x :: replace_nth l' n' a
  end.

Definition Run := M PyPortal event.

(** The constructor's argument [json_path]: one path, or a list of paths;
    the source tells them apart by the type of the first element. *)
Inductive json_path_arg :=
| OnePath (path : list key)
| ManyPaths (paths : list (list key)).

(** The constructor's treatment of [json_path]. *)
Definition init_json_path (json_path : option json_path_arg)
  : option (list (list key)) :=
  match json_path with
  | Some (OnePath (k :: path)) => Some [k :: path]
  | Some (ManyPaths (p :: paths)) => Some (p :: paths)
  | _ => None
  end.

(** The retry loop of the constructor:
    [for _ in range(3): try: ... firmware_version; break
     except RuntimeError: ...; time.sleep(1); self._esp.reset()
     else: raise RuntimeError(...)].
    [attempt] counts the reads made so far. *)
Fixpoint esp_retry (env : Env) (attempt remaining : nat) : Run unit :=
  match remaining with
  | O => raise RuntimeError
  | S remaining' =>
      emit EvFirmwareVersion ;;
      match firmware_version env attempt with
      | Ok _ => ret tt
      | Raise RuntimeError =>
          emit (EvSleep 1) ;;
          emit EvEspReset ;;
          esp_retry env (S attempt) remaining'
      | Raise e => raise e
      end
  end.

(** The body of the [while not self._esp.is_connected] loop, for a link
    that comes up after [failures] failed attempts: [connect] raises
    [RuntimeError] that many times and then returns with the link up.
    This is the loop as [fetch] is read with it; [Link.connect_loop] below
    follows the source round by round, with the link read at each round
    and any outcome of [connect]. *)
Fixpoint connect_loop (failures : nat) : Run unit :=
  emit EvEspConnect ;;
  match failures with
  | O => ret tt
  | S failures' => emit (EvSleep 3) ;; connect_loop failures'
  end.

(** [PyPortal._connect_esp].  A link that never comes up would keep the
    source in its loop for ever; the environment gives the number of
    failures, so the loop ends. *)
Definition _connect_esp (env : Env) : Run unit :=
  if is_connected env then ret tt
  else if ssid_is_placeholder env then raise OSError
  else connect_loop (connect_failures env).

(** The part of the constructor that finds the ESP32 and connects:
    the retry loop, [requests.set_interface], and
    [if url and not self._uselocal: self._connect_esp()]. *)
Definition init_esp32 (env : Env) : Run unit :=
  esp_retry env 0 3 ;;
  emit EvSetInterface ;;
  self <- get_self ;;
  if some_nonempty (_url self) && negb (_uselocal self)
  then _connect_esp env
  else ret tt.

(** [PyPortal.set_background]: nothing to show for a false argument, a
    bitmap file for a string, a colour fill for an integer. *)
Definition set_background (env : Env) (file_or_color : pyval) : Run unit :=
  emit (EvSetBackground file_or_color) ;;
  if negb (truthy file_or_color) then ret tt
  else match file_or_color with
       | PStr file => lift (open_bitmap env file)
       | PInt _ | PBool _ => ret tt
       | _ => raise RuntimeError
       end.

Definition to_str (env : Env) (val : pyval) : str :=
  match val with
  | PStr s => s
  | _ => py_str env val
  end.

Definition slots_of (self : PyPortal) : list TextSlot :=
  match _text self with
  | Some slots => slots
  | None => []
  end.

(** [PyPortal.set_text].  The display side (the [Label], the [splash]
    group) is left to the trace: a text area holds the string of its label
    once one is made, and a label that exists counts as true. *)
Definition set_text (env : Env) (val : pyval) (index : nat) : Run unit :=
  self <- get_self ;;
  if _text_font self then
    match nth_error (slots_of self) index with
    | None => raise IndexError
    | Some slot =>
        let string := to_str env val in
        let string :=
          if (text_maxlen slot =? 0)%Z then string
          else slice_to string (text_maxlen slot) in
        match text_label slot, text_position slot with
        | None, None => ret tt
        | Some _, None => raise TypeError
        | _, Some _ =>
            emit (EvSetText index string) ;;
            put_self (with_text self
                        (Some (replace_nth (slots_of self) index
                                           (with_label slot string))))
        end
    end
  else ret tt.

(** One round of the loop [for i in range(len(self._text))] of [fetch]. *)
Definition fill_text (env : Env) (values : pyval) (i : nat) : Run unit :=
  self <- get_self ;;
  match nth_error (slots_of self) i with
  | None => raise IndexError
  | Some slot =>
      string <-
        match text_transform slot with
        | Some func =>
            v <- lift (getitem values (KInt (Z.of_nat i))) ;;
            lift (func v)
        | None =>
            v <- lift (getitem values (KInt (Z.of_nat i))) ;;
            match py_int env v with
            | Ok n => ret (PStr (format_thousands env n))
            | Raise TypeError => ret v
            | Raise ValueError => ret v
            | Raise ValueErrorNoArgs => ret v
            | Raise ValueErrorNotStr => ret v
            | Raise e => raise e
            end
        end ;;
      string <-
        (if (text_wrap slot =? 0)%Z then ret string
         else match string with
              | PStr s =>
                  lines <- lift (wrap_nicely s (text_wrap slot)) ;;
                  ret (PStr (join [LF] lines))
              | _ => raise AttributeError
              end) ;;
      set_text env string i
  end.

(** The image file and chunk size that [fetch] passes to [wget]. *)
Definition cache_file (self : PyPortal) : str * Z :=
  if _sdcard self then (lit "/sd/cache.bmp", 512%Z)
  else (lit "/cache.bmp", 12000%Z).

(** [PyPortal.fetch], cut at the blank lines and comments of its source
    into the steps below; each step reads the attributes of [self] when it
    runs. *)

(** [if refresh_url: self._url = refresh_url] *)
Definition fetch_refresh (refresh_url : option str) : Run unit :=
  if some_nonempty refresh_url
  then self <- get_self ;; put_self (with_url self refresh_url)
  else ret tt.

(** The response [r]: the local file when [self._uselocal], the answer of
    [requests.get(self._url, headers=self._headers)] otherwise. *)
Definition fetch_response (env : Env) : Run response :=
  self <- get_self ;;
  if _uselocal self then
    emit EvLocalFile ;;
    lift (local_file env)
  else
    _connect_esp env ;;
    emit (EvGet (_url self)) ;;
    lift (requests_get env (_url self) (_headers self)).

(** [json_out]: [r.json()] when a JSON path or an image JSON path is set,
    [None] otherwise. *)
Definition fetch_json (r : response) : Run pyval :=
  self <- get_self ;;
  if some_nonempty (_image_json_path self) || some_nonempty (_json_path self)
  then
    emit EvJson ;;
    match json r with
    | Ok j => ret j
    | Raise MemoryError => raise Reload
    | Raise e => raise e
    end
  else ret PNone.

(** [image_url] before the JSON is looked at. *)
Definition image_url_path (self : PyPortal) : pyval :=
  match _image_url_path self with
  | Some (c :: u) => PStr (c :: u)
  | _ => PNone
  end.

(** "extract desired text/values from json" *)
Definition fetch_values (env : Env) (r : response) (json_out : pyval)
  : Run pyval :=
  self <- get_self ;;
  match _json_path self, _regexp_path self with
  | Some (p :: paths), _ =>
      vs <- collect (p :: paths)
              (fun path =>
                 emit (EvTraverse path) ;;
                 lift (_json_traverse json_out path)) ;;
      ret (PList vs)
  | _, Some (x :: regexps) =>
      vs <- collect (x :: regexps)
              (fun regexp =>
                 emit (EvSearch regexp) ;;
                 match re_search env regexp (text r) with
                 | Some group => lift (group 1%Z)
                 | None => raise AttributeError
                 end) ;;
      ret (PList vs)
  | _, _ => ret (PStr (text r))
  end.

(** [if self._image_json_path: ...] *)
Definition fetch_image_url (env : Env) (json_out image_url : pyval)
  : Run pyval :=
  self <- get_self ;;
  match _image_json_path self with
  | Some (k :: path) =>
      emit (EvTraverse (k :: path)) ;;
      match _json_traverse json_out (k :: path) with
      | Ok v => ret v
      | Raise (KeyError (KStr _)) =>
          set_background env (_default_bg self) ;;
          ret image_url
      | Raise (KeyError (KInt _)) => raise TypeError
      | Raise e => raise e
      end
  | _ => ret image_url
  end.

(** [if image_url: ...]: conversion, download and display of the image. *)
Definition fetch_image (env : Env) (image_url : pyval) : Run unit :=
  self <- get_self ;;
  if truthy image_url then
    try_except
      (emit (EvConverterUrl image_url) ;;
       converted <- lift (converter_url env image_url
                            (fst (_image_resize self)) (snd (_image_resize self))) ;;
       let '(filename, chunk_size) := cache_file self in
       emit (EvWget converted filename chunk_size) ;;
       match wget_outcome env converted filename chunk_size with
       | Ok _ => ret tt
       | Raise OSError => raise OSError
       | Raise RuntimeError => raise RuntimeError
       | Raise e => raise e
       end ;;
       set_background env (PStr filename))
      (fun e =>
         match e with
         | ValueError => Some (set_background env (_default_bg self))
         (* "Error displaying cached image. " + error.args[0] *)
         | ValueErrorNoArgs => Some (raise IndexError)
         | ValueErrorNotStr => Some (raise TypeError)
         | _ => None
         end)
  else ret tt.

(** "if we have a callback registered, call it now" *)
Definition fetch_callback (values : pyval) : Run unit :=
  self <- get_self ;;
  match _success_callback self with
  | Some callback => emit (EvCallback values) ;; lift (callback values)
  | None => ret tt
  end.

(** "fill out all the text blocks" *)
Definition fetch_text (env : Env) (values : pyval) : Run unit :=
  self <- get_self ;;
  if some_nonempty (_text self)
  then for_each (seq 0 (length (slots_of self))) (fill_text env values)
  else ret tt.

(** [if len(values) == 1: return values[0]] and [return values] *)
Definition fetch_return (values : pyval) : Run pyval :=
  n <- lift (py_len values) ;;
  if (n =? 1)%Z then lift (getitem values (KInt 0)) else ret values.

(** [PyPortal.fetch] *)
Definition fetch (env : Env) (refresh_url : option str) : Run pyval :=
  fetch_refresh refresh_url ;;
  r <- fetch_response env ;;
  json_out <- fetch_json r ;;
  self <- get_self ;;
  let image_url := image_url_path self in
  values <- fetch_values env r json_out ;;
  image_url <- fetch_image_url env json_out image_url ;;
  emit EvRelease ;;
  fetch_image env image_url ;;
  fetch_callback values ;;
  fetch_text env values ;;
  fetch_return values.
End Legacy.

(** ** The package [adafruit_pyportal/] *)

Module Package.

Local Open Scope effect_scope.

(** *** [peripherals.py] *)

(** What the board and the card answer while [Peripherals] is built. *)
Record Board := {
  has_audio_out : bool;            (* hasattr(board, "AUDIO_OUT") *)
  has_speaker : bool;              (* hasattr(board, "SPEAKER") *)
  sdcard_new : result unit;        (* sdcardio.SDCard(spi, sd_cs) *)
  vfs_new : result unit;           (* storage.VfsFat(self._sdcard) *)
  mount : result unit;             (* storage.mount(vfs, "/sd") *)
}.

Inductive pevent :=
| EvSpeakerOff                     (* self._speaker_enable.switch_to_output(False) *)
| EvAudioOut                       (* audioio.AudioOut(...) *)
| EvSDCard                         (* sdcardio.SDCard(spi, sd_cs) *)
| EvVfsFat                         (* storage.VfsFat(self._sdcard) *)
| EvMount                          (* storage.mount(vfs, "/sd") *)
| EvNoCard.                        (* print("No SD card found:", error) *)

(** The attribute [_sdcard] of [Peripherals]: [None], or the card object. *)
Record Peripherals := {
  _sdcard : option unit;
}.

(** [Peripherals.__init__], run on an object whose attributes are not set
    yet. *)
Definition Peripherals_init (board : Board) : M Peripherals pevent unit :=
  emit EvSpeakerOff ;;
  (if has_audio_out board then emit EvAudioOut
   else if has_speaker board then emit EvAudioOut
   else raise AttributeError) ;;
  put_self {| _sdcard := None |} ;;
  try_except
    (emit EvSDCard ;;
     card <- lift (sdcard_new board) ;;
     put_self {| _sdcard := Some card |} ;;
     emit EvVfsFat ;;
     lift (vfs_new board) ;;
     emit EvMount ;;
     lift (mount board))
    (fun e =>
       match e with
       | OSError => Some (emit EvNoCard)
       | _ => None
       end).

(** [Peripherals.sd_check] *)
Definition sd_check (self : Peripherals) : bool :=
  match _sdcard self with
  | Some _ => true
  | None => false
  end.

(** The mount in [Peripherals.__init__] succeeded: the three calls of the
    [try] block all returned. *)
Definition mount_succeeded (board : Board) : Prop :=
  sdcard_new board = Ok tt /\ vfs_new board = Ok tt /\ mount board = Ok tt.

(** *** [__init__.py] *)

(** What [Network.check_response] tells about a response. *)
Inductive content_type :=
| CONTENT_JSON
| CONTENT_TEXT
| CONTENT_OTHER.

(** The argument [json_path] as the application gives it. *)
Inductive json_path_arg :=
| OnePath (path : list key)
| ManyPaths (paths : list (list key)).

(** Calls that [fetch] makes on its helper objects, and its cleanup. *)
Inductive event :=
| EvNetworkFetch (url : option str) (timeout : Z)  (* self.network.fetch(self.url, timeout=timeout) *)
| EvCheckResponse                        (* self.network.check_response(response) *)
| EvJson                                 (* response.json() *)
| EvProcessImage (sd : bool)             (* self.network.process_image(json_out, sd_check()) *)
| EvSetBackground (file_or_color : pyval) (* self.graphics.set_background(...) *)
| EvProcessJson (json_path : option (list (list key)))  (* self.network.process_json(json_out, json_path) *)
| EvProcessText                          (* self.network.process_text(response.text, self._regexp_path) *)
| EvCallback (values : pyval)            (* self._success_callback(values) *)
| EvFillTextLabels (values : pyval)      (* self._fill_text_labels(values) *)
| EvRelease.                             (* json_out = None; response = None; gc.collect() *)

(** The objects that [PyPortal] delegates to: their methods are imported
    code, taken here as functions of their arguments. *)
Record Helpers := {
  network_fetch : option str -> Z -> result response;
  check_response : response -> result content_type;
  process_image : pyval -> bool -> result (pyval * option (Z * Z));
  process_json : pyval -> option (list (list key)) -> result pyval;
  process_text : str -> option (list str) -> result pyval;
  graphics_set_background : pyval -> option (Z * Z) -> result unit;
  _fill_text_labels : pyval -> result unit;
}.

Record PyPortal := {
  url : option str;
  _json_path : option json_path_arg;
  _regexp_path : option (list str);
  _success_callback : option (pyval -> result unit);
  _default_bg : option pyval;
  peripherals : Peripherals;
}.

Definition with_url (self : PyPortal) (u : option str) : PyPortal :=
  {| url := u;
     _json_path := _json_path self;
     _regexp_path := _regexp_path self;
     _success_callback := _success_callback self;
     _default_bg := _default_bg self;
     peripherals := peripherals self |}.

(** The wrapping of [json_path] in [fetch]: a list that is empty, or whose
    first element is not itself a list, is one path. *)
Definition wrap_json_path (json_path : json_path_arg) : list (list key) :=
  match json_path with
  | OnePath path => [path]
  | ManyPaths [] => [[]]
  | ManyPaths (p :: paths) => p :: paths
  end.

Definition Run := M PyPortal event.

(** [PyPortal.fetch] *)
Definition fetch (h : Helpers) (refresh_url : option str) (timeout : Z)
  : Run pyval :=
  (if some_nonempty refresh_url
   then self <- get_self ;; put_self (with_url self refresh_url)
   else ret tt) ;;
  self <- get_self ;;
  emit (EvNetworkFetch (url self) timeout) ;;
  response <- lift (network_fetch h (url self) timeout) ;;
  emit EvCheckResponse ;;
  content <- lift (check_response h response) ;;
  (* used for JSON content only, where a path that is set is wrapped *)
  let json_path := option_map wrap_json_path (_json_path self) in
  json_out <-
    match content with
    | CONTENT_JSON =>
        emit EvJson ;;
        match json response with
        | Ok j => ret j
        | Raise MemoryError => raise Reload
        | Raise e => raise e
        end
    | _ => ret PNone
    end ;;
  try_except
    (emit (EvProcessImage (sd_check (peripherals self))) ;;
     image <- lift (process_image h json_out (sd_check (peripherals self))) ;;
     let '(filename, position) := image in
     match truthy filename, position with
     | true, Some _ =>
         emit (EvSetBackground filename) ;;
         lift (graphics_set_background h filename position)
     | _, _ => ret tt
     end)
    (fun e =>
       match e with
       | ValueError =>
           Some match _default_bg self with
                | Some bg =>
                    emit (EvSetBackground bg) ;;
                    lift (graphics_set_background h bg None)
                | None => ret tt
                end
       (* "Error displaying cached image. " + error.args[0] *)
       | ValueErrorNoArgs => Some (raise IndexError)
       | ValueErrorNotStr => Some (raise TypeError)
       | _ => None
       end) ;;
  values <-
    match content with
    | CONTENT_JSON =>
        emit (EvProcessJson json_path) ;;
        lift (process_json h json_out json_path)
    | CONTENT_TEXT =>
        emit EvProcessText ;;
        lift (process_text h (text response) (_regexp_path self))
    | CONTENT_OTHER => raise UnboundLocalError
    end ;;
  match _success_callback self with
  | Some callback => emit (EvCallback values) ;; lift (callback values)
  | None => ret tt
  end ;;
  emit (EvFillTextLabels values) ;;
  lift (_fill_text_labels h values) ;;
  emit EvRelease ;;
  ret values.
End Package.

(** ** Reading a run *)

Definition outcome {S E A} (run : result A * S * list E) : result A := fst (fst run).
Definition final {S E A} (run : result A * S * list E) : S := snd (fst run).
Definition trace {S E A} (run : result A * S * list E) : list E := snd run.

(** Number of reads of the firmware version in a trace. *)
Definition firmware_reads (tr : list Legacy.event) : nat :=
  length (filter (fun e => match e with Legacy.EvFirmwareVersion => true | _ => false end) tr).

(** A failed read with what follows it: the sleep of one second and the
    reset. *)
Definition failed_attempt : list Legacy.event :=
  [Legacy.EvFirmwareVersion; Legacy.EvSleep 1; Legacy.EvEspReset].

(** A card that answers on the bus but holds no FAT file system: the card
    object is made, and [storage.VfsFat] raises [OSError]. *)
Definition unformatted_card : Package.Board :=
  {| Package.has_audio_out := true;
     Package.has_speaker := false;
     Package.sdcard_new := Ok tt;
     Package.vfs_new := Raise OSError;
     Package.mount := Ok tt |}.

(** A sample rounding: down to a multiple of 1/256. *)
Definition round_down (q : Q) : Q := Qfloor (q * 256) # 256.

(** A board with a PWM backlight, the display at half brightness. *)
Definition pwm_light : Light :=
  {| _backlight := Some 0%Z;
     display := {| auto_brightness := true; brightness := NFloat (1 # 2) |} |}.

(** An ESP32 that answers the version query at the third read. *)
Definition slow_esp (n : nat) : result str :=
  match n with
  | 0%nat | 1%nat => Raise RuntimeError
  | _ => Ok (lit "1.2.2")
  end.

(** ** Reading [fetch] *)

(** A computation that leaves the attributes as they are. *)
Definition keeps_state {S E A} (c : M S E A) : Prop :=
  forall s, final (c s) = s.

(** Every event of every run satisfies [P]. *)
Definition emits_only {S E A} (P : E -> Prop) (c : M S E A) : Prop :=
  forall s, Forall P (trace (c s)).

(** [self._url] after [if refresh_url: self._url = refresh_url]. *)
Definition stored_url (self : Legacy.PyPortal) (refresh_url : option str)
  : option str :=
  if some_nonempty refresh_url then refresh_url else Legacy._url self.

(** [re.search(regexp, text).group(1)] *)
Definition first_group (env : Legacy.Env) (text regexp : str) : result pyval :=
  match Legacy.re_search env regexp text with
  | Some group => group 1%Z
  | None => Raise AttributeError
  end.

(** The URLs of the data requests in a trace. *)
Definition data_requests (tr : list Legacy.event) : list (option str) :=
  flat_map (fun e => match e with Legacy.EvGet url => [url] | _ => [] end) tr.

(** ** The order of the steps of [fetch] *)

(** [ascending l]: no element of [l] is followed by a smaller one. *)
Fixpoint ascending (l : list nat) : bool :=
  match l with
  | [] => true
  | a :: l' =>
      match l' with
      | [] => true
      | b :: _ => (a <=? b)%nat && ascending l'
      end
  end.

Section Steps.
Variable E : Type.

(** [rank e] is the step that the event [e] belongs to, if any. *)
Variable rank : E -> option nat.

Definition steps (tr : list E) : list nat :=
  flat_map (fun e => match rank e with Some n => [n] | None => [] end) tr.

(** The events of the trace come step after step. *)
Definition in_order (tr : list E) : Prop := ascending (steps tr) = true.

(** Every run of [c] is in order, with steps between [lo] and [hi]. *)
Definition band {S A} (lo hi : nat) (c : M S E A) : Prop :=
  forall s,
    in_order (trace (c s)) /\
    Forall (fun n => (lo <= n <= hi)%nat) (steps (trace (c s))).
End Steps.

Arguments steps {E} rank tr.
Arguments in_order {E} rank tr.
Arguments band {E} rank {S A} lo hi c.

(** The steps that the specification names, in [adafruit_pyportal.py]. *)
Definition legacy_step (e : Legacy.event) : option nat :=
  match e with
  | Legacy.EvGet _ => Some 1%nat
  | Legacy.EvJson | Legacy.EvTraverse _ => Some 2%nat
  | Legacy.EvConverterUrl _ | Legacy.EvWget _ _ _ | Legacy.EvSetBackground _ =>
      Some 3%nat
  | Legacy.EvSetText _ _ => Some 4%nat
  | _ => None
  end.

(** The same steps in the package: the request, JSON parsing and JSON-path
    traversal, image conversion and download and the background update, the
    text labels. *)
Definition package_step (e : Package.event) : option nat :=
  match e with
  | Package.EvNetworkFetch _ _ => Some 1%nat
  | Package.EvJson | Package.EvProcessJson _ => Some 2%nat
  | Package.EvProcessImage _ | Package.EvSetBackground _ => Some 3%nat
  | Package.EvFillTextLabels _ => Some 4%nat
  | _ => None
  end.

(** The order that the package follows: the values are extracted after the
    image is processed and shown. *)
Definition package_order (e : Package.event) : option nat :=
  match e with
  | Package.EvNetworkFetch _ _ | Package.EvCheckResponse => Some 1%nat
  | Package.EvJson => Some 2%nat
  | Package.EvProcessImage _ | Package.EvSetBackground _ => Some 3%nat
  | Package.EvProcessJson _ | Package.EvProcessText => Some 4%nat
  | Package.EvCallback _ => Some 5%nat
  | Package.EvFillTextLabels _ => Some 6%nat
  | Package.EvRelease => Some 7%nat
  end.

(** A computation that leaves the attribute read by [get] as it is. *)
Definition preserves {S E A X} (get : S -> X) (c : M S E A) : Prop :=
  forall s, get (final (c s)) = get s.

(** ** Sample objects *)

(** [s] between double quotes. *)
Definition quoted (s : str) : str := ascii_of_nat 34 :: s ++ [ascii_of_nat 34].

(** A response whose body is the JSON text of a price: the object with key
    bitcoin, holding the object with key usd and value 5. *)
Definition price_response : response :=
  {| text := lit "{" ++ quoted (lit "bitcoin") ++ lit ": {"
             ++ quoted (lit "usd") ++ lit ": 5}}";
     json := Ok (PDict [(lit "bitcoin", PDict [(lit "usd", PInt 5)])]) |}.

(** A world where the link is up and every request is answered with
    [price_response]; no regular expression matches. *)
Definition price_env : Legacy.Env :=
  {| Legacy.firmware_version := fun _ => Ok (lit "1.2.2");
     Legacy.is_connected := true;
     Legacy.connect_failures := 0;
     Legacy.ssid_is_placeholder := false;
     Legacy.local_file := Ok {| text := lit "local"; json := Raise ValueError |};
     Legacy.requests_get := fun _ _ => Ok price_response;
     Legacy.re_search := fun _ _ => None;
     Legacy.converter_url := fun _ _ _ => Ok (lit "https://io.adafruit.com/");
     Legacy.wget_outcome := fun _ _ _ => Ok tt;
     Legacy.open_bitmap := fun _ => Ok tt;
     Legacy.py_int := fun v => match v with PInt z => Ok z | _ => Raise TypeError end;
     Legacy.format_thousands := fun _ => lit "5";
     Legacy.py_str := fun _ => lit "?" |}.

(** A [PyPortal] built with a URL and one JSON path, nothing else. *)
Definition price_portal : Legacy.PyPortal :=
  {| Legacy._url := Some (lit "https://example.org/price");
     Legacy._headers := None;
     Legacy._json_path := Legacy.init_json_path
                            (Some (Legacy.OnePath [KStr (lit "bitcoin"); KStr (lit "usd")]));
     Legacy._regexp_path := None;
     Legacy._success_callback := None;
     Legacy._uselocal := false;
     Legacy._default_bg := PInt 0;
     Legacy._sdcard := false;
     Legacy._text_font := false;
     Legacy._text := None;
     Legacy._image_json_path := None;
     Legacy._image_url_path := None;
     Legacy._image_resize := (320%Z, 240%Z);
     Legacy._image_position := (0%Z, 0%Z) |}.

(** The same object on a device that holds the file [local.txt]. *)
Definition local_portal : Legacy.PyPortal :=
  {| Legacy._url := Some (lit "https://example.org/price");
     Legacy._headers := None;
     Legacy._json_path := None;
     Legacy._regexp_path := None;
     Legacy._success_callback := None;
     Legacy._uselocal := true;
     Legacy._default_bg := PInt 0;
     Legacy._sdcard := false;
     Legacy._text_font := false;
     Legacy._text := None;
     Legacy._image_json_path := None;
     Legacy._image_url_path := None;
     Legacy._image_resize := (320%Z, 240%Z);
     Legacy._image_position := (0%Z, 0%Z) |}.

(** Helper objects that answer every request with [price_response] as JSON,
    convert and download an image to [/cache.bmp], and extract the values by
    traversing the paths. *)
Definition price_helpers : Package.Helpers :=
  {| Package.network_fetch := fun _ _ => Ok price_response;
     Package.check_response := fun _ => Ok Package.CONTENT_JSON;
     Package.process_image := fun _ _ => Ok (PStr (lit "/cache.bmp"), Some (0%Z, 0%Z));
     Package.process_json := fun j paths =>
       match paths with
       | Some ps => rbind (rmap (_json_traverse j) ps) (fun vs => Ok (PList vs))
       | None => Ok j
       end;
     Package.process_text := fun t _ => Ok (PStr t);
     Package.graphics_set_background := fun _ _ => Ok tt;
     Package._fill_text_labels := fun _ => Ok tt |}.

(** A package [PyPortal] built with a URL and one JSON path. *)
Definition package_portal : Package.PyPortal :=
  {| Package.url := Some (lit "https://example.org/price");
     Package._json_path :=
       Some (Package.OnePath [KStr (lit "bitcoin"); KStr (lit "usd")]);
     Package._regexp_path := None;
     Package._success_callback := None;
     Package._default_bg := Some (PInt 0);
     Package.peripherals := {| Package._sdcard := None |} |}.

(** The requests of a trace of the package's [fetch]. *)
Definition network_fetches (tr : list Package.event) : list (option str * Z) :=
  flat_map (fun e => match e with
                     | Package.EvNetworkFetch url timeout => [(url, timeout)]
                     | _ => []
                     end) tr.

(** Events other than the data request. *)
Definition not_get (e : Legacy.event) : Prop :=
  match e with
  | Legacy.EvGet _ => False
  | _ => True
  end.

Definition not_network_fetch (e : Package.event) : Prop :=
  match e with
  | Package.EvNetworkFetch _ _ => False
  | _ => True
  end.

(** ** Further reading of the code *)

(** The words of a list, each behind a space: what the loop of [wrap_nicely]
    appends to the line while the words fit. *)
Definition spaced (words : list str) : str :=
  concat (map (cons space) words).

(** The duty cycle that [set_backlight] computes for [val]. *)
Definition duty_cycle (round : Q -> Q) (val : num) : result Z :=
  num_int (times_65535 round (clamp val)).

(** The events of the request and of the extraction of the values. *)
Definition extraction_event (e : Legacy.event) : Prop :=
  match e with
  | Legacy.EvEspConnect | Legacy.EvSleep _ | Legacy.EvLocalFile
  | Legacy.EvGet _ | Legacy.EvJson | Legacy.EvTraverse _ | Legacy.EvSearch _ => True
  | _ => False
  end.

(** The values that the callback was called with, call after call. *)
Definition callbacks (tr : list Legacy.event) : list pyval :=
  flat_map (fun e => match e with Legacy.EvCallback v => [v] | _ => [] end) tr.

(** Events other than a call of the callback. *)
Definition not_callback (e : Legacy.event) : Prop :=
  match e with
  | Legacy.EvCallback _ => False
  | _ => True
  end.

(** A download goes to one of the two cache files, with its chunk size. *)
Definition cache_download (e : Legacy.event) : Prop :=
  match e with
  | Legacy.EvWget _ filename chunk_size =>
      (filename = lit "/sd/cache.bmp" /\ chunk_size = 512%Z) \/
      (filename = lit "/cache.bmp" /\ chunk_size = 12000%Z)
  | _ => True
  end.

(** The attributes after [if refresh_url: self._url = refresh_url]. *)
Definition refreshed (self : Legacy.PyPortal) (refresh_url : option str)
  : Legacy.PyPortal :=
  if some_nonempty refresh_url then Legacy.with_url self refresh_url else self.

(** What a text area was built with: all of it but its label. *)
Definition layout (slot : Legacy.TextSlot)
  : pyval * option (Z * Z) * Z * Z * option (pyval -> result pyval) :=
  (Legacy.text_color slot, Legacy.text_position slot, Legacy.text_wrap slot,
   Legacy.text_maxlen slot, Legacy.text_transform slot).

Definition layouts (self : Legacy.PyPortal) := map layout (Legacy.slots_of self).

(** A world like [price_env] whose server answers with a page that is not
    JSON. *)
Definition html_response : response :=
  {| text := lit "<html>"; json := Raise ValueError |}.

Definition html_env : Legacy.Env :=
  {| Legacy.firmware_version := Legacy.firmware_version price_env;
     Legacy.is_connected := true;
     Legacy.connect_failures := 0;
     Legacy.ssid_is_placeholder := false;
     Legacy.local_file := Legacy.local_file price_env;
     Legacy.requests_get := fun _ _ => Ok html_response;
     Legacy.re_search := Legacy.re_search price_env;
     Legacy.converter_url := Legacy.converter_url price_env;
     Legacy.wget_outcome := Legacy.wget_outcome price_env;
     Legacy.open_bitmap := Legacy.open_bitmap price_env;
     Legacy.py_int := Legacy.py_int price_env;
     Legacy.format_thousands := Legacy.format_thousands price_env;
     Legacy.py_str := Legacy.py_str price_env |}.

(** [price_portal] asking for a key that the answer does not hold. *)
Definition euro_portal : Legacy.PyPortal :=
  {| Legacy._url := Legacy._url price_portal;
     Legacy._headers := None;
     Legacy._json_path := Some [[KStr (lit "bitcoin"); KStr (lit "eur")]];
     Legacy._regexp_path := None;
     Legacy._success_callback := None;
     Legacy._uselocal := false;
     Legacy._default_bg := PInt 0;
     Legacy._sdcard := false;
     Legacy._text_font := false;
     Legacy._text := None;
     Legacy._image_json_path := None;
     Legacy._image_url_path := None;
     Legacy._image_resize := (320%Z, 240%Z);
     Legacy._image_position := (0%Z, 0%Z) |}.

(** [price_portal] with a callback that accepts every value. *)
Definition callback_portal : Legacy.PyPortal :=
  {| Legacy._url := Legacy._url price_portal;
     Legacy._headers := None;
     Legacy._json_path := Legacy._json_path price_portal;
     Legacy._regexp_path := None;
     Legacy._success_callback := Some (fun _ => Ok tt);
     Legacy._uselocal := false;
     Legacy._default_bg := PInt 0;
     Legacy._sdcard := false;
     Legacy._text_font := false;
     Legacy._text := None;
     Legacy._image_json_path := None;
     Legacy._image_url_path := None;
     Legacy._image_resize := (320%Z, 240%Z);
     Legacy._image_position := (0%Z, 0%Z) |}.

(** The events of the image steps of [fetch]. *)
Definition image_event (e : Legacy.event) : Prop :=
  match e with
  | Legacy.EvTraverse _ | Legacy.EvSetBackground _ | Legacy.EvConverterUrl _
  | Legacy.EvWget _ _ _ => True
  | _ => False
  end.

(** [price_portal] that also looks for a picture in the answer. *)
Definition image_portal : Legacy.PyPortal :=
  {| Legacy._url := Legacy._url price_portal;
     Legacy._headers := None;
     Legacy._json_path := Legacy._json_path price_portal;
     Legacy._regexp_path := None;
     Legacy._success_callback := None;
     Legacy._uselocal := false;
     Legacy._default_bg := PInt 0;
     Legacy._sdcard := false;
     Legacy._text_font := false;
     Legacy._text := None;
     Legacy._image_json_path := Some [KStr (lit "image"); KStr (lit "url")];
     Legacy._image_url_path := None;
     Legacy._image_resize := (320%Z, 240%Z);
     Legacy._image_position := (0%Z, 0%Z) |}.

(** A text area at a position, without label yet. *)
Definition text_area (position : Z * Z) (maxlen : Z) : Legacy.TextSlot :=
  {| Legacy.text_label := None;
     Legacy.text_color := PInt 8421504;
     Legacy.text_position := Some position;
     Legacy.text_wrap := 0;
     Legacy.text_maxlen := maxlen;
     Legacy.text_transform := None |}.

(** [price_portal] with two JSON paths, a font and two text areas, the
    second of at most three characters. *)
Definition text_portal : Legacy.PyPortal :=
  {| Legacy._url := Legacy._url price_portal;
     Legacy._headers := None;
     Legacy._json_path := Some [[KStr (lit "bitcoin"); KStr (lit "usd")];
                                [KStr (lit "bitcoin")]];
     Legacy._regexp_path := None;
     Legacy._success_callback := None;
     Legacy._uselocal := false;
     Legacy._default_bg := PInt 0;
     Legacy._sdcard := false;
     Legacy._text_font := true;
     Legacy._text := Some [text_area (10, 20)%Z 0; text_area (10, 60)%Z 3];
     Legacy._image_json_path := None;
     Legacy._image_url_path := None;
     Legacy._image_resize := (320%Z, 240%Z);
     Legacy._image_position := (0%Z, 0%Z) |}.

(** ** [wget] in [adafruit_pyportal.py] *)

Module Download.

Local Open Scope effect_scope.

Definition bytes := list Byte.byte.

(** What the server and the file system answer during [wget]. *)
Record Env := {
  requests_get : str -> result unit;     (* requests.get(url, stream=True) *)
  content_length : result Z;             (* int(r.headers['content-length']) *)
  iter_content : Z -> list bytes;        (* the chunks of r.iter_content(n) *)
  open_wb : str -> result unit;          (* open(filename, "wb") *)
}.

Inductive event :=
| EvNeoFill (value : Z * Z * Z)          (* self.neopix.fill(value) *)
| EvGet (url : str)                      (* requests.get(url, stream=True) *)
| EvOpen (filename : str)                (* open(filename, "wb") *)
| EvWrite (data : bytes)                 (* file.write(i) *)
| EvClose                                (* file.close() *)
| EvResponseClose.                       (* r.close() *)

(** The status pixel, when there is one, and the files by name. *)
Record Device := {
  neopix : bool;
  files : str -> option bytes;
}.

Definition Run := M Device event.

(** The file [filename] holds [data]. *)
Definition store (self : Device) (filename : str) (data : bytes) : Device :=
  {| neopix := neopix self;
     files := fun name => if str_eqb name filename then Some data else files self name |}.

Definition content (self : Device) (filename : str) : bytes :=
  match files self filename with
  | Some data => data
  | None => []
  end.

(** [os.stat(filename)[6]] *)
Definition size (self : Device) (filename : str) : Z :=
  Z.of_nat (length (content self filename)).

(** [PyPortal.neo_status] *)
Definition neo_status (value : Z * Z * Z) : Run unit :=
  self <- get_self ;;
  if neopix self then emit (EvNeoFill value) else ret tt.

(** [file.write(i)] on the file opened as [filename]. *)
Definition write (filename : str) (data : bytes) : Run unit :=
  emit (EvWrite data) ;;
  self <- get_self ;;
  put_self (store self filename (content self filename ++ data)).

(** The loop [for i in r.iter_content(...)] over the chunks that the
    response yields, with [remaining] as it is before the round. *)
Fixpoint write_chunks (filename : str) (chunks : list bytes) (remaining : Z)
  : Run unit :=
  match chunks with
  | [] => ret tt
  | i :: chunks' =>
      neo_status (0, 100, 100)%Z ;;
      let remaining := (remaining - Z.of_nat (length i))%Z in
      write filename i ;;
      if (remaining =? 0)%Z then ret tt
      else
        neo_status (100, 100, 0)%Z ;;
        write_chunks filename chunks' remaining
  end.

(** [PyPortal.wget] *)
Definition wget (env : Env) (url filename : str) (chunk_size : Z) : Run unit :=
  neo_status (100, 100, 0)%Z ;;
  emit (EvGet url) ;;
  lift (requests_get env url) ;;
  content_length <- lift (content_length env) ;;
  let remaining := content_length in
  emit (EvOpen filename) ;;
  lift (open_wb env filename) ;;
  self <- get_self ;;
  put_self (store self filename []) ;;
  write_chunks filename (iter_content env (Z.min remaining chunk_size)) remaining ;;
  emit EvClose ;;
  emit EvResponseClose ;;
  neo_status (0, 0, 0)%Z ;;
  self <- get_self ;;
  if (content_length =? size self filename)%Z then ret tt
  else raise RuntimeError.
End Download.

(** Number of bytes of a list of chunks. *)
Definition total (chunks : list Download.bytes) : Z :=
  Z.of_nat (length (concat chunks)).

(** The number of chunks that the loop of [wget] reads: up to the first
    chunk that brings [remaining] to zero, or all of them. *)
Fixpoint taken (chunks : list Download.bytes) (remaining : Z) : nat :=
  match chunks with
  | [] => 0
  | i :: chunks' =>
      if (remaining - Z.of_nat (length i) =? 0)%Z then 1
      else S (taken chunks' (remaining - Z.of_nat (length i)))
  end.

(** A server that announces [n] bytes and sends four, in two chunks. *)
Definition four_bytes (n : Z) : Download.Env :=
  {| Download.requests_get := fun _ => Ok tt;
     Download.content_length := Ok n;
     Download.iter_content :=
       fun _ => [[Byte.x42; Byte.x4d]; [Byte.x00; Byte.x01]];
     Download.open_wb := fun _ => Ok tt |}.

(** A server that does not answer. *)
Definition no_server : Download.Env :=
  {| Download.requests_get := fun _ => Raise RuntimeError;
     Download.content_length := Ok 4%Z;
     Download.iter_content := fun _ => [];
     Download.open_wb := fun _ => Ok tt |}.

(** A device with a status pixel and no file. *)
Definition blank_device : Download.Device :=
  {| Download.neopix := true; Download.files := fun _ => None |}.

(** ** [show_QR] in [adafruit_pyportal.py] *)

(** [for a in l: b = f(b, a)], as long as no round raises. *)
Fixpoint rfold {A B} (f : B -> A -> result B) (l : list A) (b : B) : result B :=
  match l with
  | [] => Ok b
  | a :: l' => rbind (f b a) (rfold f l')
  end.

Module QR.

Local Open Scope effect_scope.

(** [displayio.Bitmap]: [width * height] pixels, row after row; a new bitmap
    holds zeros. *)
Record Bitmap := {
  width : nat;
  height : nat;
  pixels : list Z;
}.

Definition Bitmap_new (w h : nat) : Bitmap :=
  {| width := w; height := h; pixels := repeat 0%Z (w * h) |}.

(** [bitmap[i] = v] *)
Definition set_index (b : Bitmap) (i : nat) (v : Z) : result Bitmap :=
  if (i <? length (pixels b))%nat
  then Ok {| width := width b; height := height b;
             pixels := Legacy.replace_nth (pixels b) i v |}
  else Raise IndexError.

(** [bitmap[x, y] = v]: the pixel at index [y * width + x]. *)
Definition set_xy (b : Bitmap) (x y : nat) (v : Z) : result Bitmap :=
  if (x <? width b)%nat && (y <? height b)%nat
  then set_index b (y * width b + x) v
  else Raise IndexError.

(** [bitmap[x, y]] *)
Definition pixel (b : Bitmap) (x y : nat) : option Z :=
  if (x <? width b)%nat && (y <? height b)%nat
  then nth_error (pixels b) (y * width b + x)
  else None.

(** [qrcode.matrix] once the code is made. *)
Record Matrix := {
  m_width : nat;
  m_height : nat;
  get : nat -> nat -> bool;      (* qrcode.matrix[xx, yy] *)
}.

(** [for i in range(qr_bitmap.width * qr_bitmap.height): qr_bitmap[i] = 0] *)
Definition clear (b : Bitmap) : result Bitmap :=
  rfold (fun b i => set_index b i 0) (seq 0 (width b * height b)) b.

(** "transcribe QR code into bitmap" *)
Definition transcribe (m : Matrix) (b : Bitmap) : result Bitmap :=
  rfold (fun b xx =>
           rfold (fun b yy =>
                    set_xy b (xx + 1) (yy + 1) (if get m xx yy then 1%Z else 0%Z))
                 (seq 0 (m_height m)) b)
        (seq 0 (m_width m)) b.

(** "bitmap the size of the matrix, plus border, monochrome (2 colors)" *)
Definition qr_bitmap (m : Matrix) : result Bitmap :=
  rbind (clear (Bitmap_new (m_width m + 2) (m_height m + 2))) (transcribe m).

(** [displayio.TileGrid(qr_bitmap, pixel_shader=palette)] *)
Record Sprite := {
  bitmap : Bitmap;
  palette : list Z;
}.

(** [displayio.Group]; it is true when it holds an item. *)
Record Group := {
  scale : Z;
  gx : Z;
  gy : Z;
  items : list Sprite;
}.

(** The group that [self._qr_group] refers to, and the number of QR groups
    that were appended to [self.splash]: a group that [self] no longer
    refers to stays there. *)
Record Screen := {
  _qr_group : option Group;
  splash : nat;
}.

Inductive event :=
| EvShow (group : Group).          (* board.DISPLAY.show(self._qr_group) *)

Definition Run := M Screen event.

(** [PyPortal.show_QR], from the matrix of the code that was made. *)
Definition show_QR (m : Matrix) (qr_size x y : Z) : Run unit :=
  let palette := [16777215%Z; 0%Z] in
  qr_bitmap <- lift (qr_bitmap m) ;;
  let qr_sprite := {| bitmap := qr_bitmap; palette := palette |} in
  self <- get_self ;;
  let '(kept, splash) :=
    match _qr_group self with
    | Some group =>
        match items group with
        | _ :: _ => (removelast (items group), splash self)
        | [] => ([], S (splash self))
        end
    | None => ([], S (splash self))
    end in
  let group := {| scale := qr_size; gx := x; gy := y;
                  items := kept ++ [qr_sprite] |} in
  put_self {| _qr_group := Some group; splash := splash |} ;;
  emit (EvShow group).
End QR.

(** The pixel that [show_QR] wants at [(x, y)]: the module of the code
    inside the border, white on the border. *)
Definition qr_pixel (m : QR.Matrix) (x y : nat) : Z :=
  if ((1 <=? x) && (x <=? QR.m_width m) && (1 <=? y) && (y <=? QR.m_height m))%nat
  then if QR.get m (x - 1) (y - 1) then 1%Z else 0%Z
  else 0%Z.

(** A bitmap of [w] by [h] pixels. *)
Definition shaped (w h : nat) (b : QR.Bitmap) : Prop :=
  QR.width b = w /\ QR.height b = h /\ length (QR.pixels b) = (w * h)%nat.

(** What a round of a loop writes at [(x, y)], if it writes there. *)
Definition overwrites (written : option Z) (before : option Z) : option Z :=
  match written with
  | Some v => Some v
  | None => before
  end.

(** The sprite of a QR bitmap, white and black. *)
Definition qr_sprite (b : QR.Bitmap) : QR.Sprite :=
  {| QR.bitmap := b; QR.palette := [16777215%Z; 0%Z] |}.

(** The QR group holds at most one sprite, when there is one. *)
Definition one_code (s : QR.Screen) : Prop :=
  forall g, QR._qr_group s = Some g -> (length (QR.items g) <= 1)%nat.

(** A code of one black module. *)
Definition dot : QR.Matrix :=
  {| QR.m_width := 1; QR.m_height := 1; QR.get := fun _ _ => true |}.

(** A code of one white module. *)
Definition blank : QR.Matrix :=
  {| QR.m_width := 1; QR.m_height := 1; QR.get := fun _ _ => false |}.

(** The bitmap with the border around one module of colour [v]. *)
Definition framed (v : Z) : QR.Bitmap :=
  {| QR.width := 3; QR.height := 3;
     QR.pixels := [0; 0; 0; 0; v; 0; 0; 0; 0]%Z |}.

(** No QR code was shown yet. *)
Definition no_code : QR.Screen := {| QR._qr_group := None; QR.splash := 0 |}.

(** ** The SD card in the constructor of [adafruit_pyportal.py] *)

Module Setup.

Local Open Scope effect_scope.

Definition with_sdcard (self : Legacy.PyPortal) (card : bool) : Legacy.PyPortal :=
  {| Legacy._url := Legacy._url self;
     Legacy._headers := Legacy._headers self;
     Legacy._json_path := Legacy._json_path self;
     Legacy._regexp_path := Legacy._regexp_path self;
     Legacy._success_callback := Legacy._success_callback self;
     Legacy._uselocal := Legacy._uselocal self;
     Legacy._default_bg := Legacy._default_bg self;
     Legacy._sdcard := card;
     Legacy._text_font := Legacy._text_font self;
     Legacy._text := Legacy._text self;
     Legacy._image_json_path := Legacy._image_json_path self;
     Legacy._image_url_path := Legacy._image_url_path self;
     Legacy._image_resize := Legacy._image_resize self;
     Legacy._image_position := Legacy._image_position self |}.

(** The part of [PyPortal.__init__] between "Init SD Card" and the QR
    group: [self._sdcard] is true once the card object is made.  The card
    and the file system answer as in [Package.Board]. *)
Definition init_sdcard (board : Package.Board)
  : M Legacy.PyPortal Package.pevent unit :=
  self <- get_self ;;
  put_self (with_sdcard self false) ;;
  try_except
    (emit Package.EvSDCard ;;
     lift (Package.sdcard_new board) ;;
     self <- get_self ;;
     put_self (with_sdcard self true) ;;
     emit Package.EvVfsFat ;;
     lift (Package.vfs_new board) ;;
     emit Package.EvMount ;;
     lift (Package.mount board))
    (fun e =>
       match e with
       | OSError => Some (emit Package.EvNoCard)
       | _ => None
       end).
End Setup.

(** A download to the card, in chunks of one block. *)
Definition sd_download (e : Legacy.event) : Prop :=
  match e with
  | Legacy.EvWget _ filename chunk_size =>
      filename = lit "/sd/cache.bmp" /\ chunk_size = 512%Z
  | _ => True
  end.

(** ** [set_background] in [adafruit_pyportal.py] *)

Module Background.

Local Open Scope effect_scope.

(** What the file system and [displayio] answer. *)
Record Env := {
  open_rb : str -> result unit;          (* open(file_or_color, "rb") *)
  on_disk_bitmap : str -> result unit;   (* displayio.OnDiskBitmap(self._bg_file) *)
  position_keyword : bool;               (* TileGrid takes position=, or raises TypeError *)
}.

(** What a sprite shows, and where. *)
Inductive source :=
| FromFile (file : str)
| Fill (color : Z).

Record Sprite := {
  shows : source;
  at_x : Z;
  at_y : Z;
}.

(** The background group, the file objects made so far with [True] for
    those that are open, and the one that [self._bg_file] refers to. *)
Record Screen := {
  _bg_group : list Sprite;
  file_objects : list bool;
  _bg_file : option nat;
}.

Inductive event :=
| EvOpen (file : str)                    (* open(file_or_color, "rb") *)
| EvClose (file_object : nat)            (* self._bg_file.close() *)
| EvRefresh.                             (* refresh_soon(), wait_for_frame() *)

Definition Run := M Screen event.

(** [displayio.TileGrid(..., position=position)], and on [TypeError] the
    call with [x=] and [y=]. *)
Definition tile_grid (env : Env) (what : source) (first second : Z * Z) : Sprite :=
  let '(x, y) := if position_keyword env then first else second in
  {| shows := what; at_x := x; at_y := y |}.

Definition close (self : Screen) (file_object : nat) : Screen :=
  {| _bg_group := _bg_group self;
     file_objects := Legacy.replace_nth (file_objects self) file_object false;
     _bg_file := _bg_file self |}.

(** [PyPortal.set_background] *)
Definition set_background (env : Env) (file_or_color : pyval)
           (position : option (Z * Z)) : Run unit :=
  self <- get_self ;;
  (* while self._bg_group: self._bg_group.pop() *)
  put_self {| _bg_group := [];
              file_objects := file_objects self;
              _bg_file := _bg_file self |} ;;
  let position := match position with
                  | Some p => p
                  | None => (0, 0)%Z
                  end in
  if negb (truthy file_or_color) then ret tt
  else
    self <- get_self ;;
    match _bg_file self with
    | Some file_object =>
        emit (EvClose file_object) ;; put_self (close self file_object)
    | None => ret tt
    end ;;
    bg_sprite <-
      match file_or_color with
      | PStr file =>
          emit (EvOpen file) ;;
          lift (open_rb env file) ;;
          self <- get_self ;;
          put_self {| _bg_group := _bg_group self;
                      file_objects := file_objects self ++ [true];
                      _bg_file := Some (length (file_objects self)) |} ;;
          lift (on_disk_bitmap env file) ;;
          ret (tile_grid env (FromFile file) position position)
      | PInt color => ret (tile_grid env (Fill color) (0, 0)%Z position)
      | PBool b => ret (tile_grid env (Fill (if b then 1 else 0)%Z) (0, 0)%Z position)
      | _ => raise RuntimeError
      end ;;
    self <- get_self ;;
    put_self {| _bg_group := _bg_group self ++ [bg_sprite];
                file_objects := file_objects self;
                _bg_file := _bg_file self |} ;;
    emit EvRefresh.
End Background.

(** Of the file objects made for the background, only the one that
    [self._bg_file] refers to can be open. *)
Definition one_open_file (s : Background.Screen) : Prop :=
  forall n, nth_error (Background.file_objects s) n = Some true ->
            Background._bg_file s = Some n.

(** A world where every file opens as a bitmap and [TileGrid] takes the
    keyword [position]. *)
Definition bitmaps : Background.Env :=
  {| Background.open_rb := fun _ => Ok tt;
     Background.on_disk_bitmap := fun _ => Ok tt;
     Background.position_keyword := true |}.

(** A screen that shows a picture from the first file object. *)
Definition picture_screen : Background.Screen :=
  {| Background._bg_group :=
       [{| Background.shows := Background.FromFile (lit "/a.bmp");
           Background.at_x := 0; Background.at_y := 0 |}];
     Background.file_objects := [true];
     Background._bg_file := Some 0%nat |}.

(** Helper objects of a server that sends the price as plain text:
    [check_response] finds text content, and [process_text] without a
    regular expression gives the text back. *)
Definition text_helpers : Package.Helpers :=
  {| Package.network_fetch := fun _ _ => Ok price_response;
     Package.check_response := fun _ => Ok Package.CONTENT_TEXT;
     Package.process_image := Package.process_image price_helpers;
     Package.process_json := Package.process_json price_helpers;
     Package.process_text := fun t _ => Ok (PStr t);
     Package.graphics_set_background := Package.graphics_set_background price_helpers;
     Package._fill_text_labels := Package._fill_text_labels price_helpers |}.

(** The first call that fails in the [try] block of the image step of
    [fetch] raises [e]: the conversion of the URL, the download, or the
    opening of the downloaded file as the background. *)
Definition image_step_raises (env : Legacy.Env) (self : Legacy.PyPortal)
           (image_url : pyval) (e : exn) : Prop :=
  match Legacy.converter_url env image_url (fst (Legacy._image_resize self))
                             (snd (Legacy._image_resize self)) with
  | Raise e' => e' = e
  | Ok converted =>
      match Legacy.wget_outcome env converted (fst (Legacy.cache_file self))
                                (snd (Legacy.cache_file self)) with
      | Raise e' => e' = e
      | Ok _ => Legacy.open_bitmap env (fst (Legacy.cache_file self)) = Raise e
      end
  end.

(** The events of that [try] block: the conversion, the download, and the
    display of the cache file. *)
Definition image_attempt (filename : str) (ev : Legacy.event) : Prop :=
  match ev with
  | Legacy.EvConverterUrl _ | Legacy.EvWget _ _ _ => True
  | Legacy.EvSetBackground file_or_color => file_or_color = PStr filename
  | _ => False
  end.

(** A world like [price_env] where the downloaded file is not a bitmap. *)
Definition bad_picture : Legacy.Env :=
  {| Legacy.firmware_version := Legacy.firmware_version price_env;
     Legacy.is_connected := true;
     Legacy.connect_failures := 0;
     Legacy.ssid_is_placeholder := false;
     Legacy.local_file := Legacy.local_file price_env;
     Legacy.requests_get := Legacy.requests_get price_env;
     Legacy.re_search := Legacy.re_search price_env;
     Legacy.converter_url := Legacy.converter_url price_env;
     Legacy.wget_outcome := Legacy.wget_outcome price_env;
     Legacy.open_bitmap := fun _ => Raise ValueError;
     Legacy.py_int := Legacy.py_int price_env;
     Legacy.format_thousands := Legacy.format_thousands price_env;
     Legacy.py_str := Legacy.py_str price_env |}.

(** ** [_connect_esp] in [adafruit_pyportal.py], round by round *)

Module Link.

Local Open Scope effect_scope.

(** What the ESP32 and the secrets answer: the link at each read of
    [is_connected], each call of [connect], and the SSID. *)
Record Env := {
  is_connected : nat -> bool;        (* self._esp.is_connected, at its n-th read *)
  connect : nat -> result unit;      (* self._esp.connect(secrets), at its n-th call *)
  ssid : option str;                 (* secrets['ssid'] *)
  neopix : bool;                     (* self.neopix *)
}.

Inductive event :=
| EvNeoFill (value : Z * Z * Z)      (* self.neopix.fill(value) *)
| EvConnect                          (* self._esp.connect(secrets) *)
| EvSleep (seconds : Z).             (* time.sleep(seconds) *)

Definition Run := M unit event.

(** [PyPortal.neo_status] *)
Definition neo_status (env : Env) (value : Z * Z * Z) : Run unit :=
  if neopix env then emit (EvNeoFill value) else ret tt.

(** The loop [while not self._esp.is_connected] from its round [n], each
    round with one read of the link and one call of [connect], followed for
    at most [fuel] rounds: [None] when the loop is still running then. *)
Fixpoint connect_loop (env : Env) (fuel n : nat) : Run (option unit) :=
  match fuel with
  | O => ret None
  | S fuel' =>
      if is_connected env n then ret (Some tt)
      else
        match ssid env with
        | None => raise (KeyError (KStr (lit "ssid")))
        | Some name =>
            if str_eqb name (lit "CHANGE ME") then raise OSError
            else
              neo_status env (100, 0, 0)%Z ;;
              emit EvConnect ;;
              match connect env n with
              | Ok _ => connect_loop env fuel' (S n)
              | Raise RuntimeError =>
                  emit (EvSleep 3) ;;
                  connect_loop env fuel' (S n)
              | Raise e => raise e
              end
        end
  end.

(** [PyPortal._connect_esp] *)
Definition _connect_esp (env : Env) (fuel : nat) : Run (option unit) :=
  neo_status env (0, 0, 100)%Z ;;
  connect_loop env fuel 0.
End Link.

(** An attempt after which the loop goes on: [connect] returned, or raised
    the [RuntimeError] that the loop catches. *)
Definition retried (r : result unit) : Prop := r = Ok tt \/ r = Raise RuntimeError.

(** The link is read up at round [n + k] for the first time from round
    [n], and the loop goes on after each attempt before. *)
Definition comes_up (env : Link.Env) (n k : nat) : Prop :=
  Link.is_connected env (n + k) = true /\
  forall i, (i < k)%nat ->
    Link.is_connected env (n + i) = false /\ retried (Link.connect env (n + i)).

(** The secrets hold an SSID that is not the placeholder. *)
Definition ssid_set (env : Link.Env) : Prop :=
  exists name, Link.ssid env = Some name /\ str_eqb name (lit "CHANGE ME") = false.

(** What a round shows when its attempt is retried. *)
Definition round_events (env : Link.Env) (i : nat) : list Link.event :=
  (if Link.neopix env then [Link.EvNeoFill (100, 0, 0)%Z] else [])
  ++ Link.EvConnect
  :: match Link.connect env i with
     | Raise RuntimeError => [Link.EvSleep 3]
     | _ => []
     end.

(** The world of [Legacy.connect_loop n]: the attempts fail [n] times with
    [RuntimeError], the next one returns, and the link is up from then. *)
Definition fails_then_up (n : nat) : Link.Env :=
  {| Link.is_connected := fun i => (n <? i)%nat;
     Link.connect := fun i => if (i <? n)%nat then Raise RuntimeError else Ok tt;
     Link.ssid := Some (lit "home");
     Link.neopix := false |}.

(** The events of [Link] among those of [Legacy]. *)
Definition as_legacy (e : Link.event) : list Legacy.event :=
  match e with
  | Link.EvNeoFill _ => []
  | Link.EvConnect => [Legacy.EvEspConnect]
  | Link.EvSleep seconds => [Legacy.EvSleep seconds]
  end.

(** A link that comes up at the third read, after a failed and a silent
    attempt. *)
Definition third_read : Link.Env :=
  {| Link.is_connected := fun i => (2 <=? i)%nat;
     Link.connect := fun i => match i with
                              | O => Raise RuntimeError
                              | _ => Ok tt
                              end;
     Link.ssid := Some (lit "home");
     Link.neopix := true |}.

(** * Properties *)

(** ** JSON traversal *)

Lemma _json_traverse_app (j : pyval) (p q : list key) :
  _json_traverse j (p ++ q) = rbind (_json_traverse j p) (fun v => _json_traverse v q).
Proof.
  revert j; induction p as [|k p IH]; intros j; simpl.
  - reflexivity.
  - destruct (getitem j k) as [v|e]; [apply IH | reflexivity].
Qed.

Lemma _json_traverse_snoc (j : pyval) (p : list key) (k : key) :
  _json_traverse j (p ++ [k]) = rbind (_json_traverse j p) (fun v => getitem v k).
Proof.
  rewrite _json_traverse_app. destruct (_json_traverse j p) as [v|e]; simpl; auto.
  destruct (getitem v k); reflexivity.
Qed.

(** C2: [_json_traverse j [k0; ...; kn]] is the subscript expression
    [j[k0][k1]...[kn]] (same value, or the same exception from the first
    subscript that fails), and the empty path gives [j] itself. *)
Theorem json_traverse_is_subscript_chain (j : pyval) (p : list key) :
  _json_traverse j p = subscript_chain j (rev p) /\
  _json_traverse j [] = Ok j /\
  (forall k0 rest, _json_traverse j (k0 :: rest) =
                   rbind (getitem j k0) (fun v => _json_traverse v rest)).
Proof.
  split; [|split].
  - induction p as [|k p IH] using rev_ind.
    + reflexivity.
    + rewrite rev_app_distr; simpl. rewrite <- IH. apply _json_traverse_snoc.
  - reflexivity.
  - intros k0 rest; simpl. destruct (getitem j k0); reflexivity.
Qed.

(** ** Word wrapping *)

Section Split.
Variable sep : ascii.

Lemma str_split_not_nil (s : str) : str_split sep s <> [].
Proof.
  destruct s as [|c s]; simpl; [discriminate|].
  destruct (Ascii.eqb c sep); [discriminate|].
  destruct (str_split sep s); discriminate.
Qed.

Lemma str_split_app (a b : str) :
  str_split sep (a ++ sep :: b) = str_split sep a ++ str_split sep b.
Proof.
  induction a as [|c a IH]; simpl.
  - rewrite Ascii.eqb_refl. reflexivity.
  - destruct (Ascii.eqb c sep); rewrite IH; [reflexivity|].
    pose proof (str_split_not_nil a) as Hne.
    destruct (str_split sep a); [contradiction | reflexivity].
Qed.

Lemma str_split_no_sep (w : str) : ~ In sep w -> str_split sep w = [w].
Proof.
  induction w as [|c w IH]; simpl; intros Hn; [reflexivity|].
  destruct (Ascii.eqb_spec c sep) as [->|_]; [exfalso; auto|].
  rewrite IH by tauto. reflexivity.
Qed.

Lemma str_split_pieces (s : str) : Forall (fun w => ~ In sep w) (str_split sep s).
Proof.
  induction s as [|c s IH]; simpl.
  - constructor; auto.
  - destruct (Ascii.eqb_spec c sep) as [->|Hc].
    + constructor; auto.
    + destruct (str_split sep s) as [|w ws]; [repeat constructor; simpl; intuition|].
      inversion IH; subst. constructor; auto. simpl; intuition.
Qed.

(** The characters of the pieces are characters of the string. *)
Lemma str_split_chars (P : ascii -> Prop) (s : str) :
  Forall P s -> Forall (Forall P) (str_split sep s).
Proof.
  induction s as [|c s IH]; simpl; intros H.
  - repeat constructor.
  - inversion H; subst. specialize (IH H3).
    destruct (Ascii.eqb c sep); [constructor; auto|].
    destruct (str_split sep s) as [|w ws]; [repeat constructor; auto|].
    inversion IH; subst. constructor; auto.
Qed.
End Split.

Lemma replace_del_absent (c : ascii) (s : str) : ~ In c (replace_del c s).
Proof.
  unfold replace_del. rewrite filter_In. intros [_ H].
  rewrite Ascii.eqb_refl in H. discriminate.
Qed.

Lemma replace_del_keeps_absent (c d : ascii) (s : str) :
  ~ In d s -> ~ In d (replace_del c s).
Proof. unfold replace_del. rewrite filter_In. tauto. Qed.

Lemma replace_del_id (c : ascii) (s : str) : ~ In c s -> replace_del c s = s.
Proof.
  induction s as [|x s IH]; simpl; intros H; [reflexivity|].
  destruct (Ascii.eqb_spec x c) as [->|_]; [exfalso; auto|].
  simpl. rewrite IH by tauto. reflexivity.
Qed.

Lemma words_of_nil : words_of [] = [].
Proof. reflexivity. Qed.

Lemma words_of_app (a b : str) :
  words_of (a ++ space :: b) = words_of a ++ words_of b.
Proof. unfold words_of. rewrite str_split_app, filter_app. reflexivity. Qed.

Lemma words_of_word (w : str) :
  ~ In space w -> words_of w = filter nonempty [w].
Proof. intros H. unfold words_of. rewrite str_split_no_sep by assumption. reflexivity. Qed.

Lemma words_of_tl (l : str) :
  match l with [] => True | c :: _ => c = space end ->
  words_of (tl l) = words_of l.
Proof.
  destruct l as [|c r]; simpl; intros H; [reflexivity|]. subst c.
  unfold words_of. simpl. reflexivity.
Qed.

Lemma words_of_skip_empty (ls : list str) :
  concat (map words_of (filter nonempty ls)) = concat (map words_of ls).
Proof.
  induction ls as [|l ls IH]; simpl; [reflexivity|].
  destruct l; simpl; [exact IH | rewrite IH; reflexivity].
Qed.

Lemma words_of_many (l : str) :
  (1 < length (words_of l))%nat -> In space l.
Proof.
  intros H. destruct (in_dec ascii_dec space l) as [Hin|Hn]; [assumption|].
  rewrite words_of_word in H by assumption.
  simpl in H. destruct (nonempty l); simpl in H; lia.
Qed.

Section WrapLoop.
Variable max_chars : Z.

(** An invariant of the accumulator that every iteration preserves, for
    words satisfying [W], is preserved by the whole loop. *)
Lemma wrap_loop_invariant (I : list str * str -> Prop) (W : str -> Prop) :
  (forall acc w, I acc -> W w -> I (wrap_step max_chars acc w)) ->
  forall ws, Forall W ws ->
  forall acc, I acc -> I (fold_left (wrap_step max_chars) ws acc).
Proof.
  intros Hstep ws Hws. induction Hws as [|w ws Hw _ IH]; intros acc Hacc; simpl.
  - assumption.
  - apply IH, Hstep; assumption.
Qed.

Lemma wrap_step_collected (acc : list str * str) (w : str) :
  ~ In space w ->
  collected (wrap_step max_chars acc w) = collected acc ++ filter nonempty [w].
Proof.
  intros Hw. destruct acc as [ls l]. unfold wrap_step, collected.
  destruct (Z.leb _ _); cbn [fst snd].
  - rewrite words_of_app, (words_of_word _ Hw), app_assoc. reflexivity.
  - rewrite map_app, concat_app. cbn [map concat].
    rewrite app_nil_r, (words_of_word _ Hw). reflexivity.
Qed.

Lemma wrap_loop_collected (ws : list str) :
  Forall (fun w => ~ In space w) ws ->
  forall acc,
    collected (fold_left (wrap_step max_chars) ws acc)
    = collected acc ++ filter nonempty ws.
Proof.
  intros Hws. induction Hws as [|w ws Hw _ IH]; intros acc; simpl.
  - rewrite app_nil_r. reflexivity.
  - rewrite IH, (wrap_step_collected _ _ Hw). rewrite <- app_assoc.
    simpl. destruct (nonempty w); reflexivity.
Qed.

Lemma wrap_step_first_lead (acc : list str * str) (w : str) :
  first_lead acc -> first_lead (wrap_step max_chars acc w).
Proof.
  destruct acc as [ls l]. unfold wrap_step, first_lead.
  destruct (Z.leb _ _); cbn [fst snd]; intros H.
  - destruct ls; [|assumption]. destruct l; simpl in *; auto.
  - destruct ls; simpl; assumption.
Qed.

Lemma wrap_step_live (acc : list str * str) (w : str) :
  live (wrap_step max_chars acc w).
Proof.
  destruct acc as [ls l]. unfold wrap_step, live.
  destruct (Z.leb _ _); cbn [fst snd].
  - right. destruct l; discriminate.
  - left. destruct ls; discriminate.
Qed.

Lemma wrap_step_all_fit (acc : list str * str) (w : str) :
  all_fit max_chars acc -> ~ In space w -> all_fit max_chars (wrap_step max_chars acc w).
Proof.
  destruct acc as [ls l]. unfold wrap_step, all_fit.
  destruct (Z.leb_spec (Z.of_nat (length (l ++ space :: w))) max_chars);
    cbn [fst snd]; intros [Hls Hl] Hw.
  - split; [assumption|]. intros _. assumption.
  - split; [|intros Hin; contradiction].
    apply Forall_app; split; [assumption|]. constructor; auto.
Qed.

Lemma wrap_step_all_chars (P : ascii -> Prop) (acc : list str * str) (w : str) :
  P space -> all_chars P acc -> Forall P w ->
  all_chars P (wrap_step max_chars acc w).
Proof.
  destruct acc as [ls l]. unfold wrap_step, all_chars.
  destruct (Z.leb _ _); cbn [fst snd]; intros Hsp [Hls Hl] Hw.
  - split; [assumption|]. apply Forall_app; split; auto.
  - split; [|assumption]. apply Forall_app; split; auto.
Qed.
End WrapLoop.

Lemma fits_tl (max_chars : Z) (l : str) : fits max_chars l -> fits max_chars (tl l).
Proof.
  unfold fits. destruct l as [|c r]; simpl; [tauto|].
  intros H Hin. specialize (H (or_intror Hin)). lia.
Qed.

Lemma wrap_nicely_unfold (string : str) (max_chars : Z) :
  wrap_nicely string max_chars =
  match wrap_lines string max_chars with
  | [] => Raise IndexError
  | first :: others => Ok (tl first :: others)
  end.
Proof.
  unfold wrap_nicely, wrap_lines.
  destruct (fold_left _ _ _) as [ls l]. reflexivity.
Qed.

Lemma wrap_lines_not_nil (string : str) (max_chars : Z) :
  wrap_lines string max_chars <> [].
Proof.
  unfold wrap_lines.
  pose proof (str_split_not_nil space (replace_del CR (replace_del LF string))) as Hne.
  destruct (str_split space _) as [|w ws]; [contradiction|]. simpl.
  assert (Hl : live (fold_left (wrap_step max_chars) ws (wrap_step max_chars ([], []) w))).
  { apply (wrap_loop_invariant max_chars live (fun _ => True)).
    - intros; apply wrap_step_live.
    - clear. induction ws; constructor; auto.
    - apply wrap_step_live. }
  destruct (fold_left _ _ _) as [ls l]. destruct Hl as [H|H]; simpl in *.
  - destruct (nonempty l); destruct ls; try discriminate; contradiction.
  - destruct l; [contradiction|]. simpl. destruct ls; discriminate.
Qed.

Lemma wrap_lines_words (string : str) (max_chars : Z) :
  concat (map words_of (wrap_lines string max_chars))
  = words_of (replace_del CR (replace_del LF string)).
Proof.
  unfold wrap_lines.
  pose proof (wrap_loop_collected max_chars _
                (str_split_pieces space (replace_del CR (replace_del LF string)))
                ([], [])) as Hc.
  unfold collected in Hc. simpl in Hc.
  destruct (fold_left _ _ _) as [ls l]. cbn [fst snd] in *.
  unfold words_of at 2. rewrite <- Hc.
  destruct l; simpl.
  - rewrite app_nil_r. reflexivity.
  - rewrite map_app, concat_app. simpl. rewrite app_nil_r. reflexivity.
Qed.

Lemma wrap_lines_first (string : str) (max_chars : Z) :
  match wrap_lines string max_chars with
  | [] => True
  | first :: _ => lead first
  end.
Proof.
  unfold wrap_lines.
  assert (H : first_lead (fold_left (wrap_step max_chars)
              (str_split space (replace_del CR (replace_del LF string))) ([], []))).
  { apply (wrap_loop_invariant max_chars first_lead (fun _ => True)).
    - intros; apply wrap_step_first_lead; assumption.
    - induction (str_split _ _); constructor; auto.
    - exact I. }
  destruct (fold_left _ _ _) as [ls l]. unfold first_lead in H. cbn [fst snd] in *.
  destruct l; simpl; destruct ls; simpl in *; auto.
Qed.

Lemma wrap_lines_fit (string : str) (max_chars : Z) :
  Forall (fits max_chars) (wrap_lines string max_chars).
Proof.
  unfold wrap_lines.
  assert (H : all_fit max_chars (fold_left (wrap_step max_chars)
              (str_split space (replace_del CR (replace_del LF string))) ([], []))).
  { apply (wrap_loop_invariant max_chars (all_fit max_chars) (fun w => ~ In space w)).
    - intros; apply wrap_step_all_fit; assumption.
    - apply str_split_pieces.
    - split; [constructor | intros []]. }
  destruct (fold_left _ _ _) as [ls l]. destruct H as [Hls Hl]. cbn [fst snd] in *.
  destruct (nonempty l); [|assumption].
  apply Forall_app; split; auto.
Qed.

Lemma wrap_lines_chars (P : ascii -> Prop) (string : str) (max_chars : Z) :
  P space ->
  Forall P (replace_del CR (replace_del LF string)) ->
  Forall (Forall P) (wrap_lines string max_chars).
Proof.
  intros Hsp Hs. unfold wrap_lines.
  assert (H : all_chars P (fold_left (wrap_step max_chars)
              (str_split space (replace_del CR (replace_del LF string))) ([], []))).
  { apply (wrap_loop_invariant max_chars (all_chars P) (Forall P)).
    - intros; apply wrap_step_all_chars; assumption.
    - apply str_split_chars; assumption.
    - split; constructor. }
  destruct (fold_left _ _ _) as [ls l]. destruct H as [Hls Hl]. cbn [fst snd] in *.
  destruct (nonempty l); [|assumption].
  apply Forall_app; split; auto.
Qed.

(** C8: for [max_chars >= 1], [wrap_nicely] returns lines (it never raises)
    that hold no newline and no carriage return; the words of the returned
    lines, taken in order and skipping empty lines, are the words of the input
    stripped of newlines and carriage returns; and a returned line of more
    than one word is at most [max_chars] long.  A word is a non-empty run of
    characters between spaces. *)
Theorem wrap_nicely_words (string : str) (max_chars : Z) :
  (1 <= max_chars)%Z ->
  let stripped := replace_del CR (replace_del LF string) in
  exists lines,
    wrap_nicely string max_chars = Ok lines /\
    (~ In LF stripped /\ ~ In CR stripped) /\
    wrap_nicely stripped max_chars = Ok lines /\
    Forall (fun l => ~ In LF l /\ ~ In CR l) lines /\
    concat (map words_of (filter nonempty lines)) = words_of stripped /\
    Forall (fun l => (1 < length (words_of l))%nat ->
                     (Z.of_nat (length l) <= max_chars)%Z) lines.
Proof.
  intros _ stripped.
  assert (Hclean : ~ In LF stripped /\ ~ In CR stripped).
  { split; [apply replace_del_keeps_absent|]; apply replace_del_absent. }
  assert (Hidem : replace_del CR (replace_del LF stripped) = stripped).
  { destruct Hclean as [Hlf Hcr].
    rewrite (replace_del_id LF stripped Hlf). apply replace_del_id, Hcr. }
  assert (Hsame : wrap_lines stripped max_chars = wrap_lines string max_chars).
  { unfold wrap_lines. rewrite Hidem. reflexivity. }
  rewrite !wrap_nicely_unfold, Hsame.
  pose proof (wrap_lines_not_nil string max_chars) as Hne.
  pose proof (wrap_lines_words string max_chars) as Hw.
  pose proof (wrap_lines_first string max_chars) as Hf.
  pose proof (wrap_lines_fit string max_chars) as Hfit.
  pose proof (wrap_lines_chars (fun c => c <> LF /\ c <> CR) string max_chars) as Hch.
  destruct (wrap_lines string max_chars) as [|first others]; [contradiction|].
  exists (tl first :: others). repeat split; try tauto.
  - assert (Hall : Forall (Forall (fun c => c <> LF /\ c <> CR)) (first :: others)).
    { apply Hch.
      - split; discriminate.
      - apply Forall_forall. intros x Hx. fold stripped in Hx.
        split; intros ->; tauto. }
    assert (Hno : forall l, Forall (fun c => c <> LF /\ c <> CR) l ->
                            ~ In LF l /\ ~ In CR l).
    { intros l Hl. rewrite Forall_forall in Hl.
      split; intros Hin; apply Hl in Hin; tauto. }
    inversion Hall as [|? ? H1 H2]; subst. constructor.
    + apply Hno. destruct first; simpl; [constructor|]. inversion H1; assumption.
    + eapply Forall_impl; [|exact H2]. intros l Hl; apply Hno; exact Hl.
  - rewrite words_of_skip_empty. simpl. rewrite (words_of_tl _ Hf). exact Hw.
  - inversion Hfit as [|? ? H1 H2]; subst. constructor.
    + intros Hm. apply fits_tl; [assumption|]. apply words_of_many; assumption.
    + eapply Forall_impl; [|exact H2]. intros l Hl Hm.
      apply Hl, words_of_many; assumption.
Qed.

Lemma wrap_nicely_words_witness :
  exists lines,
    wrap_nicely (lit "the quick brown fox") 9 = Ok lines /\
    (~ In LF (replace_del CR (replace_del LF (lit "the quick brown fox"))) /\
     ~ In CR (replace_del CR (replace_del LF (lit "the quick brown fox")))) /\
    wrap_nicely (replace_del CR (replace_del LF (lit "the quick brown fox"))) 9
      = Ok lines /\
    Forall (fun l => ~ In LF l /\ ~ In CR l) lines /\
    concat (map words_of (filter nonempty lines))
      = words_of (replace_del CR (replace_del LF (lit "the quick brown fox"))) /\
    Forall (fun l => (1 < length (words_of l))%nat ->
                     (Z.of_nat (length l) <= 9)%Z) lines.
Proof.
  apply (wrap_nicely_words (lit "the quick brown fox") 9). lia.
Defined.

(** ** The backlight *)

Lemma Qtrunc_range (x : Q) (hi : Z) :
  0 <= x -> x <= inject_Z hi -> (0 <= Qtrunc x <= hi)%Z.
Proof.
  intros Hlo Hhi. unfold Qtrunc.
  destruct (Qlt_le_dec x 0) as [Hneg|_].
  - exfalso. apply (Qlt_not_le _ _ Hneg Hlo).
  - split.
    + change 0%Z with (Qfloor (inject_Z 0)) at 1.
      rewrite <- (Qfloor_Z 0) at 1. apply Qfloor_resp_le. exact Hlo.
    + rewrite <- (Qfloor_Z hi). apply Qfloor_resp_le. exact Hhi.
Qed.

Lemma Qtrunc_comp (a b : Q) : a == b -> Qtrunc a = Qtrunc b.
Proof.
  intros H. unfold Qtrunc.
  destruct (Qlt_le_dec a 0) as [Ha|Ha], (Qlt_le_dec b 0) as [Hb|Hb].
  - rewrite H. reflexivity.
  - exfalso. rewrite H in Ha. apply (Qlt_not_le _ _ Ha Hb).
  - exfalso. rewrite <- H in Hb. apply (Qlt_not_le _ _ Hb Ha).
  - rewrite H. reflexivity.
Qed.

Section BacklightFacts.
Variable round : Q -> Q.
Hypothesis round_mono : forall a b : Q, a <= b -> round a <= round b.
Hypothesis round_zero : round 0 == 0.
Hypothesis round_full : round 65535 == 65535.

(** What [clamp] can give: the integer 0, or a float in (0, 1]. *)
Lemma clamp_cases (val : num) :
  clamp val = NInt 0 \/ exists q, clamp val = NFloat q /\ 0 < q /\ q <= 1.
Proof.
  unfold clamp, py_min, py_max.
  destruct val as [z|q| | |]; simpl.
  - destruct (Qlt_le_dec (inject_Z z) 1) as [H|H]; simpl.
    + destruct (Z.ltb_spec 0 z) as [Hz|Hz]; [|left; reflexivity].
      exfalso. unfold Qlt, inject_Z in H; simpl in H. lia.
    + right. exists 1. split; [reflexivity | split; [reflexivity | apply Qle_refl]].
  - destruct (Qlt_le_dec q 1) as [H|H]; simpl.
    + destruct (Qlt_le_dec (inject_Z 0) q) as [Hq|Hq]; [|left; reflexivity].
      right. exists q. split; [reflexivity | split; [exact Hq | apply Qlt_le_weak, H]].
    + right. exists 1. split; [reflexivity | split; [reflexivity | apply Qle_refl]].
  - right. exists 1. split; [reflexivity | split; [reflexivity | apply Qle_refl]].
  - left. reflexivity.
  - right. exists 1. split; [reflexivity | split; [reflexivity | apply Qle_refl]].
Qed.

Lemma duty_cycle_range (val : num) :
  exists duty, num_int (times_65535 round (clamp val)) = Ok duty /\
               (0 <= duty <= 65535)%Z.
Proof.
  destruct (clamp_cases val) as [->|[q [-> [Hpos Hle]]]]; simpl.
  - exists 0%Z. split; [reflexivity | lia].
  - eexists; split; [reflexivity|].
    apply Qtrunc_range.
    + apply Qle_trans with (round 0).
      * rewrite round_zero. apply Qle_refl.
      * apply round_mono.
        apply Qmult_le_0_compat; [apply Qlt_le_weak, Hpos | discriminate].
    + apply Qle_trans with (round 65535).
      * apply round_mono.
        apply Qle_trans with (1 * 65535); [|apply Qle_refl].
        apply Qmult_le_compat_r; [exact Hle | discriminate].
      * rewrite round_full. apply Qle_refl.
Qed.

Lemma clamp_below (val : num) : num_lt val (NInt 0) = true -> clamp val = NInt 0.
Proof.
  unfold clamp, py_min, py_max.
  destruct val as [z|q| | |]; simpl; try discriminate.
  - intros Hz. apply Z.ltb_lt in Hz.
    destruct (Qlt_le_dec (inject_Z z) 1) as [H|H]; simpl.
    + destruct (Z.ltb_spec 0 z); [lia | reflexivity].
    + exfalso. unfold Qle, inject_Z in H; simpl in H. lia.
  - destruct (Qlt_le_dec q (inject_Z 0)) as [Hq|Hq]; [intros _ | discriminate].
    destruct (Qlt_le_dec q 1) as [H|H]; simpl.
    + destruct (Qlt_le_dec (inject_Z 0) q) as [Hq'|Hq']; [|reflexivity].
      exfalso. apply (Qlt_irrefl q). exact (Qlt_trans _ _ _ Hq Hq').
    + exfalso. apply (Qlt_not_le _ _ Hq). eapply Qle_trans; [|exact H]. compute; discriminate.
  - reflexivity.
Qed.

Lemma clamp_above (val : num) : num_lt (NFloat 1) val = true -> clamp val = NFloat 1.
Proof.
  unfold clamp, py_min, py_max.
  destruct val as [z|q| | |]; simpl; try discriminate.
  - destruct (Qlt_le_dec 1 (inject_Z z)) as [Hz|Hz]; [intros _ | discriminate].
    destruct (Qlt_le_dec (inject_Z z) 1) as [H|H]; simpl; [|reflexivity].
    exfalso. apply (Qlt_irrefl 1). exact (Qlt_trans _ _ _ Hz H).
  - destruct (Qlt_le_dec 1 q) as [Hq|Hq]; [intros _ | discriminate].
    destruct (Qlt_le_dec q 1) as [H|H]; simpl; [|reflexivity].
    exfalso. apply (Qlt_irrefl 1). exact (Qlt_trans _ _ _ Hq H).
  - reflexivity.
Qed.

Lemma clamp_inside (val : num) (v : Q) :
  num_value val = Some v ->
  num_lt val (NInt 0) = false -> num_lt (NFloat 1) val = false ->
  exists c, num_value (clamp val) = Some c /\ c == v.
Proof.
  unfold clamp, py_min, py_max.
  destruct val as [z|q| | |]; simpl; try discriminate; intros [= <-].
  - intros Hlo Hhi. apply Z.ltb_ge in Hlo.
    destruct (Qlt_le_dec 1 (inject_Z z)) as [|Hz1]; [discriminate|].
    destruct (Qlt_le_dec (inject_Z z) 1) as [H|H]; simpl.
    + destruct (Z.ltb_spec 0 z) as [Hz|Hz]; simpl; eexists; split; try reflexivity.
      assert (z = 0%Z) by lia. subst z. reflexivity.
    + exists 1. split; [reflexivity|]. apply Qle_antisym; assumption.
  - intros Hlo Hhi.
    destruct (Qlt_le_dec q (inject_Z 0)) as [|Hq0]; [discriminate|].
    destruct (Qlt_le_dec 1 q) as [|Hq1]; [discriminate|].
    destruct (Qlt_le_dec q 1) as [H|H]; simpl.
    + destruct (Qlt_le_dec (inject_Z 0) q) as [Hq|Hq]; simpl;
        eexists; split; try reflexivity.
      apply Qle_antisym; assumption.
    + exists 1. split; [reflexivity|]. apply Qle_antisym; assumption.
Qed.

(** C10: [set_backlight] applies [max(0, min(1.0, val))]: an argument below
    0 acts as 0, one above 1.0 acts as 1.0, one in between keeps its value;
    the clamped value [c] is a number between 0 and 1.  With a PWM backlight
    the call succeeds and writes the duty cycle [int(c * 65535)]: the
    product, rounded as the float format rounds it and cut to its integer
    part, which lies between 0 and 65535.  Without one the display gets
    the brightness [c]. *)
Theorem set_backlight_clamped (self : Light) (val : num) :
  (num_lt val (NInt 0) = true ->
     clamp val = NInt 0 /\
     set_backlight round self val = set_backlight round self (NInt 0)) /\
  (num_lt (NFloat 1) val = true ->
     clamp val = NFloat 1 /\
     set_backlight round self val = set_backlight round self (NFloat 1)) /\
  (forall v, num_value val = Some v ->
     num_lt val (NInt 0) = false -> num_lt (NFloat 1) val = false ->
     exists c, num_value (clamp val) = Some c /\ c == v) /\
  (exists c, num_value (clamp val) = Some c /\ 0 <= c /\ c <= 1 /\
     (forall pwm, _backlight self = Some pwm ->
        exists duty,
          duty = Qtrunc (round (c * 65535)) /\
          num_int (times_65535 round (clamp val)) = Ok duty /\
          set_backlight round self val
            = Ok {| _backlight := Some duty; display := display self |} /\
          (0 <= duty <= 65535)%Z)) /\
  (_backlight self = None ->
     set_backlight round self val
       = Ok {| _backlight := None;
               display := {| auto_brightness := false;
                             brightness := clamp val |} |}).
Proof.
  split; [|split; [|split; [|split]]].
  - intros H. pose proof (clamp_below val H) as Hc. split; [exact Hc|].
    unfold set_backlight. rewrite Hc. reflexivity.
  - intros H. pose proof (clamp_above val H) as Hc. split; [exact Hc|].
    unfold set_backlight. rewrite Hc.
    replace (clamp (NFloat 1)) with (NFloat 1); [reflexivity|].
    unfold clamp, py_min, py_max; simpl. reflexivity.
  - intros v. apply clamp_inside.
  - destruct (duty_cycle_range val) as [duty [Hd Hr]].
    assert (Hc : exists c, num_value (clamp val) = Some c /\ 0 <= c /\ c <= 1 /\
                           duty = Qtrunc (round (c * 65535))).
    { destruct (clamp_cases val) as [Hz|[q [Hq [Hq0 Hq1]]]]; rewrite ?Hz, ?Hq in *;
        cbn [times_65535 num_int num_value] in *; injection Hd as <-.
      - exists (inject_Z 0). split; [reflexivity|].
        split; [apply Qle_refl|]. split; [discriminate|].
        rewrite (Qtrunc_comp (round (inject_Z 0 * 65535)) 0); [reflexivity|].
        apply Qeq_trans with (round 0); [|exact round_zero].
        apply Qle_antisym; apply round_mono; compute; discriminate.
      - exists q. split; [reflexivity|].
        split; [apply Qlt_le_weak, Hq0|]. split; [exact Hq1|reflexivity]. }
    destruct Hc as (c & Hc & Hc0 & Hc1 & Hduty).
    exists c. split; [exact Hc|]. split; [exact Hc0|]. split; [exact Hc1|].
    intros pwm Hpwm. exists duty. split; [exact Hduty|]. split; [exact Hd|].
    split; [|exact Hr].
    unfold set_backlight. rewrite Hpwm, Hd. reflexivity.
  - intros Hnone. unfold set_backlight. rewrite Hnone. reflexivity.
Qed.
End BacklightFacts.

(** ** Finding the ESP32 *)

Lemma bind_run {S E A B} (c : M S E A) (f : A -> M S E B) (s : S) :
  bind c f s =
  match c s with
  | (Ok a, s', tr) => let '(r, s'', tr') := f a s' in (r, s'', tr ++ tr')
  | (Raise e, s', tr) => (Raise e, s', tr)
  end.
Proof. reflexivity. Qed.

Section EspRetry.
Variable env : Legacy.Env.

Lemma esp_retry_step (attempt remaining : nat) (s : Legacy.PyPortal) :
  Legacy.esp_retry env attempt (S remaining) s =
  match Legacy.firmware_version env attempt with
  | Ok _ => (Ok tt, s, [Legacy.EvFirmwareVersion])
  | Raise RuntimeError =>
      let '(r, s', tr) := Legacy.esp_retry env (S attempt) remaining s in
      (r, s', failed_attempt ++ tr)
  | Raise e => (Raise e, s, [Legacy.EvFirmwareVersion])
  end.
Proof.
  cbn [Legacy.esp_retry]. unfold bind, emit.
  destruct (Legacy.firmware_version env attempt) as [v|e]; [reflexivity|].
  destruct e; try reflexivity.
  destruct (Legacy.esp_retry env (S attempt) remaining s) as [[r s'] tr].
  destruct r; reflexivity.
Qed.

Lemma esp_retry_all_fail (remaining : nat) :
  forall attempt s,
    (forall i, (i < remaining)%nat ->
               Legacy.firmware_version env (attempt + i) = Raise RuntimeError) ->
    Legacy.esp_retry env attempt remaining s
    = (Raise RuntimeError, s, concat (repeat failed_attempt remaining)).
Proof.
  induction remaining as [|n IH]; intros attempt s Hall.
  - reflexivity.
  - rewrite esp_retry_step.
    rewrite <- (Nat.add_0_r attempt) at 1. rewrite (Hall 0%nat) by lia.
    rewrite IH; [reflexivity|].
    intros i Hi. rewrite Nat.add_succ_l, <- Nat.add_succ_r. apply Hall. lia.
Qed.

Lemma esp_retry_first_ok (k : nat) :
  forall remaining attempt s v,
    (k < remaining)%nat ->
    (forall i, (i < k)%nat ->
               Legacy.firmware_version env (attempt + i) = Raise RuntimeError) ->
    Legacy.firmware_version env (attempt + k) = Ok v ->
    Legacy.esp_retry env attempt remaining s
    = (Ok tt, s, concat (repeat failed_attempt k) ++ [Legacy.EvFirmwareVersion]).
Proof.
  induction k as [|k IH]; intros remaining attempt s v Hk Hfail Hok;
    (destruct remaining as [|n]; [lia|]); rewrite esp_retry_step.
  - rewrite Nat.add_0_r in Hok. rewrite Hok. reflexivity.
  - rewrite <- (Nat.add_0_r attempt) at 1. rewrite (Hfail 0%nat) by lia.
    rewrite (IH n (S attempt) s v); [reflexivity | lia | |].
    + intros i Hi. rewrite Nat.add_succ_l, <- Nat.add_succ_r. apply Hfail. lia.
    + rewrite Nat.add_succ_l, <- Nat.add_succ_r. exact Hok.
Qed.

(** Every run of the loop is a sequence of failed attempts, ended by
    nothing or by one more read. *)
Lemma esp_retry_shape (remaining : nat) :
  forall attempt s,
  exists k tail,
    trace (Legacy.esp_retry env attempt remaining s)
      = concat (repeat failed_attempt k) ++ tail /\
    final (Legacy.esp_retry env attempt remaining s) = s /\
    ((tail = [] /\ (k <= remaining)%nat) \/
     (tail = [Legacy.EvFirmwareVersion] /\ (k < remaining)%nat)).
Proof.
  induction remaining as [|n IH]; intros attempt s.
  - exists 0%nat, []. cbn. auto.
  - rewrite esp_retry_step.
    destruct (Legacy.firmware_version env attempt) as [v|e].
    + exists 0%nat, [Legacy.EvFirmwareVersion]. cbn. repeat split; auto with arith.
    + destruct (IH (S attempt) s) as (k & tail & Htr & Hfin & Htail).
      destruct e;
        try solve [exists 0%nat, [Legacy.EvFirmwareVersion]; cbn;
                   repeat split; auto with arith].
      destruct (Legacy.esp_retry env (S attempt) n s) as [[r s'] tr].
      cbv [trace final fst snd] in Htr, Hfin |- *. subst tr s'.
      exists (S k), tail. cbn [repeat concat]. rewrite <- app_assoc.
      repeat split; auto.
      destruct Htail as [[-> Hk]|[-> Hk]]; [left|right]; split; auto; lia.
Qed.

Lemma firmware_reads_app (a b : list Legacy.event) :
  firmware_reads (a ++ b) = (firmware_reads a + firmware_reads b)%nat.
Proof. unfold firmware_reads. rewrite filter_app, length_app. reflexivity. Qed.

Lemma firmware_reads_failed (k : nat) :
  firmware_reads (concat (repeat failed_attempt k)) = k.
Proof.
  induction k as [|k IH]; [reflexivity|].
  cbn [repeat concat]. rewrite firmware_reads_app, IH. reflexivity.
Qed.

Lemma failed_attempts_no_interface (k : nat) :
  ~ In Legacy.EvSetInterface (concat (repeat failed_attempt k)).
Proof.
  induction k as [|k IH]; cbn [repeat concat]; [intros []|].
  rewrite in_app_iff. intros [H|H]; [|auto].
  cbn in H. intuition discriminate.
Qed.
End EspRetry.

(** C4: the firmware version is read at most three times; a read that raises
    [RuntimeError] is followed by a sleep of one second and a reset; three
    failures make the constructor raise [RuntimeError]; the first read that
    succeeds ends the loop, and the constructor goes on to
    [requests.set_interface]. *)
Theorem esp32_retry (env : Legacy.Env) (self : Legacy.PyPortal) :
  let run := Legacy.esp_retry env 0 3 self in
  (firmware_reads (trace run) <= 3)%nat /\
  final run = self /\
  (exists k tail, (k <= 3)%nat /\
     trace run = concat (repeat failed_attempt k) ++ tail /\
     (tail = [] \/ tail = [Legacy.EvFirmwareVersion])) /\
  ((forall i, (i < 3)%nat -> Legacy.firmware_version env i = Raise RuntimeError) ->
     outcome run = Raise RuntimeError /\
     trace run = concat (repeat failed_attempt 3) /\
     outcome (Legacy.init_esp32 env self) = Raise RuntimeError /\
     ~ In Legacy.EvSetInterface (trace (Legacy.init_esp32 env self))) /\
  (forall k v, (k < 3)%nat ->
     (forall i, (i < k)%nat -> Legacy.firmware_version env i = Raise RuntimeError) ->
     Legacy.firmware_version env k = Ok v ->
     outcome run = Ok tt /\
     trace run = concat (repeat failed_attempt k) ++ [Legacy.EvFirmwareVersion] /\
     firmware_reads (trace run) = S k /\
     In Legacy.EvSetInterface (trace (Legacy.init_esp32 env self))).
Proof.
  intros run.
  destruct (esp_retry_shape env 3 0 self) as (k & tail & Htr & Hfin & Htail).
  fold run in Htr, Hfin.
  split; [|split; [exact Hfin|split; [|split]]].
  - rewrite Htr, firmware_reads_app, firmware_reads_failed.
    destruct Htail as [[-> Hk]|[-> Hk]]; cbn; lia.
  - exists k, tail. split; [|split; [exact Htr|]];
      destruct Htail as [[-> Hk]|[-> Hk]]; auto; lia.
  - intros Hall.
    assert (Hrun : run = (Raise RuntimeError, self, concat (repeat failed_attempt 3))).
    { apply esp_retry_all_fail. intros i Hi. apply Hall, Hi. }
    unfold Legacy.init_esp32. rewrite bind_run. fold run. rewrite Hrun.
    repeat split. apply failed_attempts_no_interface.
  - intros j v Hj Hfail Hok.
    assert (Hrun : run = (Ok tt, self,
                          concat (repeat failed_attempt j) ++ [Legacy.EvFirmwareVersion])).
    { apply (esp_retry_first_ok env j 3 0 self v Hj); [exact Hfail | exact Hok]. }
    unfold Legacy.init_esp32. rewrite bind_run. fold run. rewrite Hrun.
    unfold outcome, trace. cbn [fst snd].
    split; [reflexivity|]. split; [reflexivity|]. split.
    + rewrite firmware_reads_app, firmware_reads_failed. cbn. lia.
    + unfold bind, emit, get_self, ret.
      destruct (some_nonempty (Legacy._url self) && negb (Legacy._uselocal self));
        [destruct (Legacy._connect_esp env self) as [[[] ?] ?]|];
        cbn [snd]; rewrite !in_app_iff; cbn; auto.
Qed.

(** ** The SD card *)

Section SdCard.
Variable board : Package.Board.
Variable blank : Package.Peripherals.
Hypothesis audio : Package.has_audio_out board = true \/ Package.has_speaker board = true.

Let run := Package.Peripherals_init board blank.

Lemma init_unfold :
  run =
  match Package.sdcard_new board with
  | Ok card =>
      match Package.vfs_new board with
      | Ok _ =>
          match Package.mount board with
          | Ok _ =>
              (Ok tt, {| Package._sdcard := Some card |},
               [Package.EvSpeakerOff; Package.EvAudioOut; Package.EvSDCard;
                Package.EvVfsFat; Package.EvMount])
          | Raise OSError =>
              (Ok tt, {| Package._sdcard := Some card |},
               [Package.EvSpeakerOff; Package.EvAudioOut; Package.EvSDCard;
                Package.EvVfsFat; Package.EvMount; Package.EvNoCard])
          | Raise e =>
              (Raise e, {| Package._sdcard := Some card |},
               [Package.EvSpeakerOff; Package.EvAudioOut; Package.EvSDCard;
                Package.EvVfsFat; Package.EvMount])
          end
      | Raise OSError =>
          (Ok tt, {| Package._sdcard := Some card |},
           [Package.EvSpeakerOff; Package.EvAudioOut; Package.EvSDCard;
            Package.EvVfsFat; Package.EvNoCard])
      | Raise e =>
          (Raise e, {| Package._sdcard := Some card |},
           [Package.EvSpeakerOff; Package.EvAudioOut; Package.EvSDCard;
            Package.EvVfsFat])
      end
  | Raise OSError =>
      (Ok tt, {| Package._sdcard := None |},
       [Package.EvSpeakerOff; Package.EvAudioOut; Package.EvSDCard;
        Package.EvNoCard])
  | Raise e =>
      (Raise e, {| Package._sdcard := None |},
       [Package.EvSpeakerOff; Package.EvAudioOut; Package.EvSDCard])
  end.
Proof.
  unfold run, Package.Peripherals_init.
  assert (Haudio :
    (if Package.has_audio_out board then emit Package.EvAudioOut
     else if Package.has_speaker board then emit Package.EvAudioOut
     else raise AttributeError)
    = (emit Package.EvAudioOut : M Package.Peripherals Package.pevent unit)).
  { destruct audio as [-> | H]; [reflexivity|].
    rewrite H. destruct (Package.has_audio_out board); reflexivity. }
  rewrite Haudio.
  unfold bind, try_except, emit, put_self, lift.
  destruct (Package.sdcard_new board) as [card|e]; [|destruct e; reflexivity].
  destruct (Package.vfs_new board) as [[]|e]; [|destruct e; reflexivity].
  destruct (Package.mount board) as [[]|e]; [|destruct e; reflexivity].
  reflexivity.
Qed.

(** No card on the bus: the [OSError] of [SDCard(...)] is caught and the
    card is marked absent. *)
Lemma init_without_card :
  Package.sdcard_new board = Raise OSError ->
  outcome run = Ok tt /\ Package.sd_check (final run) = false.
Proof. intros H. rewrite init_unfold, H. auto. Qed.

(** The mount succeeds: the card is marked present. *)
Lemma init_with_mounted_card :
  Package.mount_succeeded board ->
  outcome run = Ok tt /\ Package.sd_check (final run) = true.
Proof. intros (H1 & H2 & H3). rewrite init_unfold, H1, H2, H3. auto. Qed.

(** X18: after a constructor of [Peripherals] that completes, [sd_check()]
    is true exactly when the card object was made, whatever became of the
    file system and of the mount. *)
Lemma sd_check_after_init :
  outcome run = Ok tt ->
  (Package.sd_check (final run) = true <-> Package.sdcard_new board = Ok tt).
Proof.
  rewrite init_unfold.
  destruct (Package.sdcard_new board) as [[]|e].
  - destruct (Package.vfs_new board) as [[]|e].
    + destruct (Package.mount board) as [[]|e]; [|destruct e]; cbn; tauto.
    + destruct e; cbn; tauto.
  - destruct e; cbn; intros H; split; intros H'; discriminate.
Qed.
End SdCard.

(** C6, at the failing input: with a card that has no file system, the
    [OSError] of the mount is caught, "No SD card found" is printed and the
    constructor completes, but [sd_check()] returns [True] although the mount
    did not succeed. *)
Theorem sd_check_after_failed_mount (blank : Package.Peripherals) :
  let run := Package.Peripherals_init unformatted_card blank in
  outcome run = Ok tt /\
  In Package.EvNoCard (trace run) /\
  ~ In Package.EvMount (trace run) /\
  ~ Package.mount_succeeded unformatted_card /\
  Package.sd_check (final run) = true.
Proof.
  cbn. repeat split.
  - auto 10.
  - intuition discriminate.
  - intros (_ & H & _). discriminate.
Qed.

(** ** Runs *)

Section Runs.
Context {S E : Type}.

Lemma bind_ok_inv {A B} (c : M S E A) (f : A -> M S E B) s b s2 tr :
  bind c f s = (Ok b, s2, tr) ->
  exists a s1 tr1 tr2,
    c s = (Ok a, s1, tr1) /\ f a s1 = (Ok b, s2, tr2) /\ tr = tr1 ++ tr2.
Proof.
  unfold bind. destruct (c s) as [[[a|e] s1] tr1]; [|discriminate].
  destruct (f a s1) as [[r s'] tr2] eqn:Hf. intros [= -> -> <-].
  exists a, s1, tr1, tr2. auto.
Qed.

Lemma bind_trace {A B} (c : M S E A) (f : A -> M S E B) s :
  trace (bind c f s) =
  match outcome (c s) with
  | Ok a => trace (c s) ++ trace (f a (final (c s)))
  | Raise _ => trace (c s)
  end.
Proof.
  unfold bind, trace, outcome, final.
  destruct (c s) as [[[a|e] s1] tr1]; cbn; [|reflexivity].
  destruct (f a s1) as [[r s'] tr2]; reflexivity.
Qed.

Lemma bind_final {A B} (c : M S E A) (f : A -> M S E B) s :
  final (bind c f s) =
  match outcome (c s) with
  | Ok a => final (f a (final (c s)))
  | Raise _ => final (c s)
  end.
Proof.
  unfold bind, trace, outcome, final.
  destruct (c s) as [[[a|e] s1] tr1]; cbn; [|reflexivity].
  destruct (f a s1) as [[r s'] tr2]; reflexivity.
Qed.

Lemma keeps_state_bind {A B} (c : M S E A) (f : A -> M S E B) :
  keeps_state c -> (forall a, keeps_state (f a)) -> keeps_state (bind c f).
Proof.
  intros Hc Hf s. rewrite bind_final.
  destruct (outcome (c s)); [rewrite Hf|]; apply Hc.
Qed.

Lemma keeps_state_try {A} (c : M S E A) handler :
  keeps_state c ->
  (forall e h, handler e = Some h -> keeps_state h) ->
  keeps_state (try_except c handler).
Proof.
  intros Hc Hh s. specialize (Hc s). unfold try_except, final in *.
  destruct (c s) as [[[a|e] s1] tr1]; cbn in *; [assumption|].
  destruct (handler e) as [h|] eqn:He; [|assumption].
  specialize (Hh e h He s1). unfold final in Hh.
  destruct (h s1) as [[r s'] tr2]; cbn in *. congruence.
Qed.

Lemma keeps_state_ret {A} (a : A) : keeps_state (ret a : M S E A).
Proof. intros s; reflexivity. Qed.

Lemma keeps_state_raise {A} e : keeps_state (raise e : M S E A).
Proof. intros s; reflexivity. Qed.

Lemma keeps_state_lift {A} (r : result A) : keeps_state (lift r : M S E A).
Proof. intros s; reflexivity. Qed.

Lemma keeps_state_emit (e : E) : keeps_state (emit e : M S E unit).
Proof. intros s; reflexivity. Qed.

Lemma keeps_state_get : keeps_state (get_self : M S E S).
Proof. intros s; reflexivity. Qed.

Lemma keeps_state_collect {A B} (l : list A) (f : A -> M S E B) :
  (forall a, keeps_state (f a)) -> keeps_state (collect l f).
Proof.
  intros Hf. induction l as [|a l IH]; cbn [collect].
  - apply keeps_state_ret.
  - apply keeps_state_bind; [apply Hf|]. intros b.
    apply keeps_state_bind; [apply IH|]. intros bs. apply keeps_state_ret.
Qed.

Lemma emits_only_bind {A B} (P : E -> Prop) (c : M S E A) (f : A -> M S E B) :
  emits_only P c -> (forall a, emits_only P (f a)) -> emits_only P (bind c f).
Proof.
  intros Hc Hf s. rewrite bind_trace.
  destruct (outcome (c s)); [apply Forall_app; split|]; auto. apply Hf.
Qed.

Lemma emits_only_try {A} (P : E -> Prop) (c : M S E A) handler :
  emits_only P c ->
  (forall e h, handler e = Some h -> emits_only P h) ->
  emits_only P (try_except c handler).
Proof.
  intros Hc Hh s. specialize (Hc s). unfold try_except, trace in *.
  destruct (c s) as [[[a|e] s1] tr1]; cbn in *; [assumption|].
  destruct (handler e) as [h|] eqn:He; [|assumption].
  specialize (Hh e h He s1). unfold trace in Hh.
  destruct (h s1) as [[r s'] tr2]; cbn in *. apply Forall_app; auto.
Qed.

Lemma emits_only_silent {A} (P : E -> Prop) (c : M S E A) :
  (forall s, trace (c s) = []) -> emits_only P c.
Proof. intros H s. rewrite H. constructor. Qed.

Lemma emits_only_emit (P : E -> Prop) (e : E) : P e -> emits_only P (emit e : M S E unit).
Proof. intros H s. repeat constructor. exact H. Qed.

Lemma emits_only_collect {A B} (P : E -> Prop) (l : list A) (f : A -> M S E B) :
  (forall a, emits_only P (f a)) -> emits_only P (collect l f).
Proof.
  intros Hf. induction l as [|a l IH]; cbn [collect].
  - apply emits_only_silent; reflexivity.
  - apply emits_only_bind; [apply Hf|]. intros b.
    apply emits_only_bind; [apply IH|]. intros bs. apply emits_only_silent; reflexivity.
Qed.

Lemma emits_only_for_each {A} (P : E -> Prop) (l : list A) (body : A -> M S E unit) :
  (forall a, emits_only P (body a)) -> emits_only P (for_each l body).
Proof.
  intros Hf. induction l as [|a l IH]; cbn [for_each].
  - apply emits_only_silent; reflexivity.
  - apply emits_only_bind; [apply Hf|]. intros _. apply IH.
Qed.

Lemma emits_only_weaken {A} (P Q : E -> Prop) (c : M S E A) :
  (forall e, P e -> Q e) -> emits_only P c -> emits_only Q c.
Proof. intros H Hc s. eapply Forall_impl; [exact H | apply Hc]. Qed.
End Runs.

Ltac keeps :=
  repeat first
    [ apply keeps_state_ret | apply keeps_state_raise | apply keeps_state_lift
    | apply keeps_state_emit | apply keeps_state_get
    | apply keeps_state_bind; [|intros ?]
    | apply keeps_state_collect; intros ?
    | apply keeps_state_try;
      [|let e := fresh "e" in let h := fresh "h" in
        intros e h; destruct e; try discriminate; intros [= <-]]
    | match goal with
      | |- keeps_state (match ?x with _ => _ end) => destruct x
      end ].

Ltac emits :=
  repeat first
    [ apply emits_only_silent; reflexivity
    | apply emits_only_emit; exact I
    | apply emits_only_bind; [|intros ?]
    | apply emits_only_collect; intros ?
    | apply emits_only_for_each; intros ?
    | apply emits_only_try;
      [|let e := fresh "e" in let h := fresh "h" in
        intros e h; destruct e; try discriminate; intros [= <-]]
    | match goal with
      | |- emits_only _ (match ?x with _ => _ end) => destruct x
      end ].

(** ** Order of events *)

Lemma ascending_app (l1 l2 : list nat) (mid : nat) :
  ascending l1 = true -> ascending l2 = true ->
  Forall (fun n => (n <= mid)%nat) l1 -> Forall (fun n => (mid <= n)%nat) l2 ->
  ascending (l1 ++ l2) = true.
Proof.
  intros H1 H2 F1 F2. induction l1 as [|a l1 IH]; [exact H2|].
  inversion F1 as [|? ? Ha F1']; subst.
  cbn [app]. destruct l1 as [|b l1].
  - cbn [app]. destruct l2 as [|c l2]; [reflexivity|].
    inversion F2; subst.
    change (ascending (a :: c :: l2)) with ((a <=? c)%nat && ascending (c :: l2)).
    rewrite H2, andb_true_r. apply Nat.leb_le. lia.
  - change (ascending (a :: b :: l1)) with ((a <=? b)%nat && ascending (b :: l1)) in H1.
    apply andb_prop in H1 as [Hab H1].
    specialize (IH H1 F1'). cbn [app] in *.
    change (ascending (a :: b :: l1 ++ l2)) with
      ((a <=? b)%nat && ascending (b :: l1 ++ l2)).
    rewrite Hab, IH. reflexivity.
Qed.

Section Bands.
Context {S E : Type} (rank : E -> option nat).

Lemma steps_app (t1 t2 : list E) : steps rank (t1 ++ t2) = steps rank t1 ++ steps rank t2.
Proof. unfold steps. apply flat_map_app. Qed.

Lemma band_weaken {A} (lo hi lo' hi' : nat) (c : M S E A) :
  band rank lo hi c -> (lo' <= lo)%nat -> (hi <= hi')%nat -> band rank lo' hi' c.
Proof.
  intros H Hlo Hhi s. destruct (H s) as [Ho Hb]. split; [exact Ho|].
  eapply Forall_impl; [|exact Hb]. cbn. intros n Hn. lia.
Qed.

Lemma band_silent {A} (lo hi : nat) (c : M S E A) :
  (forall s, steps rank (trace (c s)) = []) -> band rank lo hi c.
Proof. intros H s. unfold in_order. rewrite H. split; [reflexivity | constructor]. Qed.

Lemma band_bind {A B} (lo mid hi : nat) (c : M S E A) (f : A -> M S E B) :
  band rank lo mid c -> (forall a, band rank mid hi (f a)) ->
  (lo <= mid)%nat -> (mid <= hi)%nat ->
  band rank lo hi (bind c f).
Proof.
  intros Hc Hf Hlo Hhi s. rewrite bind_trace.
  destruct (Hc s) as [Ho Hb].
  destruct (outcome (c s)) as [a|e].
  - destruct (Hf a (final (c s))) as [Ho' Hb']. unfold in_order.
    rewrite steps_app. split.
    + apply ascending_app with (mid := mid); auto.
      * eapply Forall_impl; [|exact Hb]. cbn. intros n Hn. lia.
      * eapply Forall_impl; [|exact Hb']. cbn. intros n Hn. lia.
    + apply Forall_app; split.
      * eapply Forall_impl; [|exact Hb]. cbn. intros n Hn. lia.
      * eapply Forall_impl; [|exact Hb']. cbn. intros n Hn. lia.
  - split; [exact Ho|]. eapply Forall_impl; [|exact Hb]. cbn. intros n Hn. lia.
Qed.

Lemma band_try {A} (lo mid hi : nat) (c : M S E A) handler :
  band rank lo mid c ->
  (forall e h, handler e = Some h -> band rank mid hi h) ->
  (lo <= mid)%nat -> (mid <= hi)%nat ->
  band rank lo hi (try_except c handler).
Proof.
  intros Hc Hh Hlo Hhi s. destruct (Hc s) as [Ho Hb].
  unfold try_except, trace, in_order in *.
  destruct (c s) as [[[a|e] s1] tr1]; cbn [snd] in *.
  - split; [exact Ho|]. eapply Forall_impl; [|exact Hb]. cbn. intros n Hn. lia.
  - destruct (handler e) as [h|] eqn:He.
    + destruct (Hh e h He s1) as [Ho' Hb']. unfold trace, in_order in *.
      destruct (h s1) as [[r s'] tr2]; cbn [snd] in *.
      rewrite steps_app. split.
      * apply ascending_app with (mid := mid); auto.
        -- eapply Forall_impl; [|exact Hb]. cbn. intros n Hn. lia.
        -- eapply Forall_impl; [|exact Hb']. cbn. intros n Hn. lia.
      * apply Forall_app; split.
        -- eapply Forall_impl; [|exact Hb]. cbn. intros n Hn. lia.
        -- eapply Forall_impl; [|exact Hb']. cbn. intros n Hn. lia.
    + split; [exact Ho|]. eapply Forall_impl; [|exact Hb]. cbn. intros n Hn. lia.
Qed.

Lemma band_emit (n : nat) (e : E) :
  (rank e = Some n \/ rank e = None) -> band rank n n (emit e : M S E unit).
Proof.
  intros H s. unfold in_order, steps. cbn.
  destruct H as [-> | ->]; cbn; split; auto.
Qed.

Lemma band_ret {A} (n : nat) (a : A) : band rank n n (ret a : M S E A).
Proof. apply band_silent. reflexivity. Qed.

Lemma band_raise {A} (n : nat) e : band rank n n (raise e : M S E A).
Proof. apply band_silent. reflexivity. Qed.

Lemma band_lift {A} (n : nat) (r : result A) : band rank n n (lift r : M S E A).
Proof. apply band_silent. reflexivity. Qed.

Lemma band_get (n : nat) : band rank n n (get_self : M S E S).
Proof. apply band_silent. reflexivity. Qed.

Lemma band_put (n : nat) s' : band rank n n (put_self s' : M S E unit).
Proof. apply band_silent. reflexivity. Qed.

Lemma band_collect {A B} (n : nat) (l : list A) (f : A -> M S E B) :
  (forall a, band rank n n (f a)) -> band rank n n (collect l f).
Proof.
  intros Hf. induction l as [|a l IH]; cbn [collect].
  - apply band_ret.
  - apply band_bind with (mid := n); auto. intros b.
    apply band_bind with (mid := n); auto. intros bs. apply band_ret.
Qed.

Lemma band_for_each {A} (n : nat) (l : list A) (body : A -> M S E unit) :
  (forall a, band rank n n (body a)) -> band rank n n (for_each l body).
Proof.
  intros Hf. induction l as [|a l IH]; cbn [for_each].
  - apply band_ret.
  - apply band_bind with (mid := n); auto.
Qed.
End Bands.

(** ** Attributes left alone *)

Section Preserved.
Context {S E X : Type} (get : S -> X).

Lemma preserves_keeps {A} (c : M S E A) : keeps_state c -> preserves get c.
Proof. intros H s. rewrite H. reflexivity. Qed.

Lemma preserves_bind {A B} (c : M S E A) (f : A -> M S E B) :
  preserves get c -> (forall a, preserves get (f a)) -> preserves get (bind c f).
Proof.
  intros Hc Hf s. rewrite bind_final.
  destruct (outcome (c s)); [rewrite Hf|]; apply Hc.
Qed.

Lemma preserves_for_each {A} (l : list A) (body : A -> M S E unit) :
  (forall a, preserves get (body a)) -> preserves get (for_each l body).
Proof.
  intros Hf. induction l as [|a l IH]; cbn [for_each].
  - apply preserves_keeps, keeps_state_ret.
  - apply preserves_bind; auto.
Qed.
End Preserved.

(** ** [fetch] of [adafruit_pyportal.py], step by step *)

Section LegacyFetch.
Variable env : Legacy.Env.

Lemma connect_loop_keeps (n : nat) : keeps_state (Legacy.connect_loop n).
Proof.
  induction n as [|n IH]; cbn [Legacy.connect_loop].
  - keeps.
  - keeps. exact IH.
Qed.

Lemma _connect_esp_keeps : keeps_state (Legacy._connect_esp env).
Proof. unfold Legacy._connect_esp. keeps. apply connect_loop_keeps. Qed.

Lemma set_background_keeps (bg : pyval) : keeps_state (Legacy.set_background env bg).
Proof. unfold Legacy.set_background. keeps. Qed.

Lemma fetch_response_keeps : keeps_state (Legacy.fetch_response env).
Proof. unfold Legacy.fetch_response. keeps. apply _connect_esp_keeps. Qed.

Lemma fetch_json_keeps (r : response) : keeps_state (Legacy.fetch_json r).
Proof. unfold Legacy.fetch_json. keeps. Qed.

Lemma fetch_values_keeps (r : response) (json_out : pyval) :
  keeps_state (Legacy.fetch_values env r json_out).
Proof. unfold Legacy.fetch_values. keeps. Qed.

Lemma fetch_image_url_keeps (json_out image_url : pyval) :
  keeps_state (Legacy.fetch_image_url env json_out image_url).
Proof.
  unfold Legacy.fetch_image_url. keeps; apply set_background_keeps.
Qed.

Lemma fetch_image_keeps (image_url : pyval) :
  keeps_state (Legacy.fetch_image env image_url).
Proof.
  unfold Legacy.fetch_image. keeps; apply set_background_keeps.
Qed.

Lemma fetch_callback_keeps (values : pyval) :
  keeps_state (Legacy.fetch_callback values).
Proof. unfold Legacy.fetch_callback. keeps. Qed.

Lemma fetch_return_keeps (values : pyval) : keeps_state (Legacy.fetch_return values).
Proof. unfold Legacy.fetch_return. keeps. Qed.

Lemma fetch_refresh_run (refresh_url : option str) (s : Legacy.PyPortal) :
  Legacy.fetch_refresh refresh_url s
  = (Ok tt,
     (if some_nonempty refresh_url then Legacy.with_url s refresh_url else s),
     []).
Proof.
  unfold Legacy.fetch_refresh. destruct (some_nonempty refresh_url); reflexivity.
Qed.

(** The text areas are the only attribute that the text step writes. *)
Section TextStep.
Context {X : Type} (get : Legacy.PyPortal -> X).
Hypothesis get_with_text : forall s slots, get (Legacy.with_text s slots) = get s.

Lemma set_text_attr (val : pyval) (i : nat) :
  preserves get (Legacy.set_text env val i).
Proof.
  intros s. unfold Legacy.set_text, bind, get_self, final; cbn.
  destruct (Legacy._text_font s); [|reflexivity].
  destruct (nth_error _ i) as [slot|]; [|reflexivity].
  destruct (Legacy.text_label slot), (Legacy.text_position slot);
    cbn; rewrite ?get_with_text; reflexivity.
Qed.

Lemma fill_text_attr (values : pyval) (i : nat) :
  preserves get (Legacy.fill_text env values i).
Proof.
  unfold Legacy.fill_text.
  apply preserves_bind; [apply preserves_keeps, keeps_state_get|]. intros self.
  destruct (nth_error _ i) as [slot|]; [|apply preserves_keeps, keeps_state_raise].
  apply preserves_bind.
  - apply preserves_keeps. keeps.
  - intros string. apply preserves_bind; [|intros; apply set_text_attr].
    apply preserves_keeps. keeps.
Qed.

Lemma fetch_text_attr (values : pyval) :
  preserves get (Legacy.fetch_text env values).
Proof.
  unfold Legacy.fetch_text.
  apply preserves_bind; [apply preserves_keeps, keeps_state_get|]. intros self.
  destruct (some_nonempty _); [|apply preserves_keeps, keeps_state_ret].
  apply preserves_for_each. intros i. apply fill_text_attr.
Qed.

(** After [fetch], such an attribute is what the refresh step left. *)
Lemma fetch_final_attr (refresh_url : option str) (s : Legacy.PyPortal) :
  get (final (Legacy.fetch env refresh_url s))
  = get (if some_nonempty refresh_url then Legacy.with_url s refresh_url else s).
Proof.
  unfold Legacy.fetch.
  rewrite bind_final, fetch_refresh_run. cbn [outcome final fst snd].
  match goal with
  | |- get (final (?c ?s1)) = _ =>
      assert (Hk : preserves get c); [|apply Hk]
  end.
  apply preserves_bind; [apply preserves_keeps, fetch_response_keeps|intros r].
  apply preserves_bind; [apply preserves_keeps, fetch_json_keeps|intros json_out].
  apply preserves_bind; [apply preserves_keeps, keeps_state_get|intros self].
  apply preserves_bind; [apply preserves_keeps, fetch_values_keeps|intros values].
  apply preserves_bind; [apply preserves_keeps, fetch_image_url_keeps|intros image_url].
  apply preserves_bind; [apply preserves_keeps, keeps_state_emit|intros _].
  apply preserves_bind; [apply preserves_keeps, fetch_image_keeps|intros _].
  apply preserves_bind; [apply preserves_keeps, fetch_callback_keeps|intros _].
  apply preserves_bind; [apply fetch_text_attr|intros _].
  apply preserves_keeps, fetch_return_keeps.
Qed.
End TextStep.

Lemma ok_run_keeps {A} (c : Legacy.Run A) s a s1 tr :
  keeps_state c -> c s = (Ok a, s1, tr) -> s1 = s /\ outcome (c s) = Ok a.
Proof. intros Hk H. specialize (Hk s). rewrite H in *. split; [exact Hk | reflexivity]. Qed.

Lemma bind_get_outcome {A} (f : Legacy.PyPortal -> Legacy.Run A) s :
  outcome (bind get_self f s) = outcome (f s s).
Proof. unfold bind, get_self, outcome. destruct (f s s) as [[? ?] ?]; reflexivity. Qed.

Lemma collect_outcome {A B} (f : A -> Legacy.Run B) (g : A -> result B) (l : list A) :
  (forall a s, outcome (f a s) = g a) ->
  forall s, outcome (collect l f s) = rmap g l.
Proof.
  intros Hf. induction l as [|a l IH]; intros s; [reflexivity|].
  cbn [collect rmap]. specialize (Hf a s). unfold bind, outcome in *.
  destruct (f a s) as [[[b|e] s1] tr1]; cbn [fst] in *; rewrite <- Hf; [|reflexivity].
  specialize (IH s1). cbn [rbind].
  destruct (collect l f s1) as [[[bs|e] s2] tr2]; cbn [fst] in *; rewrite <- IH;
    reflexivity.
Qed.

(** The response is the local file or the answer to the request. *)
Lemma fetch_response_ok (s : Legacy.PyPortal) (r : response) :
  outcome (Legacy.fetch_response env s) = Ok r ->
  if Legacy._uselocal s then Legacy.local_file env = Ok r
  else Legacy.requests_get env (Legacy._url s) (Legacy._headers s) = Ok r.
Proof.
  unfold Legacy.fetch_response, bind, get_self, emit, lift, outcome.
  destruct (Legacy._uselocal s); cbn; [auto|].
  destruct (Legacy._connect_esp env s) as [[[[]|e] s1] tr1]; cbn; [auto|discriminate].
Qed.

(** [json_out] is the parsed response when a JSON path or an image JSON
    path is set. *)
Lemma fetch_json_ok (r : response) (s : Legacy.PyPortal) (json_out : pyval) :
  outcome (Legacy.fetch_json r s) = Ok json_out ->
  if some_nonempty (Legacy._image_json_path s) || some_nonempty (Legacy._json_path s)
  then json r = Ok json_out
  else json_out = PNone.
Proof.
  unfold Legacy.fetch_json, bind, get_self, emit, outcome.
  destruct (_ || _); cbn; [|congruence].
  destruct (json r) as [j|e]; [auto|]. destruct e; discriminate.
Qed.

(** The values: the traversals of the parsed JSON along the paths; or, with
    no JSON path, group 1 of the search of each regular expression; or, with
    neither, the text of the response. *)
Lemma fetch_values_outcome (r : response) (json_out : pyval) (s : Legacy.PyPortal) :
  outcome (Legacy.fetch_values env r json_out s) =
  match Legacy._json_path s, Legacy._regexp_path s with
  | Some (p :: paths), _ =>
      rbind (rmap (_json_traverse json_out) (p :: paths)) (fun vs => Ok (PList vs))
  | _, Some (x :: regexps) =>
      rbind (rmap (first_group env (text r)) (x :: regexps)) (fun vs => Ok (PList vs))
  | _, _ => Ok (PStr (text r))
  end.
Proof.
  assert (Hbind : forall (c : Legacy.Run (list pyval)) (g : result (list pyval)) s0,
            outcome (c s0) = g ->
            outcome (bind c (fun vs => ret (PList vs)) s0)
            = rbind g (fun vs => Ok (PList vs))).
  { intros c g s0 <-. unfold bind, outcome, ret.
    destruct (c s0) as [[[vs|e] s1] tr1]; reflexivity. }
  unfold Legacy.fetch_values. rewrite bind_get_outcome.
  destruct (Legacy._json_path s) as [[|p paths]|];
    destruct (Legacy._regexp_path s) as [[|x regexps]|]; try reflexivity;
    apply Hbind; apply collect_outcome; intros a s0;
    unfold bind, emit, lift, raise, outcome, first_group; cbn;
    try reflexivity;
    destruct (Legacy.re_search env a (text r)); reflexivity.
Qed.

(** [fetch_return] unwraps a list of one value and returns anything else as
    it is. *)
Lemma fetch_return_list (vs : list pyval) (s : Legacy.PyPortal) :
  Legacy.fetch_return (PList vs) s
  = (Ok match vs with [v] => v | _ => PList vs end, s, []).
Proof.
  unfold Legacy.fetch_return, bind, lift, ret. cbn.
  destruct vs as [|v [|w vs]]; try reflexivity.
  cbn [length]. destruct (Z.eqb_spec (Z.of_nat (S (S (length vs)))) 1); [lia|reflexivity].
Qed.

Lemma fetch_return_text (t : str) (s : Legacy.PyPortal) :
  Legacy.fetch_return (PStr t) s = (Ok (PStr t), s, []).
Proof.
  unfold Legacy.fetch_return, bind, lift, ret. cbn.
  destruct t as [|c [|d t]]; try reflexivity.
  cbn [length]. destruct (Z.eqb_spec (Z.of_nat (S (S (length t)))) 1); [lia|reflexivity].
Qed.

(** A call of [fetch] that returns went through every step. *)
Lemma fetch_ok_inv (refresh_url : option str) (s s' : Legacy.PyPortal)
      (returned : pyval) (tr : list Legacy.event) :
  Legacy.fetch env refresh_url s = (Ok returned, s', tr) ->
  let s1 := if some_nonempty refresh_url then Legacy.with_url s refresh_url else s in
  exists r json_out values,
    outcome (Legacy.fetch_response env s1) = Ok r /\
    outcome (Legacy.fetch_json r s1) = Ok json_out /\
    outcome (Legacy.fetch_values env r json_out s1) = Ok values /\
    outcome (Legacy.fetch_return values s') = Ok returned /\
    In Legacy.EvRelease tr.
Proof.
  intros H s1. unfold Legacy.fetch in H.
  apply bind_ok_inv in H as ([] & s1' & t0 & tr0 & H0 & H & ->).
  rewrite fetch_refresh_run in H0. injection H0 as <- <-. fold s1 in H.
  apply bind_ok_inv in H as (r & sa & t1 & tr1 & H1 & H & ->).
  apply ok_run_keeps in H1 as [-> H1]; [|apply fetch_response_keeps].
  apply bind_ok_inv in H as (json_out & sa & t2 & tr2 & H2 & H & ->).
  apply ok_run_keeps in H2 as [-> H2]; [|apply fetch_json_keeps].
  apply bind_ok_inv in H as (self & sa & t3 & tr3 & H3 & H & ->).
  injection H3 as <- <- <-.
  apply bind_ok_inv in H as (values & sa & t4 & tr4 & H4 & H & ->).
  apply ok_run_keeps in H4 as [-> H4]; [|apply fetch_values_keeps].
  apply bind_ok_inv in H as (image_url & sa & t5 & tr5 & H5 & H & ->).
  apply ok_run_keeps in H5 as [-> H5]; [|apply fetch_image_url_keeps].
  apply bind_ok_inv in H as ([] & sa & t6 & tr6 & H6 & H & ->).
  injection H6 as <- <-.
  apply bind_ok_inv in H as ([] & sa & t7 & tr7 & H7 & H & ->).
  apply bind_ok_inv in H as ([] & sb & t8 & tr8 & H8 & H & ->).
  apply bind_ok_inv in H as ([] & sc & t9 & tr9 & H9 & H & ->).
  pose proof (fetch_return_keeps values sc) as Hk.
  unfold final in Hk. rewrite H in Hk. cbn in Hk. subst sc.
  exists r, json_out, values. repeat split; auto.
  - unfold outcome. rewrite H. reflexivity.
  - rewrite !in_app_iff. cbn. auto 10.
Qed.

(** In [adafruit_pyportal.py] a call of [fetch] that returns has traversed
    the parsed JSON along each configured path when a JSON path is
    configured; has taken group 1 of the search of each regular expression
    in the response text when only regular expressions are configured; and
    returns the response text when neither is configured.  The extracted
    values are returned as their list, or alone when there is one. *)
Lemma legacy_fetch_returns (refresh_url : option str)
        (self self' : Legacy.PyPortal) (returned : pyval) (tr : list Legacy.event) :
  Legacy.fetch env refresh_url self = (Ok returned, self', tr) ->
  exists r : response,
    (if Legacy._uselocal self then Legacy.local_file env = Ok r
     else Legacy.requests_get env (stored_url self refresh_url) (Legacy._headers self)
          = Ok r) /\
    match Legacy._json_path self, Legacy._regexp_path self with
    | Some (p :: paths), _ =>
        exists j vs,
          json r = Ok j /\
          rmap (_json_traverse j) (p :: paths) = Ok vs /\
          (returned = PList vs \/ vs = [returned])
    | _, Some (x :: regexps) =>
        exists vs,
          rmap (first_group env (text r)) (x :: regexps) = Ok vs /\
          (returned = PList vs \/ vs = [returned])
    | _, _ => returned = PStr (text r)
    end.
Proof.
  intros H. apply fetch_ok_inv in H as (r & json_out & values & Hr & Hj & Hv & Hret & _).
  exists r. split.
  - apply fetch_response_ok in Hr. unfold stored_url.
    destruct (some_nonempty refresh_url); exact Hr.
  - apply fetch_json_ok in Hj. rewrite fetch_values_outcome in Hv.
    assert (Hcfg : forall s0 : Legacy.PyPortal,
              (if some_nonempty refresh_url then Legacy.with_url self refresh_url else self) = s0 ->
              Legacy._json_path s0 = Legacy._json_path self /\
              Legacy._regexp_path s0 = Legacy._regexp_path self /\
              Legacy._image_json_path s0 = Legacy._image_json_path self).
    { intros s0 <-. destruct (some_nonempty refresh_url); auto. }
    destruct (Hcfg _ eq_refl) as (E1 & E2 & E3). rewrite E1, E2 in Hv. rewrite E1, E3 in Hj.
    clear Hcfg E1 E2 E3 Hr.
    assert (Hlist : forall vs, outcome (Legacy.fetch_return (PList vs) self') = Ok returned ->
                               returned = PList vs \/ vs = [returned]).
    { intros vs. rewrite fetch_return_list. cbn. intros [= <-].
      destruct vs as [|v [|w vs]]; auto. }
    destruct (Legacy._json_path self) as [[|p paths]|].
    + destruct (Legacy._regexp_path self) as [[|x regexps]|].
      * injection Hv as <-. rewrite fetch_return_text in Hret. cbn in Hret. congruence.
      * destruct (rmap _ _) as [vs|e]; [|discriminate]. injection Hv as <-.
        exists vs. auto.
      * injection Hv as <-. rewrite fetch_return_text in Hret. cbn in Hret. congruence.
    + rewrite orb_true_r in Hj.
      destruct (rmap _ _) as [vs|e] eqn:Hvs; [|discriminate]. injection Hv as <-.
      exists json_out, vs. auto.
    + destruct (Legacy._regexp_path self) as [[|x regexps]|].
      * injection Hv as <-. rewrite fetch_return_text in Hret. cbn in Hret. congruence.
      * destruct (rmap _ _) as [vs|e]; [|discriminate]. injection Hv as <-.
        exists vs. auto.
      * injection Hv as <-. rewrite fetch_return_text in Hret. cbn in Hret. congruence.
Qed.

(** C9: when [fetch] has extracted its values into a list, it returns the
    value alone if the list holds exactly one, and the list itself
    otherwise. *)
Theorem fetch_unwraps_single_value :
  (forall vs s,
     Legacy.fetch_return (PList vs) s
     = (Ok match vs with [v] => v | _ => PList vs end, s, [])) /\
  (forall refresh_url self self' returned tr,
     Legacy.fetch env refresh_url self = (Ok returned, self', tr) ->
     some_nonempty (Legacy._json_path self) = true \/
     some_nonempty (Legacy._regexp_path self) = true ->
     exists r json_out vs,
       outcome (Legacy.fetch_values env r json_out
                  (if some_nonempty refresh_url
                   then Legacy.with_url self refresh_url else self))
         = Ok (PList vs) /\
       (forall v, vs = [v] -> returned = v) /\
       (length vs <> 1%nat -> returned = PList vs)).
Proof.
  split; [apply fetch_return_list|].
  intros refresh_url self self' returned tr H Hcfg.
  apply fetch_ok_inv in H as (r & json_out & values & Hr & Hj & Hv & Hret & _).
  exists r, json_out.
  assert (Hlist : exists vs, values = PList vs).
  { rewrite fetch_values_outcome in Hv.
    assert (E : forall s0 : Legacy.PyPortal,
              (if some_nonempty refresh_url then Legacy.with_url self refresh_url else self) = s0 ->
              Legacy._json_path s0 = Legacy._json_path self /\
              Legacy._regexp_path s0 = Legacy._regexp_path self).
    { intros s0 <-. destruct (some_nonempty refresh_url); auto. }
    destruct (E _ eq_refl) as (E1 & E2). rewrite E1, E2 in Hv. clear E E1 E2.
    destruct (Legacy._json_path self) as [[|p paths]|];
      destruct (Legacy._regexp_path self) as [[|x regexps]|];
      cbn in Hcfg; try (destruct Hcfg; discriminate);
      destruct (rmap _ _) as [vs|e]; try discriminate;
      injection Hv as <-; eauto. }
  destruct Hlist as [vs ->]. exists vs. split; [exact Hv|].
  rewrite fetch_return_list in Hret. cbn in Hret. injection Hret as <-.
  split.
  - intros v ->. reflexivity.
  - intros Hlen. destruct vs as [|v [|w vs]]; try reflexivity. cbn in Hlen. lia.
Qed.

(** *** The order of the steps *)

Local Ltac bands n :=
  repeat first
    [ apply band_ret | apply band_raise | apply band_lift
    | apply band_get | apply band_put
    | apply band_emit; first [left; reflexivity | right; reflexivity]
    | apply band_bind with (mid := n); [|intros ?|lia|lia]
    | apply band_collect; intros ?
    | apply band_for_each; intros ?
    | match goal with
      | |- band _ _ _ (match ?x with _ => _ end) => destruct x
      end ].

Lemma connect_loop_band (n : nat) : band legacy_step 1 1 (Legacy.connect_loop n).
Proof.
  induction n as [|n IH]; cbn [Legacy.connect_loop].
  - bands 1%nat.
  - bands 1%nat. exact IH.
Qed.

Lemma fetch_response_band : band legacy_step 1 1 (Legacy.fetch_response env).
Proof.
  unfold Legacy.fetch_response, Legacy._connect_esp. bands 1%nat.
  apply connect_loop_band.
Qed.

Lemma fetch_json_band (r : response) : band legacy_step 2 2 (Legacy.fetch_json r).
Proof. unfold Legacy.fetch_json. bands 2%nat. Qed.

Lemma fetch_values_band (r : response) (json_out : pyval) :
  band legacy_step 2 2 (Legacy.fetch_values env r json_out).
Proof. unfold Legacy.fetch_values. bands 2%nat. Qed.

Lemma set_background_band (bg : pyval) :
  band legacy_step 3 3 (Legacy.set_background env bg).
Proof. unfold Legacy.set_background. bands 3%nat. Qed.

Lemma fetch_image_url_band (json_out image_url : pyval) :
  band legacy_step 2 3 (Legacy.fetch_image_url env json_out image_url).
Proof.
  assert (Hlow : forall A (c : Legacy.Run A),
            band legacy_step 2 2 c -> band legacy_step 2 3 c).
  { intros A c H. apply band_weaken with (lo := 2%nat) (hi := 2%nat); [exact H|lia|lia]. }
  unfold Legacy.fetch_image_url.
  apply band_bind with (mid := 2%nat); [bands 2%nat| |lia|lia]. intros self.
  destruct (Legacy._image_json_path self) as [[|k path]|];
    try solve [apply Hlow; bands 2%nat].
  apply band_bind with (mid := 2%nat); [bands 2%nat| |lia|lia]. intros _.
  destruct (_json_traverse json_out (k :: path)) as [v|e];
    [apply Hlow; bands 2%nat|].
  destruct e as [[]| | | | | | | | | | | |]; try solve [apply Hlow; bands 2%nat].
  apply band_weaken with (lo := 3%nat) (hi := 3%nat); [|lia|lia].
  apply band_bind with (mid := 3%nat); [apply set_background_band|intros _|lia|lia].
  apply band_ret.
Qed.

Lemma fetch_image_band (image_url : pyval) :
  band legacy_step 3 3 (Legacy.fetch_image env image_url).
Proof.
  unfold Legacy.fetch_image. bands 3%nat.
  apply band_try with (mid := 3%nat); [| |lia|lia].
  - bands 3%nat; apply set_background_band.
  - intros e h. destruct e; try discriminate; intros [= <-];
      first [apply set_background_band | apply band_raise].
Qed.

Lemma fetch_callback_band (values : pyval) :
  band legacy_step 3 3 (Legacy.fetch_callback values).
Proof. unfold Legacy.fetch_callback. bands 3%nat. Qed.

Lemma fetch_text_band (values : pyval) :
  band legacy_step 4 4 (Legacy.fetch_text env values).
Proof.
  unfold Legacy.fetch_text, Legacy.fill_text, Legacy.set_text. bands 4%nat.
Qed.

Lemma fetch_return_band (values : pyval) :
  band legacy_step 4 4 (Legacy.fetch_return values).
Proof. unfold Legacy.fetch_return. bands 4%nat. Qed.

(** Every run of [fetch], whether it returns or raises, makes the request,
    then parses and traverses the JSON, then converts, downloads and shows
    the image, then fills the text labels. *)
Lemma fetch_band (refresh_url : option str) :
  band legacy_step 1 4 (Legacy.fetch env refresh_url).
Proof.
  unfold Legacy.fetch.
  apply band_bind with (mid := 1%nat); [|intros _|lia|lia].
  { unfold Legacy.fetch_refresh. bands 1%nat. }
  apply band_bind with (mid := 1%nat); [apply fetch_response_band|intros r|lia|lia].
  apply band_bind with (mid := 2%nat); [|intros json_out|lia|lia].
  { apply band_weaken with (lo := 2%nat) (hi := 2%nat); [apply fetch_json_band|lia|lia]. }
  apply band_bind with (mid := 2%nat); [apply band_get|intros self|lia|lia].
  apply band_bind with (mid := 2%nat); [apply fetch_values_band|intros values|lia|lia].
  apply band_bind with (mid := 3%nat); [apply fetch_image_url_band|intros image_url|lia|lia].
  apply band_bind with (mid := 3%nat); [bands 3%nat|intros _|lia|lia].
  apply band_bind with (mid := 3%nat); [apply fetch_image_band|intros _|lia|lia].
  apply band_bind with (mid := 3%nat); [apply fetch_callback_band|intros _|lia|lia].
  apply band_bind with (mid := 4%nat); [|intros _; apply fetch_return_band|lia|lia].
  apply band_weaken with (lo := 4%nat) (hi := 4%nat); [apply fetch_text_band|lia|lia].
Qed.

(** *** The data request *)

Lemma data_requests_app (a b : list Legacy.event) :
  data_requests (a ++ b) = data_requests a ++ data_requests b.
Proof. apply flat_map_app. Qed.

Lemma data_requests_none (tr : list Legacy.event) :
  Forall not_get tr -> data_requests tr = [].
Proof.
  induction 1 as [|e tr He _ IH]; [reflexivity|].
  change (data_requests (e :: tr)) with
    (match e with Legacy.EvGet url => [url] | _ => [] end ++ data_requests tr).
  rewrite IH. destruct e; cbn in *; tauto.
Qed.

Lemma connect_loop_run (n : nat) (s : Legacy.PyPortal) :
  outcome (Legacy.connect_loop n s) = Ok tt /\
  Forall not_get (trace (Legacy.connect_loop n s)).
Proof.
  induction n as [|n IH]; cbn [Legacy.connect_loop].
  - cbn. repeat constructor.
  - unfold bind, emit, outcome, trace in *.
    destruct (Legacy.connect_loop n s) as [[r s'] tr]. cbn in *.
    destruct IH as [-> IH]. cbn. split; [reflexivity|].
    repeat constructor. exact IH.
Qed.

Lemma _connect_esp_no_get (s : Legacy.PyPortal) :
  Forall not_get (trace (Legacy._connect_esp env s)).
Proof.
  unfold Legacy._connect_esp.
  destruct (Legacy.is_connected env); [constructor|].
  destruct (Legacy.ssid_is_placeholder env); [constructor|].
  apply connect_loop_run.
Qed.

Lemma _connect_esp_ok (s : Legacy.PyPortal) :
  Legacy.is_connected env = true \/ Legacy.ssid_is_placeholder env = false ->
  outcome (Legacy._connect_esp env s) = Ok tt.
Proof.
  unfold Legacy._connect_esp. intros [-> | H]; [reflexivity|].
  rewrite H. destruct (Legacy.is_connected env); [reflexivity|].
  apply connect_loop_run.
Qed.

(** The response step makes no request when the local file is used, and
    one request, to the stored URL, once the link is up. *)
Lemma fetch_response_requests (s : Legacy.PyPortal) :
  data_requests (trace (Legacy.fetch_response env s)) =
  if Legacy._uselocal s then []
  else match outcome (Legacy._connect_esp env s) with
       | Ok _ => [Legacy._url s]
       | Raise _ => []
       end.
Proof.
  unfold Legacy.fetch_response. rewrite bind_trace. cbn [get_self outcome trace final fst snd app].
  destruct (Legacy._uselocal s).
  - unfold bind, emit, lift, trace. cbn. destruct (Legacy.local_file env); reflexivity.
  - rewrite bind_trace.
    destruct (outcome (Legacy._connect_esp env s)) as [[]|e].
    + rewrite data_requests_app.
      rewrite (data_requests_none _ (_connect_esp_no_get s)).
      rewrite (_connect_esp_keeps s).
      unfold bind, emit, lift, trace.
      destruct (Legacy.requests_get env (Legacy._url s) (Legacy._headers s));
        reflexivity.
    + apply data_requests_none, _connect_esp_no_get.
Qed.

Lemma after_response_no_get (r : response) :
  emits_only not_get
    (bind (Legacy.fetch_json r) (fun json_out =>
     bind get_self (fun self =>
     let image_url := Legacy.image_url_path self in
     bind (Legacy.fetch_values env r json_out) (fun values =>
     bind (Legacy.fetch_image_url env json_out image_url) (fun image_url =>
     bind (emit Legacy.EvRelease) (fun _ =>
     bind (Legacy.fetch_image env image_url) (fun _ =>
     bind (Legacy.fetch_callback values) (fun _ =>
     bind (Legacy.fetch_text env values) (fun _ =>
     Legacy.fetch_return values))))))))).
Proof.
  unfold Legacy.fetch_json, Legacy.fetch_values, Legacy.fetch_image_url,
    Legacy.fetch_image, Legacy.fetch_callback, Legacy.fetch_text,
    Legacy.fill_text, Legacy.set_text, Legacy.set_background, Legacy.fetch_return.
  emits.
Qed.

(** The stored URL is the only attribute that [fetch] sets for later calls:
    a true [refresh_url] replaces it, and no later step touches it.  The data
    request, if one is made, goes to it. *)
Lemma legacy_fetch_request (refresh_url : option str) (s : Legacy.PyPortal) :
  let run := Legacy.fetch env refresh_url s in
  Legacy._url (final run) = stored_url s refresh_url /\
  data_requests (trace run) =
    if Legacy._uselocal s then []
    else match outcome (Legacy._connect_esp env s) with
         | Ok _ => [stored_url s refresh_url]
         | Raise _ => []
         end.
Proof.
  intros run.
  set (s1 := if some_nonempty refresh_url then Legacy.with_url s refresh_url else s).
  assert (Hurl : Legacy._url s1 = stored_url s refresh_url).
  { unfold s1, stored_url. destruct (some_nonempty refresh_url); reflexivity. }
  assert (Hlocal : Legacy._uselocal s1 = Legacy._uselocal s).
  { unfold s1. destruct (some_nonempty refresh_url); reflexivity. }
  assert (Hconn : outcome (Legacy._connect_esp env s1)
                  = outcome (Legacy._connect_esp env s)).
  { unfold Legacy._connect_esp.
    destruct (Legacy.is_connected env); [reflexivity|].
    destruct (Legacy.ssid_is_placeholder env); [reflexivity|].
    rewrite (proj1 (connect_loop_run _ s1)), (proj1 (connect_loop_run _ s)).
    reflexivity. }
  unfold run. split.
  - rewrite (fetch_final_attr Legacy._url (fun _ _ => eq_refl)). exact Hurl.
  - unfold Legacy.fetch.
    rewrite bind_trace, fetch_refresh_run. cbn [outcome final trace fst snd app]. fold s1.
    rewrite bind_trace.
    assert (Hresp : data_requests (trace (Legacy.fetch_response env s1)) =
                    if Legacy._uselocal s then []
                    else match outcome (Legacy._connect_esp env s) with
                         | Ok _ => [stored_url s refresh_url]
                         | Raise _ => []
                         end).
    { rewrite fetch_response_requests, Hlocal, Hconn, Hurl. reflexivity. }
    destruct (outcome (Legacy.fetch_response env s1)) as [r|e]; [|exact Hresp].
    rewrite data_requests_app, Hresp.
    rewrite (data_requests_none _ (after_response_no_get r _)).
    apply app_nil_r.
Qed.
End LegacyFetch.

(** ** [fetch] of the package *)

Section PackageFetch.
Variable h : Package.Helpers.

Local Ltac bands n :=
  repeat first
    [ apply band_ret | apply band_raise | apply band_lift
    | apply band_get | apply band_put
    | apply band_emit; first [left; reflexivity | right; reflexivity]
    | apply band_bind with (mid := n); [|intros ?|lia|lia]
    | match goal with
      | |- band _ _ _ (match ?x with _ => _ end) => destruct x
      end ].

Local Ltac narrow n :=
  apply band_weaken with (lo := n) (hi := n); [bands n|lia|lia].

(** Every run of the package's [fetch] makes the request, parses the JSON,
    processes and shows the image, extracts the values, calls the callback,
    fills the text labels and releases the response, in this order. *)
Lemma package_fetch_band (refresh_url : option str) (timeout : Z) :
  band package_order 1 7 (Package.fetch h refresh_url timeout).
Proof.
  unfold Package.fetch.
  apply band_bind with (mid := 1%nat); [bands 1%nat|intros _|lia|lia].
  apply band_bind with (mid := 1%nat); [bands 1%nat|intros self|lia|lia].
  apply band_bind with (mid := 1%nat); [bands 1%nat|intros _|lia|lia].
  apply band_bind with (mid := 1%nat); [bands 1%nat|intros response|lia|lia].
  apply band_bind with (mid := 1%nat); [bands 1%nat|intros _|lia|lia].
  apply band_bind with (mid := 1%nat); [bands 1%nat|intros content|lia|lia].
  apply band_bind with (mid := 2%nat); [|intros json_out|lia|lia].
  { destruct content; [narrow 2%nat | narrow 1%nat | narrow 1%nat]. }
  apply band_bind with (mid := 3%nat); [|intros _|lia|lia].
  { apply band_weaken with (lo := 3%nat) (hi := 3%nat); [|lia|lia].
    apply band_try with (mid := 3%nat); [bands 3%nat| |lia|lia].
    intros e0 h0. destruct e0; try discriminate; intros [= <-]; bands 3%nat. }
  apply band_bind with (mid := 4%nat); [|intros values|lia|lia].
  { destruct content; [narrow 4%nat | narrow 4%nat | narrow 3%nat]. }
  apply band_bind with (mid := 5%nat); [|intros _|lia|lia].
  { destruct (Package._success_callback self); [narrow 5%nat | narrow 4%nat]. }
  apply band_bind with (mid := 6%nat); [narrow 6%nat|intros _|lia|lia].
  apply band_bind with (mid := 6%nat); [bands 6%nat|intros _|lia|lia].
  apply band_bind with (mid := 7%nat); [narrow 7%nat|intros _|lia|lia].
  bands 7%nat.
Qed.

(** The release is the last thing a returning [fetch] does, and what it
    returns is what [process_json] or [process_text] gave. *)
Lemma package_fetch_ok (refresh_url : option str) (timeout : Z)
      (s s' : Package.PyPortal) (returned : pyval) (tr : list Package.event) :
  Package.fetch h refresh_url timeout s = (Ok returned, s', tr) ->
  exists before, tr = before ++ [Package.EvRelease].
Proof.
  intros H. unfold Package.fetch in H.
  do 12 (apply bind_ok_inv in H as (? & ? & ? & ? & _ & H & ->)).
  apply bind_ok_inv in H as ([] & ? & ? & ? & Hrel & H & ->).
  injection H as <- <- <-. injection Hrel as <- <-.
  eexists. rewrite app_nil_r. rewrite !app_assoc. reflexivity.
Qed.

(** The request is made once, first, to the stored URL, which a true
    [refresh_url] replaces. *)
Lemma network_fetches_none (tr : list Package.event) :
  Forall not_network_fetch tr -> network_fetches tr = [].
Proof.
  induction 1 as [|e tr He _ IH]; [reflexivity|].
  change (network_fetches (e :: tr)) with
    (match e with
     | Package.EvNetworkFetch url timeout => [(url, timeout)]
     | _ => []
     end ++ network_fetches tr).
  rewrite IH. destruct e; cbn in *; tauto.
Qed.

Lemma package_fetch_request (refresh_url : option str) (timeout : Z)
      (s : Package.PyPortal) :
  let run := Package.fetch h refresh_url timeout s in
  let stored := if some_nonempty refresh_url then refresh_url else Package.url s in
  Package.url (final run) = stored /\
  network_fetches (trace run) = [(stored, timeout)].
Proof.
  intros run stored.
  set (s1 := if some_nonempty refresh_url then Package.with_url s refresh_url else s).
  assert (Hrefresh :
    (if some_nonempty refresh_url
     then bind get_self (fun self => put_self (Package.with_url self refresh_url))
     else ret tt) s = (Ok tt, s1, @nil Package.event)).
  { unfold s1. destruct (some_nonempty refresh_url); reflexivity. }
  assert (Hurl : Package.url s1 = stored).
  { unfold s1, stored. destruct (some_nonempty refresh_url); reflexivity. }
  unfold run, Package.fetch. split.
  - rewrite bind_final, Hrefresh. cbn [outcome final fst snd].
    match goal with
    | |- Package.url (final (?c s1)) = _ =>
        assert (Hk : keeps_state c) by keeps; rewrite Hk
    end.
    exact Hurl.
  - rewrite bind_trace, Hrefresh. cbn [outcome final trace fst snd app].
    rewrite bind_trace. cbn [get_self outcome final trace fst snd app].
    rewrite bind_trace. cbn [emit outcome final trace fst snd app].
    cbn [network_fetches flat_map app]. rewrite Hurl. f_equal.
    apply network_fetches_none.
    match goal with
    | |- Forall _ (trace (?c s1)) =>
        assert (He : emits_only not_network_fetch c) by emits; apply (He s1)
    end.
Qed.

(** X16: a call of the package's [fetch] that returns had an answer to the
    stored URL (the refresh URL when one is given) whose content is JSON or
    text, never another one; it returns what [process_json] gave for the
    parsed JSON and the configured path, wrapped into a list of paths, or
    what [process_text] gave for the text and the regular expressions. *)
Lemma package_fetch_returns (refresh_url : option str) (timeout : Z)
      (s s' : Package.PyPortal) (returned : pyval) (tr : list Package.event) :
  Package.fetch h refresh_url timeout s = (Ok returned, s', tr) ->
  exists response content,
    Package.network_fetch h
      (if some_nonempty refresh_url then refresh_url else Package.url s) timeout
    = Ok response /\
    Package.check_response h response = Ok content /\
    match content with
    | Package.CONTENT_JSON =>
        exists j,
          json response = Ok j /\
          Package.process_json h j
            (option_map Package.wrap_json_path (Package._json_path s))
          = Ok returned
    | Package.CONTENT_TEXT =>
        Package.process_text h (text response) (Package._regexp_path s)
        = Ok returned
    | Package.CONTENT_OTHER => False
    end.
Proof.
  intros H. unfold Package.fetch in H.
  apply bind_ok_inv in H as ([] & s1 & ? & ? & Hrefresh & H & _).
  assert (Hs1 : s1 = if some_nonempty refresh_url
                     then Package.with_url s refresh_url else s).
  { destruct (some_nonempty refresh_url); injection Hrefresh as <- _; reflexivity. }
  clear Hrefresh.
  apply bind_ok_inv in H as (self & ? & ? & ? & Hself & H & _).
  injection Hself as <- <- _.
  apply bind_ok_inv in H as ([] & ? & ? & ? & He & H & _). injection He as <- _.
  apply bind_ok_inv in H as (response & ? & ? & ? & Hresp & H & _).
  injection Hresp as Hresp <- _.
  apply bind_ok_inv in H as ([] & ? & ? & ? & He & H & _). injection He as <- _.
  apply bind_ok_inv in H as (content & ? & ? & ? & Hcontent & H & _).
  injection Hcontent as Hcontent <- _.
  apply bind_ok_inv in H as (json_out & sj & ? & ? & Hjson & H & _).
  apply bind_ok_inv in H as ([] & si & ? & ? & _ & H & _).
  apply bind_ok_inv in H as (values & sv & ? & ? & Hvalues & H & _).
  do 4 (apply bind_ok_inv in H as (? & ? & ? & ? & _ & H & _)).
  injection H as <- _ _.
  exists response, content.
  assert (Hurl : Package.url s1
                 = if some_nonempty refresh_url then refresh_url else Package.url s).
  { subst s1. destruct (some_nonempty refresh_url); reflexivity. }
  assert (Hpath : Package._json_path s1 = Package._json_path s /\
                  Package._regexp_path s1 = Package._regexp_path s).
  { subst s1. destruct (some_nonempty refresh_url); auto. }
  destruct Hpath as [Hp Hr]. rewrite Hurl in Hresp.
  split; [exact Hresp|]. split; [exact Hcontent|].
  destruct content.
  - apply bind_ok_inv in Hjson as ([] & ? & ? & ? & He & Hjson & _).
    apply bind_ok_inv in Hvalues as ([] & ? & ? & ? & _ & Hvalues & _).
    injection Hvalues as Hvalues _ _. rewrite Hp in Hvalues.
    destruct (json response) as [j|e].
    + injection Hjson as <- _ _. exists j. auto.
    + destruct e; discriminate.
  - apply bind_ok_inv in Hvalues as ([] & ? & ? & ? & _ & Hvalues & _).
    injection Hvalues as Hvalues _ _. rewrite Hr in Hvalues. exact Hvalues.
  - discriminate.
Qed.
End PackageFetch.

(** ** Sample runs *)

Lemma round_down_mono (a b : Q) : a <= b -> round_down a <= round_down b.
Proof.
  intros H. unfold round_down.
  assert (Hf : (Qfloor (a * 256) <= Qfloor (b * 256))%Z).
  { apply Qfloor_resp_le. apply Qmult_le_compat_r; [exact H | discriminate]. }
  unfold Qle; cbn [Qnum Qden]. lia.
Qed.

Lemma set_backlight_clamped_witness :
  set_backlight round_down pwm_light (NFloat (3 # 2))
  = Ok {| _backlight := Some 65535%Z; display := display pwm_light |} /\
  set_backlight round_down pwm_light (NFloat (3 # 2))
  = set_backlight round_down pwm_light (NFloat 1).
Proof.
  destruct (set_backlight_clamped round_down round_down_mono
              (Qeq_bool_eq (round_down 0) 0 eq_refl)
              (Qeq_bool_eq (round_down 65535) 65535 eq_refl)
              pwm_light (NFloat (3 # 2)))
    as (_ & Habove & _ & (c & Hc & _ & _ & Hpwm) & _).
  destruct (Habove eq_refl) as [Hclamp Hsame].
  destruct (Hpwm 0%Z eq_refl) as (duty & Hduty & _ & Hset & _).
  rewrite Hclamp in Hc. injection Hc as <-.
  split; [|exact Hsame]. rewrite Hset, Hduty. reflexivity.
Defined.

(** ** The claims about [fetch] as a whole *)

(** C1, as the code has it: in [adafruit_pyportal.py] a call of [fetch] that
    returns gives the traversals of the parsed JSON along each configured
    path when a JSON path is configured, group 1 of the search of each
    regular expression in the response text when only regular expressions
    are configured, and the response text when neither is configured; the
    values come as their list, or alone when there is one.  In the package
    the extraction is chosen by the content type of the response and not by
    what is configured: for JSON content [fetch] returns what
    [process_json] gives for the parsed JSON and the configured JSON path,
    wrapped into a list of paths, and for text content what [process_text]
    gives for the response text and the regular expressions, also when a
    JSON path is configured. *)
Theorem fetch_returns_extracted :
  (forall env refresh_url self self' returned tr,
     Legacy.fetch env refresh_url self = (Ok returned, self', tr) ->
     exists r : response,
       (if Legacy._uselocal self then Legacy.local_file env = Ok r
        else Legacy.requests_get env (stored_url self refresh_url)
               (Legacy._headers self) = Ok r) /\
       match Legacy._json_path self, Legacy._regexp_path self with
       | Some (p :: paths), _ =>
           exists j vs,
             json r = Ok j /\
             rmap (_json_traverse j) (p :: paths) = Ok vs /\
             (returned = PList vs \/ vs = [returned])
       | _, Some (x :: regexps) =>
           exists vs,
             rmap (first_group env (text r)) (x :: regexps) = Ok vs /\
             (returned = PList vs \/ vs = [returned])
       | _, _ => returned = PStr (text r)
       end) /\
  (forall h refresh_url timeout s s' returned tr,
     Package.fetch h refresh_url timeout s = (Ok returned, s', tr) ->
     exists r : response,
       Package.network_fetch h
         (if some_nonempty refresh_url then refresh_url else Package.url s) timeout
       = Ok r /\
       ((Package.check_response h r = Ok Package.CONTENT_JSON /\
         exists j,
           json r = Ok j /\
           Package.process_json h j
             (option_map Package.wrap_json_path (Package._json_path s))
           = Ok returned) \/
        (Package.check_response h r = Ok Package.CONTENT_TEXT /\
         Package.process_text h (text r) (Package._regexp_path s) = Ok returned))).
Proof.
  split.
  - intros env refresh_url self self' returned tr H.
    exact (legacy_fetch_returns env refresh_url self self' returned tr H).
  - intros h refresh_url timeout s s' returned tr H. unfold Package.fetch in H.
    apply bind_ok_inv in H as ([] & s1 & ? & ? & Hrefresh & H & _).
    assert (Hs1 : s1 = if some_nonempty refresh_url
                       then Package.with_url s refresh_url else s).
    { destruct (some_nonempty refresh_url); injection Hrefresh as <- _; reflexivity. }
    clear Hrefresh.
    apply bind_ok_inv in H as (self & ? & ? & ? & Hself & H & _).
    injection Hself as <- <- _.
    apply bind_ok_inv in H as ([] & ? & ? & ? & He & H & _). injection He as <- _.
    apply bind_ok_inv in H as (r & ? & ? & ? & Hresp & H & _).
    injection Hresp as Hresp <- _.
    apply bind_ok_inv in H as ([] & ? & ? & ? & He & H & _). injection He as <- _.
    apply bind_ok_inv in H as (content & ? & ? & ? & Hcontent & H & _).
    injection Hcontent as Hcontent <- _.
    apply bind_ok_inv in H as (json_out & sj & ? & ? & Hjson & H & _).
    apply bind_ok_inv in H as ([] & si & ? & ? & _ & H & _).
    apply bind_ok_inv in H as (values & sv & ? & ? & Hvalues & H & _).
    do 4 (apply bind_ok_inv in H as (? & ? & ? & ? & _ & H & _)).
    injection H as <- _ _.
    exists r.
    assert (Hurl : Package.url s1
                   = if some_nonempty refresh_url then refresh_url else Package.url s).
    { subst s1. destruct (some_nonempty refresh_url); reflexivity. }
    assert (Hpath : Package._json_path s1 = Package._json_path s /\
                    Package._regexp_path s1 = Package._regexp_path s).
    { subst s1. destruct (some_nonempty refresh_url); auto. }
    destruct Hpath as [Hp Hr]. rewrite Hurl in Hresp.
    split; [exact Hresp|].
    destruct content.
    + left. split; [exact Hcontent|].
      apply bind_ok_inv in Hjson as ([] & ? & ? & ? & He & Hjson & _).
      apply bind_ok_inv in Hvalues as ([] & ? & ? & ? & _ & Hvalues & _).
      injection Hvalues as Hvalues _ _. rewrite Hp in Hvalues.
      destruct (json r) as [j|e].
      * injection Hjson as <- _ _. exists j. auto.
      * destruct e; discriminate.
    + right. split; [exact Hcontent|].
      apply bind_ok_inv in Hvalues as ([] & ? & ? & ? & _ & Hvalues & _).
      injection Hvalues as Hvalues _ _. rewrite Hr in Hvalues. exact Hvalues.
    + discriminate.
Qed.

(** C1 as stated fails in the package: with a JSON path configured and a
    response whose content is text, [fetch] does not parse the response and
    does not look at the path; it returns what [process_text] gives, here
    the text itself, and not the value that the path leads to in the JSON
    that the text holds. *)
Lemma fetch_returns_extracted_counterexample :
  let run := Package.fetch text_helpers None 10 package_portal in
  Package._json_path package_portal
  = Some (Package.OnePath [KStr (lit "bitcoin"); KStr (lit "usd")]) /\
  rbind (json price_response)
        (fun j => _json_traverse j [KStr (lit "bitcoin"); KStr (lit "usd")])
  = Ok (PInt 5) /\
  outcome run = Ok (PStr (text price_response)) /\
  ~ In Package.EvJson (trace run) /\
  (forall json_path, ~ In (Package.EvProcessJson json_path) (trace run)).
Proof.
  vm_compute. repeat split.
  - intros H. repeat (destruct H as [H|H]; [discriminate|]). exact H.
  - intros json_path H. repeat (destruct H as [H|H]; [discriminate|]). exact H.
Qed.

(** C3, as the code has it: in [adafruit_pyportal.py] every run of [fetch]
    makes the data request, then parses and traverses the JSON, then
    converts, downloads and shows the image, then fills the text labels, and
    a run that returns has released the response and the parsed JSON.  In the
    package every run makes the request, parses the JSON, processes and shows
    the image, and only then extracts the values, calls the callback and
    fills the text labels; the release is the last step before it
    returns. *)
Theorem fetch_step_order :
  (forall env refresh_url self,
     let run := Legacy.fetch env refresh_url self in
     in_order legacy_step (trace run) /\
     (forall v, outcome run = Ok v -> In Legacy.EvRelease (trace run))) /\
  (forall h refresh_url timeout self,
     let run := Package.fetch h refresh_url timeout self in
     in_order package_order (trace run) /\
     (forall v, outcome run = Ok v ->
                exists before, trace run = before ++ [Package.EvRelease])).
Proof.
  split.
  - intros env refresh_url self run. split.
    + apply (fetch_band env refresh_url self).
    + intros v Hv. unfold run, outcome, trace in *.
      destruct (Legacy.fetch env refresh_url self) as [[r s'] tr] eqn:Hrun.
      cbn in Hv. subst r.
      apply fetch_ok_inv in Hrun as (_ & _ & _ & _ & _ & _ & _ & Hrel). exact Hrel.
  - intros h refresh_url timeout self run. split.
    + apply (package_fetch_band h refresh_url timeout self).
    + intros v Hv. unfold run, outcome, trace in *.
      destruct (Package.fetch h refresh_url timeout self) as [[r s'] tr] eqn:Hrun.
      cbn in Hv. subst r.
      apply package_fetch_ok in Hrun. exact Hrun.
Qed.

Lemma fetch_step_order_witness :
  in_order legacy_step (trace (Legacy.fetch price_env None price_portal)) /\
  In Legacy.EvRelease (trace (Legacy.fetch price_env None price_portal)) /\
  in_order package_order (trace (Package.fetch price_helpers None 10 package_portal)) /\
  exists before,
    trace (Package.fetch price_helpers None 10 package_portal)
    = before ++ [Package.EvRelease].
Proof.
  destruct fetch_step_order as [Hlegacy Hpackage].
  destruct (Hlegacy price_env None price_portal) as [H1 H2].
  destruct (Hpackage price_helpers None 10%Z package_portal) as [H3 H4].
  split; [exact H1|]. split; [exact (H2 (PInt 5) eq_refl)|].
  split; [exact H3|]. exact (H4 (PList [PInt 5]) eq_refl).
Defined.

(** C3 as stated fails in the package: the image is downloaded and shown
    before the values are extracted along the JSON path. *)
Lemma fetch_step_order_counterexample :
  ~ in_order package_step
      (trace (Package.fetch price_helpers None 10 package_portal)).
Proof. unfold in_order. vm_compute. discriminate. Qed.

(** C5, as the code has it: a true [refresh_url] replaces the stored URL and
    a false one leaves it, and the stored URL is kept for later calls; in
    [adafruit_pyportal.py] the data request is made to the stored URL once
    the link is up, and is not made at all when the device holds
    [local.txt]; in the package the stored URL is passed to [network.fetch],
    once. *)
Theorem fetch_request_url :
  (forall env refresh_url self,
     let run := Legacy.fetch env refresh_url self in
     Legacy._url (final run) = stored_url self refresh_url /\
     (some_nonempty refresh_url = false ->
        stored_url self refresh_url = Legacy._url self) /\
     (some_nonempty refresh_url = true ->
        stored_url self refresh_url = refresh_url) /\
     (Legacy._uselocal self = true -> data_requests (trace run) = []) /\
     (Legacy._uselocal self = false ->
        Legacy.is_connected env = true \/ Legacy.ssid_is_placeholder env = false ->
        data_requests (trace run) = [stored_url self refresh_url]) /\
     (forall env' refresh_url',
        some_nonempty refresh_url' = false ->
        Legacy._uselocal self = false ->
        Legacy.is_connected env' = true \/ Legacy.ssid_is_placeholder env' = false ->
        data_requests (trace (Legacy.fetch env' refresh_url' (final run)))
        = [stored_url self refresh_url])) /\
  (forall h refresh_url timeout self,
     let run := Package.fetch h refresh_url timeout self in
     let stored := if some_nonempty refresh_url then refresh_url
                   else Package.url self in
     Package.url (final run) = stored /\
     network_fetches (trace run) = [(stored, timeout)]).
Proof.
  assert (Hreq : forall env refresh_url self,
            Legacy._uselocal self = false ->
            Legacy.is_connected env = true \/ Legacy.ssid_is_placeholder env = false ->
            data_requests (trace (Legacy.fetch env refresh_url self))
            = [stored_url self refresh_url]).
  { intros env refresh_url self Hlocal Hlink.
    rewrite (proj2 (legacy_fetch_request env refresh_url self)), Hlocal.
    rewrite (_connect_esp_ok env self Hlink). reflexivity. }
  split.
  - intros env refresh_url self run.
    destruct (legacy_fetch_request env refresh_url self) as [Hurl Htrace].
    fold run in Hurl, Htrace.
    split; [exact Hurl|]. split; [|split; [|split; [|split]]].
    + unfold stored_url. intros ->. reflexivity.
    + unfold stored_url. intros ->. reflexivity.
    + intros Hlocal. rewrite Htrace, Hlocal. reflexivity.
    + apply Hreq.
    + intros env' refresh_url' Hfalse Hlocal Hlink.
      rewrite Hreq; [| |exact Hlink].
      * unfold stored_url at 1. rewrite Hfalse. f_equal. exact Hurl.
      * unfold run.
        rewrite (fetch_final_attr env Legacy._uselocal (fun _ _ => eq_refl)).
        destruct (some_nonempty refresh_url); exact Hlocal.
  - intros h refresh_url timeout self. apply package_fetch_request.
Qed.

Lemma fetch_request_url_witness :
  data_requests (trace (Legacy.fetch price_env (Some (lit "https://example.org/new"))
                          price_portal))
  = [Some (lit "https://example.org/new")] /\
  data_requests
    (trace (Legacy.fetch price_env None
              (final (Legacy.fetch price_env (Some (lit "https://example.org/new"))
                        price_portal))))
  = [Some (lit "https://example.org/new")].
Proof.
  destruct fetch_request_url as [Hlegacy _].
  destruct (Hlegacy price_env (Some (lit "https://example.org/new")) price_portal)
    as (_ & _ & Hnew & _ & Hfirst & Hnext).
  rewrite <- (Hnew eq_refl) at 2 4.
  split.
  - apply Hfirst; [reflexivity | left; reflexivity].
  - apply Hnext; [reflexivity | reflexivity | left; reflexivity].
Defined.

(** C5 as stated fails in [adafruit_pyportal.py] on a device that holds
    [local.txt]: [fetch] returns the text of the file and makes no request to
    the URL given at construction. *)
Lemma fetch_request_url_counterexample :
  let run := Legacy.fetch price_env None local_portal in
  outcome run = Ok (PStr (lit "local")) /\
  ~ In (Legacy.EvGet (Legacy._url local_portal)) (trace run) /\
  data_requests (trace run) = [].
Proof.
  vm_compute. repeat split. intros [H|[H|[]]]; discriminate.
Qed.

Lemma fetch_returns_extracted_witness :
  (exists r : response,
     Legacy.requests_get price_env (stored_url price_portal None)
       (Legacy._headers price_portal) = Ok r /\
     exists j vs,
       json r = Ok j /\
       rmap (_json_traverse j) [[KStr (lit "bitcoin"); KStr (lit "usd")]] = Ok vs /\
       (PInt 5 = PList vs \/ vs = [PInt 5])) /\
  (exists r : response,
     Package.network_fetch price_helpers (Package.url package_portal) 10 = Ok r /\
     ((Package.check_response price_helpers r = Ok Package.CONTENT_JSON /\
       exists j,
         json r = Ok j /\
         Package.process_json price_helpers j
           (option_map Package.wrap_json_path (Package._json_path package_portal))
         = Ok (PList [PInt 5])) \/
      (Package.check_response price_helpers r = Ok Package.CONTENT_TEXT /\
       Package.process_text price_helpers (text r) (Package._regexp_path package_portal)
       = Ok (PList [PInt 5])))).
Proof.
  split.
  - exact (proj1 fetch_returns_extracted price_env None price_portal price_portal
             (PInt 5)
             [Legacy.EvGet (Some (lit "https://example.org/price")); Legacy.EvJson;
              Legacy.EvTraverse [KStr (lit "bitcoin"); KStr (lit "usd")];
              Legacy.EvRelease]
             eq_refl).
  - apply (proj2 fetch_returns_extracted price_helpers None 10%Z package_portal
             (final (Package.fetch price_helpers None 10 package_portal))
             (PList [PInt 5])
             (trace (Package.fetch price_helpers None 10 package_portal))).
    reflexivity.
Defined.

Lemma fetch_unwraps_single_value_witness :
  exists r json_out vs,
    outcome (Legacy.fetch_values price_env r json_out price_portal) = Ok (PList vs) /\
    (forall v, vs = [v] -> PInt 5 = v) /\
    (length vs <> 1%nat -> PInt 5 = PList vs).
Proof.
  exact (proj2 (fetch_unwraps_single_value price_env) None price_portal price_portal
           (PInt 5)
           [Legacy.EvGet (Some (lit "https://example.org/price")); Legacy.EvJson;
            Legacy.EvTraverse [KStr (lit "bitcoin"); KStr (lit "usd")];
            Legacy.EvRelease]
           eq_refl (or_introl eq_refl)).
Defined.

Lemma esp32_retry_witness :
  outcome (Legacy.esp_retry
             {| Legacy.firmware_version := slow_esp;
                Legacy.is_connected := true;
                Legacy.connect_failures := 0;
                Legacy.ssid_is_placeholder := false;
                Legacy.local_file := Raise OSError;
                Legacy.requests_get := fun _ _ => Ok price_response;
                Legacy.re_search := fun _ _ => None;
                Legacy.converter_url := fun _ _ _ => Raise ValueError;
                Legacy.wget_outcome := fun _ _ _ => Ok tt;
                Legacy.open_bitmap := fun _ => Ok tt;
                Legacy.py_int := fun _ => Raise TypeError;
                Legacy.format_thousands := fun _ => lit "0";
                Legacy.py_str := fun _ => lit "?" |}
             0 3 price_portal) = Ok tt.
Proof.
  refine (proj1 (proj2 (proj2 (proj2 (proj2 (esp32_retry _ price_portal))))
                   2%nat (lit "1.2.2") _ _ _)).
  - lia.
  - intros i Hi. destruct i as [|[|i]]; [reflexivity | reflexivity | lia].
  - reflexivity.
Defined.

(** Two runs of [wrap_nicely] that show why a word is taken to be non-empty:
    a word too long for [max_chars] leaves an empty line before it, and a
    doubled space can leave an empty line in the middle. *)
Example wrap_nicely_long_word :
  wrap_nicely (lit "hello world") 3 = Ok [lit ""; lit "hello"; lit "world"].
Proof. reflexivity. Qed.

Example wrap_nicely_doubled_space :
  wrap_nicely (lit "abc  defgh") 4 = Ok [lit "abc"; lit ""; lit "defgh"] /\
  str_split space (lit "abc  defgh") = [lit "abc"; lit ""; lit "defgh"] /\
  words_of (lit "abc  defgh") = [lit "abc"; lit "defgh"].
Proof. repeat split. Qed.

(** * Further properties *)

(** ** JSON traversal *)

(** X1: a path in two parts is traversed part after part: the value reached
    by the first part is the starting point of the second, and an exception
    in the first part is the exception of the whole. *)
Theorem json_traverse_compose (j : pyval) (p q : list key) :
  _json_traverse j (p ++ q)
  = match _json_traverse j p with
    | Ok v => _json_traverse v q
    | Raise e => Raise e
    end.
Proof. rewrite _json_traverse_app. destruct (_json_traverse j p); reflexivity. Qed.

(** X2: a key that the dictionary reached so far does not hold raises
    [KeyError] with that key, whatever follows it in the path; so does an
    integer subscript of a dictionary. *)
Theorem json_traverse_missing_key (j : pyval) (p q : list key) (k : key)
        (d : list (str * pyval)) :
  _json_traverse j p = Ok (PDict d) ->
  match k with
  | KStr name => dict_get name d = None
  | KInt _ => True
  end ->
  _json_traverse j (p ++ k :: q) = Raise (KeyError k).
Proof.
  intros Hp Hk. rewrite _json_traverse_app, Hp. cbn.
  destruct k as [name|i]; [rewrite Hk|]; reflexivity.
Qed.

Lemma json_traverse_missing_key_witness :
  _json_traverse (PDict [(lit "bitcoin", PDict [(lit "usd", PInt 5)])])
    ([KStr (lit "bitcoin")] ++ KStr (lit "eur") :: [KInt 0])
  = Raise (KeyError (KStr (lit "eur"))).
Proof.
  apply (json_traverse_missing_key _ [KStr (lit "bitcoin")] [KInt 0%Z]
           (KStr (lit "eur")) [(lit "usd", PInt 5)]); reflexivity.
Defined.

(** ** Word wrapping *)

Lemma spaced_split (t : str) : spaced (str_split space t) = space :: t.
Proof.
  unfold spaced. induction t as [|c t IH]; [reflexivity|].
  cbn [str_split]. destruct (Ascii.eqb_spec c space) as [->|_].
  - cbn [map concat]. rewrite IH. reflexivity.
  - destruct (str_split space t) as [|w ws]; [discriminate|].
    cbn [map concat app] in *. injection IH as IH. rewrite IH. reflexivity.
Qed.

Lemma wrap_loop_fits (max_chars : Z) (ws : list str) :
  forall ls line,
    (Z.of_nat (length (line ++ spaced ws)) <= max_chars)%Z ->
    fold_left (wrap_step max_chars) ws (ls, line) = (ls, line ++ spaced ws).
Proof.
  induction ws as [|w ws IH]; intros ls line H.
  - unfold spaced. cbn. rewrite app_nil_r. reflexivity.
  - unfold spaced in *. cbn [map concat fold_left] in *.
    unfold wrap_step at 2.
    assert (Hlen : (Z.of_nat (length (line ++ space :: w)) <= max_chars)%Z).
    { cbn [app] in H. rewrite !length_app in *. cbn [length] in *.
      rewrite ?length_app in H. lia. }
    apply Z.leb_le in Hlen. rewrite Hlen.
    rewrite IH.
    + rewrite <- app_assoc. reflexivity.
    + rewrite <- app_assoc. exact H.
Qed.

(** X3: a text that fits on one line is returned as that one line: when the
    text without its newlines and carriage returns, and the space that the
    loop puts in front of it, are within [max_chars], the result is the
    stripped text alone. *)
Theorem wrap_nicely_fits_one_line (string : str) (max_chars : Z) :
  (Z.of_nat (length (replace_del CR (replace_del LF string))) + 1 <= max_chars)%Z ->
  wrap_nicely string max_chars = Ok [replace_del CR (replace_del LF string)].
Proof.
  intros H. unfold wrap_nicely.
  rewrite wrap_loop_fits; rewrite spaced_split.
  - reflexivity.
  - cbn [app length]. lia.
Qed.

Lemma wrap_nicely_fits_one_line_witness :
  wrap_nicely (lit "hello world") 12 = Ok [lit "hello world"].
Proof. apply (wrap_nicely_fits_one_line (lit "hello world") 12). cbn. lia. Defined.

(** X4: the first returned line is empty or one character short of
    [max_chars]: the space that the loop puts in front of the first word is
    counted against the line and removed afterwards. *)
Theorem wrap_nicely_first_line (string : str) (max_chars : Z)
        (first : str) (others : list str) :
  wrap_nicely string max_chars = Ok (first :: others) ->
  first = [] \/ (Z.of_nat (length first) + 1 <= max_chars)%Z.
Proof.
  rewrite wrap_nicely_unfold.
  pose proof (wrap_lines_first string max_chars) as Hlead.
  pose proof (wrap_lines_fit string max_chars) as Hfit.
  destruct (wrap_lines string max_chars) as [|f ls]; [discriminate|].
  intros [= <- <-]. inversion Hfit as [|? ? Hf _]; subst.
  destruct f as [|c f]; [left; reflexivity|]. right.
  cbn in Hlead. subst c. specialize (Hf (or_introl eq_refl)).
  cbn [tl length] in *. lia.
Qed.

Lemma wrap_nicely_first_line_witness :
  lit "the" = [] \/ (Z.of_nat (length (lit "the")) + 1 <= 9)%Z.
Proof.
  apply (wrap_nicely_first_line (lit "the quick brown fox") 9 (lit "the")
           [lit "quick"; lit "brown fox"]).
  reflexivity.
Defined.

(** ** The backlight, continued *)

Lemma Qtrunc_mono (a b : Q) : 0 <= a -> a <= b -> (Qtrunc a <= Qtrunc b)%Z.
Proof.
  intros Ha Hab. unfold Qtrunc.
  destruct (Qlt_le_dec a 0) as [H|_]; [exfalso; apply (Qlt_not_le _ _ H Ha)|].
  destruct (Qlt_le_dec b 0) as [H|_].
  - exfalso. apply (Qlt_not_le _ _ H). apply Qle_trans with a; assumption.
  - apply Qfloor_resp_le. exact Hab.
Qed.

Lemma num_le_value (a b : num) (x y : Q) :
  num_value a = Some x -> num_value b = Some y -> num_lt b a = false -> x <= y.
Proof.
  destruct a as [za|qa| | |], b as [zb|qb| | |]; cbn; try discriminate;
    intros [= <-] [= <-] H.
  - apply Z.ltb_ge in H. unfold Qle, inject_Z; cbn. lia.
  - destruct (Qlt_le_dec qb (inject_Z za)); [discriminate | assumption].
  - destruct (Qlt_le_dec (inject_Z zb) qa); [discriminate | assumption].
  - destruct (Qlt_le_dec qb qa); [discriminate | assumption].
Qed.

Section BacklightOrder.
Variable round : Q -> Q.
Hypothesis round_mono : forall a b : Q, a <= b -> round a <= round b.
Hypothesis round_zero : round 0 == 0.
Hypothesis round_full : round 65535 == 65535.

Lemma round_comp (a b : Q) : a == b -> round a == round b.
Proof.
  intros H. apply Qle_antisym; apply round_mono; rewrite H; apply Qle_refl.
Qed.

Lemma duty_cycle_full : duty_cycle round (NFloat 1) = Ok 65535%Z.
Proof.
  unfold duty_cycle. replace (clamp (NFloat 1)) with (NFloat 1) by reflexivity.
  cbn [times_65535 num_int]. f_equal.
  rewrite (Qtrunc_comp (round (1 * 65535)) 65535).
  - reflexivity.
  - apply Qeq_trans with (round 65535); [apply round_comp; reflexivity|].
    exact round_full.
Qed.

(** The duty cycle is the truncation of the rounded product of the clamped
    value by 65535, also when the clamped value is the integer 0. *)
Lemma duty_cycle_value (val : num) (c : Q) :
  num_value (clamp val) = Some c -> 0 <= c ->
  duty_cycle round val = Ok (Qtrunc (round (c * 65535))).
Proof.
  intros Hc Hpos. unfold duty_cycle.
  destruct (clamp_cases val) as [H|[q [H _]]]; rewrite H in *; cbn in Hc;
    injection Hc as <-; cbn [times_65535 num_int]; [|reflexivity].
  f_equal. rewrite (Qtrunc_comp (round (inject_Z 0 * 65535)) 0); [reflexivity|].
  apply Qeq_trans with (round 0); [apply round_comp; reflexivity|].
  exact round_zero.
Qed.

Lemma clamp_value_range (val : num) :
  exists c, num_value (clamp val) = Some c /\ 0 <= c /\ c <= 1.
Proof.
  destruct (clamp_cases val) as [->|[q [-> [Hq0 Hq1]]]].
  - exists (inject_Z 0). repeat split; compute; discriminate.
  - exists q. repeat split; [apply Qlt_le_weak, Hq0 | exact Hq1].
Qed.

(** X5: a brighter argument never gives a smaller duty cycle. *)
Theorem duty_cycle_monotone (v1 v2 : num) (d1 d2 : Z) :
  v1 <> NNan -> v2 <> NNan ->
  num_lt v2 v1 = false ->
  duty_cycle round v1 = Ok d1 -> duty_cycle round v2 = Ok d2 ->
  (d1 <= d2)%Z.
Proof.
  intros Hn1 Hn2 Hle H1 H2.
  destruct (duty_cycle_range round round_mono round_zero round_full v1)
    as (e1 & He1 & Hr1).
  destruct (duty_cycle_range round round_mono round_zero round_full v2)
    as (e2 & He2 & Hr2).
  unfold duty_cycle in H1, H2. rewrite He1 in H1. rewrite He2 in H2.
  injection H1 as <-. injection H2 as <-.
  destruct (num_lt v1 (NInt 0)) eqn:Hlow.
  { (* below zero: the first duty cycle is 0 *)
    pose proof (clamp_below v1 Hlow) as Hc. rewrite Hc in He1. cbn in He1.
    injection He1 as <-. lia. }
  destruct (num_lt (NFloat 1) v2) eqn:Hhigh.
  { (* above one: the second duty cycle is 65535 *)
    pose proof (clamp_above v2 Hhigh) as Hc.
    pose proof duty_cycle_full as Hfull. unfold duty_cycle in Hfull.
    replace (clamp (NFloat 1)) with (NFloat 1) in Hfull by reflexivity.
    rewrite Hc, Hfull in He2. injection He2 as <-. lia. }
  assert (Hfin : exists x y, num_value v1 = Some x /\ num_value v2 = Some y).
  { destruct v1 as [z1|q1| | |], v2 as [z2|q2| | |];
      cbn in Hle, Hlow, Hhigh; try discriminate; try contradiction; cbn; eauto. }
  destruct Hfin as (x & y & Hx & Hy).
  pose proof (num_le_value v1 v2 x y Hx Hy Hle) as Hxy.
  assert (Hlow2 : num_lt v2 (NInt 0) = false).
  { destruct (num_lt v2 (NInt 0)) eqn:E; [|reflexivity]. exfalso.
    assert (Hx0 : inject_Z 0 <= x).
    { apply (num_le_value (NInt 0) v1 (inject_Z 0) x eq_refl Hx Hlow). }
    destruct v2 as [z2|q2| | |]; cbn in Hy, E; try discriminate; injection Hy as <-.
    - apply Z.ltb_lt in E.
      assert (H0 : inject_Z 0 <= inject_Z z2) by (apply Qle_trans with x; assumption).
      unfold Qle, inject_Z in H0; cbn in H0. lia.
    - destruct (Qlt_le_dec q2 (inject_Z 0)) as [Hq|]; [|discriminate].
      apply (Qlt_not_le _ _ Hq). apply Qle_trans with x; assumption. }
  assert (Hhigh1 : num_lt (NFloat 1) v1 = false).
  { destruct (num_lt (NFloat 1) v1) eqn:E; [|reflexivity]. exfalso.
    assert (Hy1 : y <= 1).
    { apply (num_le_value v2 (NFloat 1) y 1 Hy eq_refl Hhigh). }
    destruct v1 as [z1|q1| | |]; cbn in Hx, E; try discriminate; injection Hx as <-.
    - destruct (Qlt_le_dec 1 (inject_Z z1)) as [Hq|]; [|discriminate].
      apply (Qlt_not_le _ _ Hq). apply Qle_trans with y; assumption.
    - destruct (Qlt_le_dec 1 q1) as [Hq|]; [|discriminate].
      apply (Qlt_not_le _ _ Hq). apply Qle_trans with y; assumption. }
  destruct (clamp_inside v1 x Hx Hlow Hhigh1) as (c1 & Hc1 & Hcx).
  destruct (clamp_inside v2 y Hy Hlow2 Hhigh) as (c2 & Hc2 & Hcy).
  assert (Hx0 : 0 <= x).
  { apply (num_le_value (NInt 0) v1 (inject_Z 0) x eq_refl Hx Hlow). }
  assert (H1 : duty_cycle round v1 = Ok (Qtrunc (round (c1 * 65535)))).
  { apply duty_cycle_value; [exact Hc1 | rewrite Hcx; exact Hx0]. }
  assert (H2 : duty_cycle round v2 = Ok (Qtrunc (round (c2 * 65535)))).
  { apply duty_cycle_value; [exact Hc2|]. rewrite Hcy.
    apply Qle_trans with x; assumption. }
  unfold duty_cycle in H1, H2. rewrite He1 in H1. rewrite He2 in H2.
  injection H1 as ->. injection H2 as ->.
  apply Qtrunc_mono.
  - apply Qle_trans with (round 0); [rewrite round_zero; apply Qle_refl|].
    apply round_mono. apply Qmult_le_0_compat; [|discriminate].
    rewrite Hcx. exact Hx0.
  - apply round_mono. apply Qmult_le_compat_r; [|discriminate].
    rewrite Hcx, Hcy. exact Hxy.
Qed.

(** X6: the arguments that are not finite numbers: NaN and plus infinity
    turn the backlight fully on, minus infinity turns it off; the call never
    raises on them. *)
Theorem set_backlight_not_finite (self : Light) :
  set_backlight round self NNan = set_backlight round self (NFloat 1) /\
  set_backlight round self NInf = set_backlight round self (NFloat 1) /\
  set_backlight round self NNegInf = set_backlight round self (NInt 0) /\
  (forall pwm, _backlight self = Some pwm ->
     set_backlight round self NNan
       = Ok {| _backlight := Some 65535%Z; display := display self |} /\
     set_backlight round self NNegInf
       = Ok {| _backlight := Some 0%Z; display := display self |}).
Proof.
  split; [reflexivity|]. split; [reflexivity|]. split; [reflexivity|].
  intros pwm Hpwm. split.
  - pose proof duty_cycle_full as Hfull. unfold duty_cycle in Hfull.
    replace (clamp (NFloat 1)) with (NFloat 1) in Hfull by reflexivity.
    unfold set_backlight. rewrite Hpwm.
    replace (clamp NNan) with (NFloat 1) by reflexivity.
    rewrite Hfull. reflexivity.
  - unfold set_backlight. rewrite Hpwm. reflexivity.
Qed.
End BacklightOrder.

Lemma duty_cycle_monotone_witness : (16383 <= 49151)%Z.
Proof.
  apply (duty_cycle_monotone round_down round_down_mono
           (Qeq_bool_eq (round_down 0) 0 eq_refl)
           (Qeq_bool_eq (round_down 65535) 65535 eq_refl)
           (NFloat (1 # 4)) (NFloat (3 # 4)));
    try discriminate; reflexivity.
Defined.

Lemma set_backlight_not_finite_witness :
  set_backlight round_down pwm_light NNan
  = Ok {| _backlight := Some 65535%Z; display := display pwm_light |}.
Proof.
  apply (set_backlight_not_finite round_down round_down_mono
           (Qeq_bool_eq (round_down 65535) 65535 eq_refl)
           pwm_light) with (pwm := 0%Z).
  reflexivity.
Defined.

(** ** Failures of [fetch] in [adafruit_pyportal.py] *)

Lemma bind_outcome {S E A B} (c : M S E A) (f : A -> M S E B) s :
  outcome (bind c f s) =
  match outcome (c s) with
  | Ok a => outcome (f a (final (c s)))
  | Raise e => Raise e
  end.
Proof.
  unfold bind, outcome, final.
  destruct (c s) as [[[a|e] s1] tr1]; cbn; [|reflexivity].
  destruct (f a s1) as [[r s'] tr2]; reflexivity.
Qed.

Lemma callbacks_app (tr1 tr2 : list Legacy.event) :
  callbacks (tr1 ++ tr2) = callbacks tr1 ++ callbacks tr2.
Proof. apply flat_map_app. Qed.

Lemma callbacks_none (tr : list Legacy.event) :
  Forall not_callback tr -> callbacks tr = [].
Proof.
  induction 1 as [|ev tr Hev _ IH]; [reflexivity|].
  change (callbacks (ev :: tr)) with
    (match ev with Legacy.EvCallback v => [v] | _ => [] end ++ callbacks tr).
  rewrite IH. destruct ev; cbn in Hev |- *; solve [reflexivity | contradiction].
Qed.

Section LegacyFailures.
Variable env : Legacy.Env.

Lemma fetch_response_extraction : emits_only extraction_event (Legacy.fetch_response env).
Proof.
  unfold Legacy.fetch_response, Legacy._connect_esp. emits.
  intros s. clear. induction (Legacy.connect_failures env) as [|n IH];
    cbn [Legacy.connect_loop].
  - repeat constructor.
  - unfold bind, emit, trace in *.
    destruct (Legacy.connect_loop n s) as [[r s'] tr]. cbn in *.
    destruct r; cbn; repeat constructor; exact IH.
Qed.

Lemma fetch_json_extraction (r : response) :
  emits_only extraction_event (Legacy.fetch_json r).
Proof. unfold Legacy.fetch_json. emits. Qed.

Lemma fetch_values_extraction (r : response) (j : pyval) :
  emits_only extraction_event (Legacy.fetch_values env r j).
Proof. unfold Legacy.fetch_values. emits. Qed.

(** The run of [fetch] up to the extraction of the values. *)
Lemma fetch_until_values (refresh_url : option str) (self : Legacy.PyPortal)
      (r : response) (j : pyval) :
  let s1 := refreshed self refresh_url in
  outcome (Legacy.fetch_response env s1) = Ok r ->
  outcome (Legacy.fetch_json r s1) = Ok j ->
  forall e, outcome (Legacy.fetch_values env r j s1) = Raise e ->
  outcome (Legacy.fetch env refresh_url self) = Raise e /\
  trace (Legacy.fetch env refresh_url self)
  = trace (Legacy.fetch_response env s1) ++ trace (Legacy.fetch_json r s1)
    ++ trace (Legacy.fetch_values env r j s1).
Proof.
  intros s1 Hr Hj e Hv. unfold Legacy.fetch.
  rewrite bind_outcome, bind_trace, fetch_refresh_run.
  cbn [outcome final trace fst snd app]. fold (refreshed self refresh_url). fold s1.
  rewrite bind_outcome, bind_trace, Hr, (fetch_response_keeps env s1).
  rewrite bind_outcome, bind_trace, Hj, (fetch_json_keeps r s1).
  rewrite bind_outcome, bind_trace. cbn [get_self outcome final trace fst snd app].
  rewrite bind_outcome, bind_trace, Hv. auto.
Qed.

(** X7: when a JSON path or an image JSON path is set and the response does
    not parse, [fetch] raises what [json()] raised ([ValueError] for a body
    that is not JSON), or reloads the program on [MemoryError]; nothing is
    done after the parse: no traversal, no image, no callback, no text. *)
Theorem fetch_parse_failure (refresh_url : option str) (self : Legacy.PyPortal)
        (r : response) (e : exn) :
  let s1 := refreshed self refresh_url in
  outcome (Legacy.fetch_response env s1) = Ok r ->
  some_nonempty (Legacy._image_json_path self)
  || some_nonempty (Legacy._json_path self) = true ->
  json r = Raise e ->
  outcome (Legacy.fetch env refresh_url self)
  = Raise match e with MemoryError => Reload | _ => e end /\
  trace (Legacy.fetch env refresh_url self)
  = trace (Legacy.fetch_response env s1) ++ [Legacy.EvJson].
Proof.
  intros s1 Hr Hcfg He.
  assert (Hcfg1 : some_nonempty (Legacy._image_json_path s1)
                  || some_nonempty (Legacy._json_path s1) = true).
  { unfold s1, refreshed. destruct (some_nonempty refresh_url); exact Hcfg. }
  assert (Hj : Legacy.fetch_json r s1
               = (Raise match e with MemoryError => Reload | _ => e end, s1,
                  [Legacy.EvJson])).
  { unfold Legacy.fetch_json, bind, get_self, emit. rewrite Hcfg1, He.
    destruct e; reflexivity. }
  unfold Legacy.fetch.
  rewrite bind_outcome, bind_trace, fetch_refresh_run.
  cbn [outcome final trace fst snd app]. fold (refreshed self refresh_url). fold s1.
  rewrite bind_outcome, bind_trace, Hr, (fetch_response_keeps env s1).
  rewrite bind_outcome, bind_trace, Hj. auto.
Qed.

(** X8: when the extraction of the values fails, by a path that the JSON
    does not hold or by a regular expression that does not match, [fetch]
    raises that exception ([KeyError], [IndexError], [TypeError], or
    [AttributeError] for a search without match), and has done nothing but
    the request and the extraction: no image is downloaded, the callback is
    not called and no text is set. *)
Theorem fetch_extraction_failure (refresh_url : option str) (self : Legacy.PyPortal)
        (r : response) (j : pyval) (e : exn) :
  let s1 := refreshed self refresh_url in
  outcome (Legacy.fetch_response env s1) = Ok r ->
  outcome (Legacy.fetch_json r s1) = Ok j ->
  match Legacy._json_path self, Legacy._regexp_path self with
  | Some (p :: paths), _ => rmap (_json_traverse j) (p :: paths) = Raise e
  | _, Some (x :: regexps) => rmap (first_group env (text r)) (x :: regexps) = Raise e
  | _, _ => False
  end ->
  outcome (Legacy.fetch env refresh_url self) = Raise e /\
  Forall extraction_event (trace (Legacy.fetch env refresh_url self)) /\
  callbacks (trace (Legacy.fetch env refresh_url self)) = [].
Proof.
  intros s1 Hr Hj Hfail.
  assert (Hv : outcome (Legacy.fetch_values env r j s1) = Raise e).
  { rewrite fetch_values_outcome.
    replace (Legacy._json_path s1) with (Legacy._json_path self)
      by (unfold s1, refreshed; destruct (some_nonempty refresh_url); reflexivity).
    replace (Legacy._regexp_path s1) with (Legacy._regexp_path self)
      by (unfold s1, refreshed; destruct (some_nonempty refresh_url); reflexivity).
    destruct (Legacy._json_path self) as [[|p paths]|];
      destruct (Legacy._regexp_path self) as [[|x regexps]|];
      try contradiction; rewrite Hfail; reflexivity. }
  destruct (fetch_until_values refresh_url self r j Hr Hj e Hv) as [Hout Htr].
  split; [exact Hout|].
  assert (Hall : Forall extraction_event (trace (Legacy.fetch env refresh_url self))).
  { rewrite Htr. rewrite !Forall_app. repeat split.
    - apply fetch_response_extraction.
    - apply fetch_json_extraction.
    - apply fetch_values_extraction. }
  split; [exact Hall|].
  apply callbacks_none. revert Hall. apply Forall_impl.
  intros ev; destruct ev; cbn; tauto.
Qed.
End LegacyFailures.

Lemma fetch_parse_failure_witness :
  outcome (Legacy.fetch html_env None price_portal) = Raise ValueError.
Proof.
  refine (proj1 (fetch_parse_failure html_env None price_portal html_response
                   ValueError _ _ _)); reflexivity.
Defined.

Lemma fetch_extraction_failure_witness :
  outcome (Legacy.fetch price_env None euro_portal)
  = Raise (KeyError (KStr (lit "eur"))).
Proof.
  refine (proj1 (fetch_extraction_failure price_env None euro_portal price_response
                   (PDict [(lit "bitcoin", PDict [(lit "usd", PInt 5)])])
                   (KeyError (KStr (lit "eur"))) _ _ _)); reflexivity.
Defined.

(** ** Runs of [fetch] that return *)

Lemma run_parts {S E A} (c : M S E A) s a s1 t :
  c s = (a, s1, t) -> outcome (c s) = a /\ final (c s) = s1 /\ trace (c s) = t.
Proof. intros ->. auto. Qed.

Lemma try_except_outcome {S E A} (c : M S E A) handler s :
  outcome (try_except c handler s) =
  match outcome (c s) with
  | Ok a => Ok a
  | Raise e =>
      match handler e with
      | Some h => outcome (h (final (c s)))
      | None => Raise e
      end
  end.
Proof.
  unfold try_except, outcome, final.
  destruct (c s) as [[[a|e] s1] tr1]; cbn; [reflexivity|].
  destruct (handler e) as [h|]; [|reflexivity].
  destruct (h s1) as [[r s'] tr2]; reflexivity.
Qed.

Section LegacyRuns.
Variable env : Legacy.Env.

Lemma fetch_return_silent (values : pyval) (s : Legacy.PyPortal) :
  trace (Legacy.fetch_return values s) = [].
Proof.
  unfold Legacy.fetch_return, bind, lift, ret, trace.
  destruct (py_len values) as [n|e]; cbn; [|reflexivity].
  destruct (n =? 1)%Z; cbn; [|reflexivity].
  destruct (getitem values (KInt 0)); reflexivity.
Qed.

(** A call of [fetch] that returns, step by step. *)
Lemma fetch_ok_steps (refresh_url : option str) (self self' : Legacy.PyPortal)
      (returned : pyval) (tr : list Legacy.event) :
  Legacy.fetch env refresh_url self = (Ok returned, self', tr) ->
  let s1 := refreshed self refresh_url in
  exists r j values image_url,
    outcome (Legacy.fetch_response env s1) = Ok r /\
    outcome (Legacy.fetch_json r s1) = Ok j /\
    outcome (Legacy.fetch_values env r j s1) = Ok values /\
    outcome (Legacy.fetch_callback values s1) = Ok tt /\
    outcome (Legacy.fetch_text env values s1) = Ok tt /\
    self' = final (Legacy.fetch_text env values s1) /\
    outcome (Legacy.fetch_return values self') = Ok returned /\
    tr = trace (Legacy.fetch_response env s1) ++ trace (Legacy.fetch_json r s1)
         ++ trace (Legacy.fetch_values env r j s1)
         ++ trace (Legacy.fetch_image_url env j (Legacy.image_url_path s1) s1)
         ++ [Legacy.EvRelease] ++ trace (Legacy.fetch_image env image_url s1)
         ++ trace (Legacy.fetch_callback values s1)
         ++ trace (Legacy.fetch_text env values s1).
Proof.
  intros H s1. unfold Legacy.fetch in H.
  apply bind_ok_inv in H as ([] & s1' & t0 & tr0 & H0 & H & ->).
  rewrite fetch_refresh_run in H0. injection H0 as <- <-.
  fold (refreshed self refresh_url) in H. fold s1 in H.
  apply bind_ok_inv in H as (r & sa & t1 & tr1 & H1 & H & ->).
  apply run_parts in H1 as (O1 & F1 & T1).
  rewrite (fetch_response_keeps env s1) in F1. subst sa.
  apply bind_ok_inv in H as (j & sa & t2 & tr2 & H2 & H & ->).
  apply run_parts in H2 as (O2 & F2 & T2).
  rewrite (fetch_json_keeps r s1) in F2. subst sa.
  apply bind_ok_inv in H as (me & sa & t3 & tr3 & H3 & H & ->).
  injection H3 as <- <- <-.
  apply bind_ok_inv in H as (values & sa & t4 & tr4 & H4 & H & ->).
  apply run_parts in H4 as (O4 & F4 & T4).
  rewrite (fetch_values_keeps env r j s1) in F4. subst sa.
  apply bind_ok_inv in H as (image_url & sa & t5 & tr5 & H5 & H & ->).
  apply run_parts in H5 as (O5 & F5 & T5).
  rewrite (fetch_image_url_keeps env j _ s1) in F5. subst sa.
  apply bind_ok_inv in H as ([] & sa & t6 & tr6 & H6 & H & ->).
  injection H6 as <- <-.
  apply bind_ok_inv in H as ([] & sa & t7 & tr7 & H7 & H & ->).
  apply run_parts in H7 as (O7 & F7 & T7).
  rewrite (fetch_image_keeps env image_url s1) in F7. subst sa.
  apply bind_ok_inv in H as ([] & sa & t8 & tr8 & H8 & H & ->).
  apply run_parts in H8 as (O8 & F8 & T8).
  rewrite (fetch_callback_keeps values s1) in F8. subst sa.
  apply bind_ok_inv in H as ([] & sb & t9 & tr9 & H9 & H & ->).
  apply run_parts in H9 as (O9 & F9 & T9).
  apply run_parts in H as (O & F & T).
  rewrite (fetch_return_keeps values sb) in F. subst sb.
  rewrite fetch_return_silent in T.
  exists r, j, values, image_url. subst.
  repeat split; auto.
  cbn [app]. rewrite app_nil_r. reflexivity.
Qed.

Ltac quiet L s :=
  refine (emits_only_weaken _ not_callback _ _ L s); intros []; cbn; tauto.

Lemma fetch_image_url_events (json_out image_url : pyval) :
  emits_only image_event (Legacy.fetch_image_url env json_out image_url).
Proof. unfold Legacy.fetch_image_url, Legacy.set_background. emits. Qed.

Lemma fetch_image_events (image_url : pyval) :
  emits_only image_event (Legacy.fetch_image env image_url).
Proof. unfold Legacy.fetch_image, Legacy.set_background. emits. Qed.

Lemma fetch_text_events (values : pyval) :
  emits_only (fun e => match e with Legacy.EvSetText _ _ => True | _ => False end)
             (Legacy.fetch_text env values).
Proof. unfold Legacy.fetch_text, Legacy.fill_text, Legacy.set_text. emits. Qed.

(** X9: a call of [fetch] that returns has called the callback once, with
    the extracted values (the list of them, also when there is one), when a
    callback is registered, and not at all otherwise. *)
Theorem fetch_calls_back_once (refresh_url : option str) (self self' : Legacy.PyPortal)
        (returned : pyval) (tr : list Legacy.event) :
  Legacy.fetch env refresh_url self = (Ok returned, self', tr) ->
  let s1 := refreshed self refresh_url in
  exists r j values,
    outcome (Legacy.fetch_response env s1) = Ok r /\
    outcome (Legacy.fetch_json r s1) = Ok j /\
    outcome (Legacy.fetch_values env r j s1) = Ok values /\
    callbacks tr = match Legacy._success_callback self with
                   | Some _ => [values]
                   | None => []
                   end.
Proof.
  intros H s1. apply fetch_ok_steps in H as (r & j & values & u & Hr & Hj & Hv & Hc & _ & _ & _ & ->).
  fold s1. exists r, j, values. repeat split; auto.
  rewrite !callbacks_app.
  rewrite (callbacks_none (trace (Legacy.fetch_response env s1))),
          (callbacks_none (trace (Legacy.fetch_json r s1))),
          (callbacks_none (trace (Legacy.fetch_values env r j s1))),
          (callbacks_none (trace (Legacy.fetch_image_url env j _ s1))),
          (callbacks_none (trace (Legacy.fetch_image env u s1))),
          (callbacks_none (trace (Legacy.fetch_text env values s1))).
  - cbn [app callbacks flat_map]. rewrite app_nil_r.
    replace (Legacy._success_callback self) with (Legacy._success_callback s1)
      by (unfold s1, refreshed; destruct (some_nonempty refresh_url); reflexivity).
    unfold Legacy.fetch_callback, bind, get_self, emit, lift, ret, trace.
    destruct (Legacy._success_callback s1) as [cb|]; [|reflexivity].
    cbn. destruct (cb values); reflexivity.
  - quiet (fetch_text_events values) s1.
  - quiet (fetch_image_events u) s1.
  - quiet (fetch_image_url_events j (Legacy.image_url_path s1)) s1.
  - quiet (fetch_values_extraction env r j) s1.
  - quiet (fetch_json_extraction r) s1.
  - quiet (fetch_response_extraction env) s1.
Qed.
End LegacyRuns.

Lemma fetch_calls_back_once_witness :
  exists r j values,
    outcome (Legacy.fetch_response price_env callback_portal) = Ok r /\
    outcome (Legacy.fetch_json r callback_portal) = Ok j /\
    outcome (Legacy.fetch_values price_env r j callback_portal) = Ok values /\
    callbacks [Legacy.EvGet (Some (lit "https://example.org/price")); Legacy.EvJson;
               Legacy.EvTraverse [KStr (lit "bitcoin"); KStr (lit "usd")];
               Legacy.EvRelease; Legacy.EvCallback (PList [PInt 5])]
    = [values].
Proof.
  exact (fetch_calls_back_once price_env None callback_portal callback_portal (PInt 5)
           [Legacy.EvGet (Some (lit "https://example.org/price")); Legacy.EvJson;
            Legacy.EvTraverse [KStr (lit "bitcoin"); KStr (lit "usd")];
            Legacy.EvRelease; Legacy.EvCallback (PList [PInt 5])]
           eq_refl).
Defined.

(** ** The image of [fetch] *)

Section LegacyImage.
Variable env : Legacy.Env.

Lemma set_background_downloads (bg : pyval) :
  emits_only cache_download (Legacy.set_background env bg).
Proof. unfold Legacy.set_background. emits. Qed.

(** X10: whatever the configuration and the answers of the network, a call
    of [fetch] downloads only to [/sd/cache.bmp], in chunks of 512 bytes, or
    to [/cache.bmp], in chunks of 12000 bytes. *)
Theorem fetch_downloads_to_cache (refresh_url : option str) :
  emits_only cache_download (Legacy.fetch env refresh_url).
Proof.
  unfold Legacy.fetch.
  apply emits_only_bind; [unfold Legacy.fetch_refresh; emits|intros _].
  apply emits_only_bind; [|intros r].
  { apply (emits_only_weaken extraction_event);
      [intros []; cbn; tauto | apply fetch_response_extraction]. }
  apply emits_only_bind; [unfold Legacy.fetch_json; emits|intros j].
  apply emits_only_bind; [emits|intros self].
  apply emits_only_bind; [unfold Legacy.fetch_values; emits|intros values].
  apply emits_only_bind;
    [unfold Legacy.fetch_image_url, Legacy.set_background; emits|intros u].
  apply emits_only_bind; [emits|intros _].
  apply emits_only_bind; [|intros _].
  { unfold Legacy.fetch_image.
    apply emits_only_bind; [emits|intros me].
    destruct (truthy u); [|emits].
    unfold Legacy.cache_file.
    destruct (Legacy._sdcard me); unfold Legacy.set_background;
      repeat first
        [ apply emits_only_emit; cbn; solve [exact I | auto]
        | progress emits ]. }
  apply emits_only_bind; [unfold Legacy.fetch_callback; emits|intros _].
  apply emits_only_bind;
    [unfold Legacy.fetch_text, Legacy.fill_text, Legacy.set_text; emits|intros _].
  unfold Legacy.fetch_return. emits.
Qed.

Lemma set_background_file_run (file : str) (s : Legacy.PyPortal) :
  nonempty file = true ->
  Legacy.set_background env (PStr file) s
  = (Legacy.open_bitmap env file, s, [Legacy.EvSetBackground (PStr file)]).
Proof.
  intros H. unfold Legacy.set_background, bind, emit, lift. cbn [truthy].
  rewrite H. reflexivity.
Qed.

(** X11: when a call of the [try] block of the image step raises a
    [ValueError] with a message, the handler sets the default background
    and the step ends as that call does: it returns when the default is a
    colour.  A [ValueError] without arguments, or whose first argument is
    not a string, makes the handler itself raise [IndexError] or
    [TypeError], from [error.args[0]] in its message, and the default
    background is not set.  Any other exception is raised on. *)
Theorem fetch_image_value_error (image_url : pyval) (s : Legacy.PyPortal) (e : exn) :
  truthy image_url = true ->
  image_step_raises env s image_url e ->
  let run := Legacy.fetch_image env image_url s in
  let shown := Legacy.set_background env (Legacy._default_bg s) s in
  exists attempted,
    Forall (image_attempt (fst (Legacy.cache_file s))) attempted /\
    match e with
    | ValueError =>
        outcome run = outcome shown /\ trace run = attempted ++ trace shown /\
        (forall color, Legacy._default_bg s = PInt color ->
           shown = (Ok tt, s, [Legacy.EvSetBackground (PInt color)]))
    | ValueErrorNoArgs => outcome run = Raise IndexError /\ trace run = attempted
    | ValueErrorNotStr => outcome run = Raise TypeError /\ trace run = attempted
    | _ => outcome run = Raise e /\ trace run = attempted
    end.
Proof.
  intros Ht Hraise run shown.
  assert (Hcolor : forall color, Legacy._default_bg s = PInt color ->
            shown = (Ok tt, s, [Legacy.EvSetBackground (PInt color)])).
  { intros color Hc. subst shown. rewrite Hc.
    unfold Legacy.set_background, bind, emit, ret. cbn [truthy].
    destruct (negb (negb (color =? 0)%Z)); reflexivity. }
  assert (Hfile : nonempty (fst (Legacy.cache_file s)) = true)
    by (unfold Legacy.cache_file; destruct (Legacy._sdcard s); reflexivity).
  assert (Hrun : exists attempted s',
            Forall (image_attempt (fst (Legacy.cache_file s))) attempted /\
            run = (match e with
                   | ValueError => outcome shown
                   | ValueErrorNoArgs => Raise IndexError
                   | ValueErrorNotStr => Raise TypeError
                   | _ => Raise e
                   end, s',
                   match e with
                   | ValueError => attempted ++ trace shown
                   | _ => attempted
                   end)).
  { subst run. clear Hcolor. unfold Legacy.fetch_image, image_step_raises in *.
    rewrite Ht. unfold bind at 1, get_self at 1. cbv beta iota.
    revert Hraise Hfile.
    destruct (Legacy.cache_file s) as [filename chunk_size]. cbn [fst snd].
    intros Hraise Hfile.
    assert (Hopen := set_background_file_run filename s Hfile).
    unfold try_except, bind, emit, lift, raise, ret, outcome, trace.
    destruct (Legacy.converter_url env image_url _ _) as [converted|e1];
      [destruct (Legacy.wget_outcome env converted filename chunk_size) as [[]|e2];
       [cbn -[Legacy.set_background]; rewrite Hopen, Hraise|subst e2]
      |subst e1];
      subst shown.
    1: exists [Legacy.EvConverterUrl image_url;
               Legacy.EvWget converted filename chunk_size;
               Legacy.EvSetBackground (PStr filename)].
    2: exists [Legacy.EvConverterUrl image_url;
               Legacy.EvWget converted filename chunk_size].
    3: exists [Legacy.EvConverterUrl image_url].
    all: destruct e; cbn -[Legacy.set_background];
      generalize (Legacy.set_background env (Legacy._default_bg s) s);
      intros [[r s2] tr2]; cbn; eexists;
      (split; [repeat constructor|reflexivity]). }
  destruct Hrun as (attempted & s' & Hall & Hrun). exists attempted.
  split; [exact Hall|]. rewrite Hrun.
  destruct e; cbn [outcome trace fst snd]; auto.
Qed.

(** X12: when the image JSON path leads to a key that an object of the JSON
    does not hold, the default background is shown and the image URL stays
    what it was, so that the step returns when the default background can
    be shown; a missing key that is a number raises [TypeError] instead,
    from the message of the handler. *)
Theorem fetch_image_url_missing_key (json_out image_url : pyval) (s : Legacy.PyPortal)
        (k : key) (path : list key) (missing : key) :
  Legacy._image_json_path s = Some (k :: path) ->
  _json_traverse json_out (k :: path) = Raise (KeyError missing) ->
  Legacy.fetch_image_url env json_out image_url s =
  match missing with
  | KStr _ =>
      (match outcome (Legacy.set_background env (Legacy._default_bg s) s) with
       | Ok _ => Ok image_url
       | Raise e => Raise e
       end, s,
       Legacy.EvTraverse (k :: path)
       :: trace (Legacy.set_background env (Legacy._default_bg s) s))
  | KInt _ => (Raise TypeError, s, [Legacy.EvTraverse (k :: path)])
  end.
Proof.
  intros Hp Hk. unfold Legacy.fetch_image_url, bind at 1, get_self.
  rewrite Hp. unfold bind at 1, emit. rewrite Hk.
  destruct missing as [name|i]; [|reflexivity].
  pose proof (set_background_keeps env (Legacy._default_bg s) s) as Hs.
  unfold bind, ret, outcome, trace, final in *.
  destruct (Legacy.set_background env (Legacy._default_bg s) s) as [[[[]|e] s'] t];
    cbn in *; subst s'; rewrite ?app_nil_r; reflexivity.
Qed.
End LegacyImage.

Lemma fetch_image_value_error_witness :
  let run := Legacy.fetch_image bad_picture (PStr (lit "https://example.org/a.jpg"))
               price_portal in
  outcome run = Ok tt /\ In (Legacy.EvSetBackground (PInt 0)) (trace run).
Proof.
  intros run.
  destruct (fetch_image_value_error bad_picture (PStr (lit "https://example.org/a.jpg"))
              price_portal ValueError eq_refl eq_refl)
    as (attempted & _ & Hout & Htrace & Hcolor).
  fold run in Hout, Htrace. rewrite Hout, Htrace, (Hcolor 0%Z eq_refl).
  split; [reflexivity|]. apply in_or_app. right. left. reflexivity.
Defined.

Lemma fetch_image_url_missing_key_witness :
  Legacy.fetch_image_url price_env (PDict [(lit "image", PDict [])]) PNone image_portal
  = (Ok PNone, image_portal,
     [Legacy.EvTraverse [KStr (lit "image"); KStr (lit "url")];
      Legacy.EvSetBackground (PInt 0)]).
Proof.
  exact (fetch_image_url_missing_key price_env (PDict [(lit "image", PDict [])]) PNone
           image_portal (KStr (lit "image")) [KStr (lit "url")] (KStr (lit "url"))
           eq_refl eq_refl).
Defined.

(** ** The text areas *)

Lemma replace_nth_length {A} (l : list A) (n : nat) (a : A) :
  length (Legacy.replace_nth l n a) = length l.
Proof.
  revert n. induction l as [|x l IH]; intros [|n]; cbn; auto.
Qed.

Lemma replace_nth_same {A} (l : list A) (n : nat) (a x : A) :
  nth_error l n = Some x -> nth_error (Legacy.replace_nth l n a) n = Some a.
Proof.
  revert n. induction l as [|y l IH]; intros [|n]; cbn; try discriminate; auto.
Qed.

Lemma replace_nth_other {A} (l : list A) (n m : nat) (a : A) :
  m <> n -> nth_error (Legacy.replace_nth l n a) m = nth_error l m.
Proof.
  revert n m. induction l as [|y l IH]; intros [|n] [|m] H; cbn; auto.
  congruence.
Qed.

Lemma replace_nth_map {A B} (f : A -> B) (l : list A) (n : nat) (a x : A) :
  nth_error l n = Some x -> f a = f x -> map f (Legacy.replace_nth l n a) = map f l.
Proof.
  revert n. induction l as [|y l IH]; intros [|n]; cbn; try discriminate.
  - intros [= ->] ->. reflexivity.
  - intros H Hf. f_equal. eauto.
Qed.

Lemma firstn_own_length {A} (n : nat) (l : list A) :
  firstn (length (firstn n l)) l = firstn n l.
Proof.
  rewrite length_firstn. destruct (Nat.le_gt_cases n (length l)) as [H|H].
  - rewrite Nat.min_l by exact H. reflexivity.
  - rewrite Nat.min_r by lia. rewrite firstn_all, firstn_all2 by lia. reflexivity.
Qed.

Lemma slice_to_length (s : str) (n : Z) :
  (0 < n)%Z -> (Z.of_nat (length (slice_to s n)) <= n)%Z.
Proof.
  intros Hn. unfold slice_to.
  destruct (n <? 0)%Z eqn:E; [apply Z.ltb_lt in E; lia|].
  rewrite length_firstn. lia.
Qed.

Section LegacyText.
Variable env : Legacy.Env.

Lemma set_text_layouts (val : pyval) (i : nat) :
  preserves layouts (Legacy.set_text env val i).
Proof.
  intros s. unfold Legacy.set_text, bind, get_self, final; cbn.
  destruct (Legacy._text_font s); [|reflexivity].
  destruct (nth_error _ i) as [slot|] eqn:Hi; [|reflexivity].
  destruct (Legacy.text_label slot), (Legacy.text_position slot); cbn;
    try reflexivity;
    unfold layouts; cbn; apply (replace_nth_map layout _ _ _ _ Hi); reflexivity.
Qed.

Lemma fill_text_layouts (values : pyval) (i : nat) :
  preserves layouts (Legacy.fill_text env values i).
Proof.
  unfold Legacy.fill_text.
  apply preserves_bind; [apply preserves_keeps, keeps_state_get|]. intros self.
  destruct (nth_error _ i) as [slot|]; [|apply preserves_keeps, keeps_state_raise].
  apply preserves_bind.
  - apply preserves_keeps. keeps.
  - intros string. apply preserves_bind; [|intros; apply set_text_layouts].
    apply preserves_keeps. keeps.
Qed.

(** X13: a call of [fetch], whether it returns or raises, leaves the text
    areas as the constructor made them but for their labels: their number,
    colours, positions, wrap widths, maximal lengths and transforms are
    the same after the call. *)
Theorem fetch_keeps_layouts (refresh_url : option str) (self : Legacy.PyPortal) :
  layouts (final (Legacy.fetch env refresh_url self)) = layouts self.
Proof.
  unfold Legacy.fetch.
  rewrite bind_final, fetch_refresh_run. cbn [outcome final fst snd].
  transitivity (layouts (refreshed self refresh_url));
    [|unfold refreshed; destruct (some_nonempty refresh_url); reflexivity].
  fold (refreshed self refresh_url).
  match goal with
  | |- layouts (final (?c ?s1)) = _ =>
      assert (Hk : preserves layouts c); [|apply Hk]
  end.
  apply preserves_bind; [apply preserves_keeps, fetch_response_keeps|intros r].
  apply preserves_bind; [apply preserves_keeps, fetch_json_keeps|intros json_out].
  apply preserves_bind; [apply preserves_keeps, keeps_state_get|intros me].
  apply preserves_bind; [apply preserves_keeps, fetch_values_keeps|intros values].
  apply preserves_bind; [apply preserves_keeps, fetch_image_url_keeps|intros image_url].
  apply preserves_bind; [apply preserves_keeps, keeps_state_emit|intros _].
  apply preserves_bind; [apply preserves_keeps, fetch_image_keeps|intros _].
  apply preserves_bind; [apply preserves_keeps, fetch_callback_keeps|intros _].
  apply preserves_bind; [|intros _; apply preserves_keeps, fetch_return_keeps].
  unfold Legacy.fetch_text.
  apply preserves_bind; [apply preserves_keeps, keeps_state_get|]. intros me'.
  destruct (some_nonempty _); [|apply preserves_keeps, keeps_state_ret].
  apply preserves_for_each. intros i. apply fill_text_layouts.
Qed.

(** X14: [set_text] on a text area that has a position and a font makes
    its label a prefix of the string of the value, of at most
    [text_maxlen] characters when that is positive, and leaves every other
    text area as it was. *)
Theorem set_text_label (val : pyval) (index : nat) (s s' : Legacy.PyPortal)
        (slot : Legacy.TextSlot) (tr : list Legacy.event) :
  Legacy._text_font s = true ->
  nth_error (Legacy.slots_of s) index = Some slot ->
  Legacy.text_position slot <> None ->
  Legacy.set_text env val index s = (Ok tt, s', tr) ->
  exists string,
    nth_error (Legacy.slots_of s') index = Some (Legacy.with_label slot string) /\
    string = firstn (length string) (Legacy.to_str env val) /\
    ((0 < Legacy.text_maxlen slot)%Z ->
     (Z.of_nat (length string) <= Legacy.text_maxlen slot)%Z) /\
    ((Legacy.text_maxlen slot = 0)%Z -> string = Legacy.to_str env val) /\
    (forall other, other <> index ->
       nth_error (Legacy.slots_of s') other = nth_error (Legacy.slots_of s) other) /\
    tr = [Legacy.EvSetText index string].
Proof.
  intros Hfont Hslot Hpos. unfold Legacy.set_text, bind, get_self. cbn.
  rewrite Hfont, Hslot.
  destruct (Legacy.text_position slot) as [pos|]; [|contradiction].
  set (string := if (Legacy.text_maxlen slot =? 0)%Z then Legacy.to_str env val
                 else slice_to (Legacy.to_str env val) (Legacy.text_maxlen slot)).
  intros H.
  assert (H' : (Ok tt,
                Legacy.with_text s
                  (Some (Legacy.replace_nth (Legacy.slots_of s) index
                                     (Legacy.with_label slot string))),
                [Legacy.EvSetText index string]) = (Ok tt, s', tr)).
  { rewrite <- H. destruct (Legacy.text_label slot); reflexivity. }
  injection H' as <- <-.
  exists string. cbn. repeat split.
  - apply (replace_nth_same _ _ _ _ Hslot).
  - unfold string. destruct (Legacy.text_maxlen slot =? 0)%Z.
    + rewrite firstn_all. reflexivity.
    + unfold slice_to. destruct (_ <? 0)%Z; symmetry; apply firstn_own_length.
  - intros Hmax. unfold string.
    destruct (Legacy.text_maxlen slot =? 0)%Z eqn:E; [apply Z.eqb_eq in E; lia|].
    apply slice_to_length, Hmax.
  - intros Hz. unfold string. rewrite Hz. reflexivity.
  - intros other Hother. apply replace_nth_other, Hother.
Qed.

Lemma getitem_out_of_range (values : pyval) (n : Z) (i : nat) :
  py_len values = Ok n -> (n <= Z.of_nat i)%Z ->
  exists e, getitem values (KInt (Z.of_nat i)) = Raise e.
Proof.
  intros Hlen Hn.
  assert (Hidx : forall len, (Z.of_nat len <= Z.of_nat i)%Z ->
                             seq_index len (Z.of_nat i) = None).
  { intros len Hle. unfold seq_index.
    destruct (0 <=? Z.of_nat i)%Z eqn:E0; [|apply Z.leb_gt in E0; lia].
    destruct (Z.of_nat i <? Z.of_nat len)%Z eqn:E1; [apply Z.ltb_lt in E1; lia|].
    reflexivity. }
  destruct values; cbn in Hlen; try discriminate; injection Hlen as <-; cbn [getitem].
  - rewrite (Hidx _ Hn). eauto.
  - rewrite (Hidx _ Hn). eauto.
  - eauto.
Qed.

Lemma for_each_reaches {A} (body : A -> Legacy.Run unit) (Inv : Legacy.PyPortal -> Prop)
      (l1 l2 : list A) (x : A) :
  (forall a s, Inv s -> Inv (final (body a s))) ->
  (forall s, Inv s -> exists e, outcome (body x s) = Raise e) ->
  forall s, Inv s -> exists e, outcome (for_each (l1 ++ x :: l2) body s) = Raise e.
Proof.
  intros Hstep Hx. induction l1 as [|a l1 IH]; intros s Hs;
    cbn [app for_each]; rewrite bind_outcome.
  - destruct (Hx s Hs) as [e ->]. eauto.
  - destruct (outcome (body a s)) as [[]|e] eqn:E; [|eauto].
    apply IH, Hstep, Hs.
Qed.

(** With fewer values than text areas, the loop over the text areas
    raises: at the latest where the values end. *)
Lemma fetch_text_raises (values : pyval) (n : Z) (s : Legacy.PyPortal) :
  some_nonempty (Legacy._text s) = true ->
  py_len values = Ok n ->
  (n < Z.of_nat (length (Legacy.slots_of s)))%Z ->
  exists e, outcome (Legacy.fetch_text env values s) = Raise e.
Proof.
  intros Htext Hlen Hn. unfold Legacy.fetch_text. rewrite bind_get_outcome, Htext.
  assert (H0 : (0 <= n)%Z) by (destruct values; cbn in Hlen; try discriminate;
                                injection Hlen as <-; lia).
  set (k := Z.to_nat n). set (N := length (Legacy.slots_of s)) in *.
  assert (Hseq : seq 0 N = seq 0 k ++ k :: seq (S k) (N - S k)).
  { replace N with (k + S (N - S k))%nat at 1 by lia.
    rewrite seq_app. reflexivity. }
  rewrite Hseq.
  apply (for_each_reaches _ (fun s' => layouts s' = layouts s)); [| |reflexivity].
  - intros a s' Hs'. rewrite fill_text_layouts. exact Hs'.
  - intros s' Hs'.
    assert (Hk : (k < length (Legacy.slots_of s'))%nat).
    { apply (f_equal (@length _)) in Hs'. unfold layouts in Hs'.
      rewrite !length_map in Hs'. rewrite Hs'. fold N. lia. }
    destruct (nth_error (Legacy.slots_of s') k) as [slot|] eqn:Hslot;
      [|apply nth_error_None in Hslot; lia].
    destruct (getitem_out_of_range values n k Hlen) as [e He]; [lia|].
    exists e. unfold Legacy.fill_text. rewrite bind_get_outcome, Hslot.
    rewrite bind_outcome.
    destruct (Legacy.text_transform slot); rewrite bind_outcome;
      unfold lift at 1, outcome at 1; cbn [fst]; rewrite He; reflexivity.
Qed.

(** X15: a call of [fetch] on an object with text areas returns only when
    the extraction gave at least as many values as there are text areas:
    with fewer values, as with one JSON path and two text areas, [fetch]
    raises. *)
Theorem fetch_fills_every_text_area (refresh_url : option str)
        (self self' : Legacy.PyPortal) (returned : pyval) (tr : list Legacy.event) :
  Legacy.fetch env refresh_url self = (Ok returned, self', tr) ->
  some_nonempty (Legacy._text self) = true ->
  let s1 := refreshed self refresh_url in
  exists r j values n,
    outcome (Legacy.fetch_response env s1) = Ok r /\
    outcome (Legacy.fetch_json r s1) = Ok j /\
    outcome (Legacy.fetch_values env r j s1) = Ok values /\
    py_len values = Ok n /\
    (Z.of_nat (length (Legacy.slots_of self)) <= n)%Z.
Proof.
  intros H Htext s1.
  apply (fetch_ok_steps env) in H
    as (r & j & values & u & Hr & Hj & Hv & _ & Ht & _ & Hret & _).
  fold s1 in Hr, Hj, Hv, Ht.
  assert (Hs1 : Legacy._text s1 = Legacy._text self)
    by (unfold s1, refreshed; destruct (some_nonempty refresh_url); reflexivity).
  destruct (py_len values) as [n|e] eqn:Hlen.
  - exists r, j, values, n. repeat split; auto.
    destruct (Z.le_gt_cases (Z.of_nat (length (Legacy.slots_of self))) n) as [Hle|Hgt];
      [exact Hle|exfalso].
    destruct (fetch_text_raises values n s1) as [e He]; auto.
    + rewrite Hs1. exact Htext.
    + unfold Legacy.slots_of. rewrite Hs1. exact Hgt.
    + rewrite He in Ht. discriminate.
  - exfalso. unfold Legacy.fetch_return in Hret. rewrite bind_outcome in Hret.
    unfold lift at 1, outcome at 1 in Hret. cbn [fst] in Hret. rewrite Hlen in Hret.
    discriminate.
Qed.
End LegacyText.

Lemma set_text_label_witness :
  let val := PStr (lit "abcdef") in
  let s' := final (Legacy.set_text price_env val 1 text_portal) in
  let slot := text_area (10, 60)%Z 3 in
  exists string,
    nth_error (Legacy.slots_of s') 1 = Some (Legacy.with_label slot string) /\
    string = firstn (length string) (Legacy.to_str price_env val) /\
    ((0 < Legacy.text_maxlen slot)%Z ->
     (Z.of_nat (length string) <= Legacy.text_maxlen slot)%Z) /\
    ((Legacy.text_maxlen slot = 0)%Z -> string = Legacy.to_str price_env val) /\
    (forall other, other <> 1%nat ->
       nth_error (Legacy.slots_of s') other
       = nth_error (Legacy.slots_of text_portal) other) /\
    trace (Legacy.set_text price_env val 1 text_portal) = [Legacy.EvSetText 1 string].
Proof.
  intros val s' slot.
  apply (set_text_label price_env val 1 text_portal s' slot).
  - reflexivity.
  - reflexivity.
  - discriminate.
  - reflexivity.
Defined.

Lemma fetch_fills_every_text_area_witness :
  exists r j values n,
    outcome (Legacy.fetch_response price_env text_portal) = Ok r /\
    outcome (Legacy.fetch_json r text_portal) = Ok j /\
    outcome (Legacy.fetch_values price_env r j text_portal) = Ok values /\
    py_len values = Ok n /\
    (2 <= n)%Z.
Proof.
  apply (fetch_fills_every_text_area price_env None text_portal
           (final (Legacy.fetch price_env None text_portal))
           (PList [PInt 5; PDict [(lit "usd", PInt 5)]])
           (trace (Legacy.fetch price_env None text_portal))).
  - reflexivity.
  - reflexivity.
Defined.

(** ** The package: content types, card and speaker *)

Lemma package_fetch_returns_witness :
  exists response content,
    Package.network_fetch price_helpers (Package.url package_portal) 10 = Ok response /\
    Package.check_response price_helpers response = Ok content /\
    match content with
    | Package.CONTENT_JSON =>
        exists j,
          json response = Ok j /\
          Package.process_json price_helpers j
            (option_map Package.wrap_json_path (Package._json_path package_portal))
          = Ok (PList [PInt 5])
    | Package.CONTENT_TEXT =>
        Package.process_text price_helpers (text response)
          (Package._regexp_path package_portal)
        = Ok (PList [PInt 5])
    | Package.CONTENT_OTHER => False
    end.
Proof.
  apply (package_fetch_returns price_helpers None 10 package_portal
           (final (Package.fetch price_helpers None 10 package_portal))
           (PList [PInt 5])
           (trace (Package.fetch price_helpers None 10 package_portal))).
  reflexivity.
Defined.

(** X17: when the content of the answer is neither JSON nor text and the
    image step finds no image, the package's [fetch] raises
    [UnboundLocalError], for [values] that was never assigned: the callback
    is not called and no text label is filled. *)
Theorem package_fetch_other_content (h : Package.Helpers) (refresh_url : option str)
        (timeout : Z) (self : Package.PyPortal) (r : response) (filename : pyval) :
  let stored := if some_nonempty refresh_url then refresh_url else Package.url self in
  let sd := Package.sd_check (Package.peripherals self) in
  Package.network_fetch h stored timeout = Ok r ->
  Package.check_response h r = Ok Package.CONTENT_OTHER ->
  Package.process_image h PNone sd = Ok (filename, None) ->
  outcome (Package.fetch h refresh_url timeout self) = Raise UnboundLocalError /\
  trace (Package.fetch h refresh_url timeout self)
  = [Package.EvNetworkFetch stored timeout; Package.EvCheckResponse;
     Package.EvProcessImage sd].
Proof.
  intros stored sd Hr Hc Hi.
  unfold Package.fetch, bind, get_self, put_self, emit, lift, ret, try_except,
    outcome, trace.
  destruct (some_nonempty refresh_url); cbn in *; subst stored sd;
    rewrite Hr, Hc; cbn; rewrite Hi; cbn;
    destruct (truthy filename); split; reflexivity.
Qed.

Lemma package_fetch_other_content_witness :
  outcome (Package.fetch
             {| Package.network_fetch := Package.network_fetch price_helpers;
                Package.check_response := fun _ => Ok Package.CONTENT_OTHER;
                Package.process_image := fun _ _ => Ok (PNone, None);
                Package.process_json := Package.process_json price_helpers;
                Package.process_text := Package.process_text price_helpers;
                Package.graphics_set_background :=
                  Package.graphics_set_background price_helpers;
                Package._fill_text_labels := Package._fill_text_labels price_helpers |}
             None 10 package_portal) = Raise UnboundLocalError.
Proof.
  refine (proj1 (package_fetch_other_content _ None 10 package_portal price_response
                   PNone _ _ _)); reflexivity.
Defined.

Lemma sd_check_after_init_witness :
  Package.sd_check
    (final (Package.Peripherals_init unformatted_card {| Package._sdcard := None |}))
  = true <-> Package.sdcard_new unformatted_card = Ok tt.
Proof.
  apply (sd_check_after_init unformatted_card {| Package._sdcard := None |}).
  - left. reflexivity.
  - reflexivity.
Defined.

(** X19: on a board with neither [AUDIO_OUT] nor [SPEAKER], the constructor
    of [Peripherals] raises [AttributeError] once the speaker is switched
    off, before the card is looked for: [_sdcard] is not set. *)
Theorem peripherals_need_speaker (board : Package.Board) (blank : Package.Peripherals) :
  Package.has_audio_out board = false ->
  Package.has_speaker board = false ->
  Package.Peripherals_init board blank
  = (Raise AttributeError, blank, [Package.EvSpeakerOff]).
Proof.
  intros Ha Hs. unfold Package.Peripherals_init. rewrite Ha, Hs. reflexivity.
Qed.

Lemma peripherals_need_speaker_witness :
  Package.Peripherals_init
    {| Package.has_audio_out := false;
       Package.has_speaker := false;
       Package.sdcard_new := Ok tt;
       Package.vfs_new := Ok tt;
       Package.mount := Ok tt |}
    {| Package._sdcard := None |}
  = (Raise AttributeError, {| Package._sdcard := None |}, [Package.EvSpeakerOff]).
Proof.
  apply peripherals_need_speaker; reflexivity.
Defined.

(** ** The connection to the access point *)

Section LinkFacts.
Variable env : Link.Env.

Let red : list Link.event :=
  if Link.neopix env then [Link.EvNeoFill (100, 0, 0)%Z] else [].

Lemma neo_status_link (value : Z * Z * Z) (s : unit) :
  Link.neo_status env value s
  = (Ok tt, s, if Link.neopix env then [Link.EvNeoFill value] else []).
Proof. unfold Link.neo_status. destruct (Link.neopix env); reflexivity. Qed.

(** A round whose attempt is retried is followed by the next round. *)
Lemma connect_loop_retried (fuel n : nat) :
  Link.is_connected env n = false -> ssid_set env ->
  retried (Link.connect env n) ->
  Link.connect_loop env (S fuel) n tt
  = let '(r, s, tr) := Link.connect_loop env fuel (S n) tt in
    (r, s, round_events env n ++ tr).
Proof.
  intros Hdown (name & Hname & Hset) Hretry. cbn [Link.connect_loop].
  rewrite Hdown, Hname, Hset. unfold bind, emit. rewrite neo_status_link.
  unfold round_events.
  destruct Hretry as [-> | ->];
    destruct (Link.connect_loop env fuel (S n) tt) as [[r s] tr];
    cbn; rewrite <- ?app_assoc; reflexivity.
Qed.

(** A round whose attempt raises another exception ends the loop. *)
Lemma connect_loop_raised (fuel n : nat) (e : exn) :
  Link.is_connected env n = false -> ssid_set env ->
  Link.connect env n = Raise e -> e <> RuntimeError ->
  Link.connect_loop env (S fuel) n tt = (Raise e, tt, red ++ [Link.EvConnect]).
Proof.
  intros Hdown (name & Hname & Hset) He Hne. cbn [Link.connect_loop].
  rewrite Hdown, Hname, Hset. unfold bind, emit. rewrite neo_status_link, He.
  unfold red. destruct e; try reflexivity. congruence.
Qed.

Lemma comes_up_next (n k : nat) : comes_up env n (S k) -> comes_up env (S n) k.
Proof.
  intros [Hup Hdown]. split.
  - rewrite Nat.add_succ_r in Hup. exact Hup.
  - intros i Hi. specialize (Hdown (S i)). rewrite Nat.add_succ_r in Hdown.
    apply Hdown. lia.
Qed.

(** Enough rounds for a link that comes up: the loop returns. *)
Lemma connect_loop_up (k n fuel : nat) :
  comes_up env n k -> k = 0%nat \/ ssid_set env -> (k < fuel)%nat ->
  Link.connect_loop env fuel n tt
  = (Ok (Some tt), tt, concat (map (round_events env) (seq n k))).
Proof.
  revert n fuel. induction k as [|k IH]; intros n fuel Hup Hssid Hfuel;
    (destruct fuel as [|fuel]; [lia|]).
  - destruct Hup as [Hup _]. rewrite Nat.add_0_r in Hup.
    cbn [Link.connect_loop]. rewrite Hup. reflexivity.
  - destruct Hssid as [H|Hssid]; [discriminate|].
    destruct (proj2 Hup 0%nat) as [Hdown Hretry]; [lia|].
    rewrite Nat.add_0_r in Hdown, Hretry.
    rewrite (connect_loop_retried fuel n Hdown Hssid Hretry).
    rewrite (IH (S n) fuel (comes_up_next n k Hup) (or_intror Hssid)) by lia.
    reflexivity.
Qed.

(** A loop that returns has read the link up. *)
Lemma connect_loop_returns (fuel n : nat) :
  outcome (Link.connect_loop env fuel n tt) = Ok (Some tt) ->
  exists k, (k < fuel)%nat /\ comes_up env n k /\ (k = 0%nat \/ ssid_set env).
Proof.
  revert n. induction fuel as [|fuel IH]; intros n H; [discriminate|].
  destruct (Link.is_connected env n) eqn:Hlink.
  - exists 0%nat. split; [lia|]. split; [|left; reflexivity].
    split; [rewrite Nat.add_0_r; exact Hlink|]. intros i Hi. lia.
  - assert (Hssid : ssid_set env).
    { cbn [Link.connect_loop] in H. rewrite Hlink in H.
      destruct (Link.ssid env) as [name|] eqn:Hname; [|discriminate].
      destruct (str_eqb name (lit "CHANGE ME")) eqn:Hset; [discriminate|].
      exists name. auto. }
    assert (Hretry : retried (Link.connect env n)).
    { destruct (Link.connect env n) as [[]|e] eqn:He; [left; reflexivity|].
      destruct e; try (right; reflexivity);
        rewrite (connect_loop_raised fuel n _ Hlink Hssid He) in H by discriminate;
        discriminate. }
    rewrite (connect_loop_retried fuel n Hlink Hssid Hretry) in H.
    destruct (Link.connect_loop env fuel (S n) tt) as [[r s] tr] eqn:Hrest.
    cbn in H. destruct (IH (S n)) as (k & Hk & [Hup Hdown] & _).
    { rewrite Hrest. exact H. }
    exists (S k). split; [lia|]. split; [|right; exact Hssid]. split.
    + rewrite Nat.add_succ_r. exact Hup.
    + intros [|i] Hi.
      * rewrite Nat.add_0_r. auto.
      * rewrite Nat.add_succ_r. apply Hdown. lia.
Qed.

(** A loop that is still running has read the link down at each round. *)
Lemma connect_loop_running (fuel n : nat) :
  outcome (Link.connect_loop env fuel n tt) = Ok None ->
  forall i, (i < fuel)%nat -> Link.is_connected env (n + i) = false.
Proof.
  revert n. induction fuel as [|fuel IH]; intros n H i Hi; [lia|].
  destruct (Link.is_connected env n) eqn:Hlink.
  - cbn [Link.connect_loop] in H. rewrite Hlink in H. discriminate.
  - assert (Hssid : ssid_set env).
    { cbn [Link.connect_loop] in H. rewrite Hlink in H.
      destruct (Link.ssid env) as [name|] eqn:Hname; [|discriminate].
      destruct (str_eqb name (lit "CHANGE ME")) eqn:Hset; [discriminate|].
      exists name. auto. }
    assert (Hretry : retried (Link.connect env n)).
    { destruct (Link.connect env n) as [[]|e] eqn:He; [left; reflexivity|].
      destruct e; try (right; reflexivity);
        rewrite (connect_loop_raised fuel n _ Hlink Hssid He) in H by discriminate;
        discriminate. }
    rewrite (connect_loop_retried fuel n Hlink Hssid Hretry) in H.
    destruct (Link.connect_loop env fuel (S n) tt) as [[r s] tr] eqn:Hrest.
    cbn in H. destruct i as [|i]; [rewrite Nat.add_0_r; exact Hlink|].
    rewrite Nat.add_succ_r. apply (IH (S n)); [rewrite Hrest; exact H|lia].
Qed.

(** An exception of [connect] other than [RuntimeError] ends the loop. *)
Lemma connect_loop_raises (k n fuel : nat) (e : exn) :
  (k < fuel)%nat ->
  (forall i, (i <= k)%nat -> Link.is_connected env (n + i) = false) ->
  (forall i, (i < k)%nat -> retried (Link.connect env (n + i))) ->
  ssid_set env ->
  Link.connect env (n + k) = Raise e -> e <> RuntimeError ->
  outcome (Link.connect_loop env fuel n tt) = Raise e.
Proof.
  revert n fuel. induction k as [|k IH]; intros n fuel Hfuel Hdown Hretry Hssid He Hne;
    (destruct fuel as [|fuel]; [lia|]);
    pose proof (Hdown 0%nat (Nat.le_0_l _)) as H0; rewrite Nat.add_0_r in H0.
  - rewrite Nat.add_0_r in He.
    rewrite (connect_loop_raised fuel n e H0 Hssid He Hne). reflexivity.
  - pose proof (Hretry 0%nat (Nat.lt_0_succ _)) as Hr. rewrite Nat.add_0_r in Hr.
    rewrite (connect_loop_retried fuel n H0 Hssid Hr).
    specialize (IH (S n) fuel).
    destruct (Link.connect_loop env fuel (S n) tt) as [[r s] tr]. cbn in *.
    apply IH; try assumption.
    + lia.
    + intros i Hi. rewrite <- Nat.add_succ_r. apply Hdown. lia.
    + intros i Hi. rewrite <- Nat.add_succ_r. apply Hretry. lia.
    + rewrite <- Nat.add_succ_r. exact He.
Qed.

(** X20: [_connect_esp], followed for [fuel] rounds of its loop, each with
    one read of the link and one attempt.  When the link is read up at
    round [k] for the first time, after attempts that returned or raised
    [RuntimeError], and [k] rounds are within [fuel], the call returns,
    having made [k] attempts and slept three seconds after each that
    raised; and a call that returns is of this kind.  A call that still
    runs has read the link down at every round.  With the link down and
    the placeholder as SSID it raises [OSError] before any attempt, and an
    exception of [connect] other than [RuntimeError] is raised on. *)
Theorem connect_esp_rounds (fuel : nat) :
  let run := Link._connect_esp env fuel tt in
  let blue := if Link.neopix env then [Link.EvNeoFill (0, 0, 100)%Z] else [] in
  (forall k, comes_up env 0 k -> k = 0%nat \/ ssid_set env -> (k < fuel)%nat ->
     outcome run = Ok (Some tt) /\
     trace run = blue ++ concat (map (round_events env) (seq 0 k))) /\
  (outcome run = Ok (Some tt) ->
     exists k, (k < fuel)%nat /\ comes_up env 0 k /\ (k = 0%nat \/ ssid_set env)) /\
  (outcome run = Ok None ->
     forall i, (i < fuel)%nat -> Link.is_connected env i = false) /\
  ((0 < fuel)%nat -> Link.is_connected env 0 = false ->
   Link.ssid env = Some (lit "CHANGE ME") ->
     outcome run = Raise OSError /\ trace run = blue) /\
  (forall k e, (k < fuel)%nat ->
     (forall i, (i <= k)%nat -> Link.is_connected env i = false) ->
     (forall i, (i < k)%nat -> retried (Link.connect env i)) ->
     ssid_set env ->
     Link.connect env k = Raise e -> e <> RuntimeError ->
     outcome run = Raise e).
Proof.
  intros run blue.
  assert (Hrun : run = let '(r, s, tr) := Link.connect_loop env fuel 0 tt in
                       (r, s, blue ++ tr)).
  { subst run. unfold Link._connect_esp, bind. rewrite neo_status_link.
    destruct (Link.connect_loop env fuel 0 tt) as [[r s] tr]. reflexivity. }
  assert (Hout : outcome run = outcome (Link.connect_loop env fuel 0 tt)).
  { rewrite Hrun. destruct (Link.connect_loop env fuel 0 tt) as [[r s] tr]. reflexivity. }
  split; [|split; [|split; [|split]]].
  - intros k Hup Hssid Hk. rewrite Hrun, (connect_loop_up k 0 fuel Hup Hssid Hk).
    split; reflexivity.
  - rewrite Hout. apply connect_loop_returns.
  - rewrite Hout. intros H i Hi. exact (connect_loop_running fuel 0 H i Hi).
  - intros Hfuel Hdown Hname. rewrite Hrun. destruct fuel as [|fuel]; [lia|].
    cbn [Link.connect_loop]. rewrite Hdown, Hname. cbn. rewrite app_nil_r. auto.
  - intros k e Hk Hdown Hretry Hssid He Hne. rewrite Hout.
    apply (connect_loop_raises k 0 fuel e); auto.
Qed.
End LinkFacts.

Lemma connect_esp_rounds_witness :
  let run := Link._connect_esp third_read 5 tt in
  outcome run = Ok (Some tt) /\
  trace run
  = [Link.EvNeoFill (0, 0, 100)%Z;
     Link.EvNeoFill (100, 0, 0)%Z; Link.EvConnect; Link.EvSleep 3;
     Link.EvNeoFill (100, 0, 0)%Z; Link.EvConnect].
Proof.
  apply (proj1 (connect_esp_rounds third_read 5) 2%nat).
  - split; [reflexivity|]. intros [|[|i]] Hi; [| |lia]; split;
      first [reflexivity | right; reflexivity | left; reflexivity].
  - right. exists (lit "home"). split; reflexivity.
  - lia.
Defined.

(** [Legacy.connect_loop n], the loop that [fetch] is read with, is this
    loop in the world where [connect] raises [RuntimeError] [n] times and
    then returns with the link up: it makes the same attempts and sleeps. *)
Lemma legacy_connect_loop_rounds (d m fuel : nat) (s : Legacy.PyPortal) :
  (d + 1 < fuel)%nat ->
  let run := Link.connect_loop (fails_then_up (m + d)) fuel m tt in
  outcome run = Ok (Some tt) /\
  flat_map as_legacy (trace run) = trace (Legacy.connect_loop d s).
Proof.
  revert m fuel. induction d as [|d IH]; intros m fuel Hfuel run; subst run.
  - destruct fuel as [|[|fuel]]; try lia. rewrite Nat.add_0_r.
    cbn [Link.connect_loop fails_then_up Link.is_connected Link.connect Link.ssid].
    rewrite Nat.ltb_irrefl.
    assert (Hup : (m <? S m)%nat = true) by (apply Nat.ltb_lt; lia).
    rewrite Hup. split; reflexivity.
  - destruct fuel as [|fuel]; [lia|].
    assert (Hdown : Link.is_connected (fails_then_up (m + S d)) m = false)
      by (cbn; apply Nat.ltb_ge; lia).
    assert (Hfail : Link.connect (fails_then_up (m + S d)) m = Raise RuntimeError).
    { unfold fails_then_up. cbn [Link.connect].
      destruct (Nat.ltb_spec m (m + S d)); [reflexivity|lia]. }
    assert (Hssid : ssid_set (fails_then_up (m + S d)))
      by (exists (lit "home"); split; reflexivity).
    rewrite (connect_loop_retried _ fuel m Hdown Hssid (or_intror Hfail)).
    specialize (IH (S m) fuel). cbn zeta in IH.
    replace (S m + d)%nat with (m + S d)%nat in IH by lia.
    destruct IH as [Hout Htrace]; [lia|].
    destruct (Link.connect_loop (fails_then_up (m + S d)) fuel (S m) tt) as [[r u] tr].
    cbn [outcome trace fst snd] in *. split; [exact Hout|].
    unfold round_events. rewrite Hfail. cbn [fails_then_up Link.neopix app].
    cbn [flat_map as_legacy app]. rewrite Htrace.
    cbn [Legacy.connect_loop]. unfold bind, emit, trace.
    destruct (Legacy.connect_loop d s) as [[r' s'] tr']. reflexivity.
Qed.

(** ** The download of [wget] *)

Lemma str_eqb_refl (a : str) : str_eqb a a = true.
Proof.
  induction a as [|c a IH]; [reflexivity|].
  cbn. rewrite Ascii.eqb_refl. exact IH.
Qed.

Lemma total_app (l1 l2 : list Download.bytes) :
  total (l1 ++ l2) = (total l1 + total l2)%Z.
Proof. unfold total. rewrite concat_app, length_app. lia. Qed.

Lemma total_cons (i : Download.bytes) (l : list Download.bytes) :
  total (i :: l) = (Z.of_nat (length i) + total l)%Z.
Proof. unfold total. cbn [concat]. rewrite length_app. lia. Qed.

Lemma total_nonneg (l : list Download.bytes) : (0 <= total l)%Z.
Proof. unfold total. lia. Qed.

Lemma taken_le (chunks : list Download.bytes) (remaining : Z) :
  (taken chunks remaining <= length chunks)%nat.
Proof.
  revert remaining. induction chunks as [|i chunks IH]; intros remaining; cbn.
  - lia.
  - destruct (_ =? 0)%Z; [lia|]. specialize (IH (remaining - Z.of_nat (length i))%Z). lia.
Qed.

(** The loop stops before the end of the stream only at a chunk that
    completes the announced length. *)
Lemma taken_early (chunks : list Download.bytes) (remaining : Z) :
  (taken chunks remaining < length chunks)%nat ->
  (0 < taken chunks remaining)%nat /\
  total (firstn (taken chunks remaining) chunks) = remaining.
Proof.
  revert remaining. induction chunks as [|i chunks IH]; intros remaining; cbn [taken length].
  - lia.
  - destruct (_ =? 0)%Z eqn:E.
    + intros _. apply Z.eqb_eq in E. split; [lia|].
      cbn [firstn]. rewrite total_cons. unfold total. cbn. lia.
    + intros H. split; [lia|]. cbn [firstn]. rewrite total_cons.
      destruct (IH (remaining - Z.of_nat (length i))%Z) as [_ Ht]; [lia|].
      rewrite Ht. lia.
Qed.

(** It does not go on after such a chunk. *)
Lemma taken_first (chunks : list Download.bytes) (remaining : Z) (j : nat) :
  (0 < j < taken chunks remaining)%nat ->
  total (firstn j chunks) <> remaining.
Proof.
  revert remaining j. induction chunks as [|i chunks IH]; intros remaining j; cbn [taken].
  - lia.
  - destruct (_ =? 0)%Z eqn:E; [lia|]. apply Z.eqb_neq in E.
    intros Hj. destruct j as [|j]; [lia|]. cbn [firstn]. rewrite total_cons.
    destruct j as [|j].
    + cbn [firstn]. unfold total. cbn. lia.
    + specialize (IH (remaining - Z.of_nat (length i))%Z (S j)).
      assert (total (firstn (S j) chunks) <> (remaining - Z.of_nat (length i))%Z)
        by (apply IH; lia).
      lia.
Qed.

Section Wget.
Variable env : Download.Env.
Variable filename : str.

Lemma content_store (s : Download.Device) (data : Download.bytes) :
  Download.content (Download.store s filename data) filename = data.
Proof. unfold Download.content, Download.store. cbn. rewrite str_eqb_refl. reflexivity. Qed.

Lemma neo_status_run (value : Z * Z * Z) (s : Download.Device) :
  outcome (Download.neo_status value s) = Ok tt /\
  final (Download.neo_status value s) = s.
Proof.
  unfold Download.neo_status, bind, get_self, emit, ret, outcome, final.
  destruct (Download.neopix s); auto.
Qed.

(** The loop writes the chunks that it reads, one after the other, behind
    what the file holds, and touches no other file. *)
Lemma write_chunks_run (chunks : list Download.bytes) (remaining : Z)
      (s : Download.Device) :
  let run := Download.write_chunks filename chunks remaining s in
  outcome run = Ok tt /\
  Download.neopix (final run) = Download.neopix s /\
  (chunks <> [] ->
   Download.files (final run) filename
   = Some (Download.content s filename
           ++ concat (firstn (taken chunks remaining) chunks))) /\
  Download.content (final run) filename
  = Download.content s filename ++ concat (firstn (taken chunks remaining) chunks) /\
  (forall other, str_eqb other filename = false ->
     Download.files (final run) other = Download.files s other).
Proof.
  revert remaining s. induction chunks as [|i chunks IH]; intros remaining s run.
  - subst run. cbn. rewrite app_nil_r. repeat split; auto. congruence.
  - subst run. cbn [Download.write_chunks taken].
    rewrite bind_outcome, bind_final.
    destruct (neo_status_run (0, 100, 100)%Z s) as [-> ->].
    rewrite bind_outcome, bind_final.
    set (s1 := Download.store s filename (Download.content s filename ++ i)).
    assert (Hw : Download.write filename i s = (Ok tt, s1, [Download.EvWrite i]))
      by reflexivity.
    rewrite Hw. cbn [outcome final fst snd].
    assert (Hs1 : Download.content s1 filename = Download.content s filename ++ i)
      by apply content_store.
    assert (Hf1 : Download.files s1 filename = Some (Download.content s filename ++ i)).
    { unfold s1, Download.store. cbn. rewrite str_eqb_refl. reflexivity. }
    assert (Ho1 : forall other, str_eqb other filename = false ->
                                Download.files s1 other = Download.files s other).
    { intros other H. unfold s1, Download.store. cbn. rewrite H. reflexivity. }
    destruct (_ =? 0)%Z.
    + cbn. rewrite app_nil_r. repeat split; auto.
    + rewrite bind_outcome, bind_final.
      destruct (neo_status_run (100, 100, 0)%Z s1) as [-> ->].
      specialize (IH (remaining - Z.of_nat (length i))%Z s1).
      cbn zeta in IH. destruct IH as (Ho & Hn & Hf & Hc & Hother).
      cbn [firstn concat]. rewrite app_assoc, <- Hs1.
      repeat split; auto.
      * intros _. destruct chunks as [|i' chunks'].
        -- cbn. rewrite app_nil_r, Hs1. exact Hf1.
        -- apply Hf. discriminate.
      * intros other H. rewrite Hother, Ho1; auto.
Qed.

(** A call of [wget] whose request, header and file are there. *)
Lemma wget_run (url : str) (chunk_size n : Z) (s : Download.Device) :
  Download.requests_get env url = Ok tt ->
  Download.content_length env = Ok n ->
  Download.open_wb env filename = Ok tt ->
  let chunks := Download.iter_content env (Z.min n chunk_size) in
  let data := concat (firstn (taken chunks n) chunks) in
  let run := Download.wget env url filename chunk_size s in
  Download.files (final run) filename = Some data /\
  (forall other, str_eqb other filename = false ->
     Download.files (final run) other = Download.files s other) /\
  outcome run = if (n =? Z.of_nat (length data))%Z then Ok tt else Raise RuntimeError.
Proof.
  intros Hget Hlen Hopen chunks data run.
  set (s0 := Download.store s filename []).
  destruct (write_chunks_run chunks n s0) as (Ho & Hn & Hf & Hc & Hother).
  pose proof (content_store s []) as Hs0. fold s0 in Hs0.
  rewrite Hs0 in Hf, Hc. cbn [app] in Hf, Hc. fold data in Hf, Hc.
  assert (Hfile : Download.files
                    (final (Download.write_chunks filename chunks n s0)) filename
                  = Some data).
  { destruct chunks as [|i chunks'] eqn:E; [|apply Hf; discriminate].
    cbn. rewrite str_eqb_refl. reflexivity. }
  assert (Hothers : forall other, str_eqb other filename = false ->
            Download.files (final (Download.write_chunks filename chunks n s0)) other
            = Download.files s other).
  { intros other H. rewrite Hother by exact H. unfold s0, Download.store. cbn.
    rewrite H. reflexivity. }
  clear Hf Hother.
  remember run as w eqn:Hw. unfold run, Download.wget in Hw.
  unfold bind, emit, lift, get_self, put_self in Hw.
  pose proof (neo_status_run (100, 100, 0)%Z s) as [Hs Hs'].
  destruct (Download.neo_status (100, 100, 0)%Z s) as [[o s'] tr0].
  cbn [outcome final fst snd] in Hs, Hs'. subst o s'.
  rewrite Hget, Hlen, Hopen in Hw. fold s0 in Hw. fold chunks in Hw.
  destruct (Download.write_chunks filename chunks n s0) as [[o s1] tr1].
  cbn [outcome final fst snd] in *. subst o.
  pose proof (neo_status_run (0, 0, 0)%Z s1) as [Hs Hs'].
  destruct (Download.neo_status (0, 0, 0)%Z s1) as [[o s2] tr2].
  cbn [outcome final fst snd] in Hs, Hs'. subst o s2.
  unfold Download.size in Hw. rewrite Hc in Hw.
  destruct (n =? Z.of_nat (length data))%Z; subst w; cbn; auto.
Qed.

(** X21: a call of [wget] whose request, header and file are there leaves
    in the file the first [k] chunks of the stream: all of them, or those
    up to the first chunk at which the bytes read are exactly the announced
    length; it returns when the file has the announced length and raises
    [RuntimeError] otherwise; no other file is touched. *)
Theorem wget_writes_prefix (url : str) (chunk_size n : Z) (s : Download.Device) :
  Download.requests_get env url = Ok tt ->
  Download.content_length env = Ok n ->
  Download.open_wb env filename = Ok tt ->
  let chunks := Download.iter_content env (Z.min n chunk_size) in
  let run := Download.wget env url filename chunk_size s in
  exists k,
    (k <= length chunks)%nat /\
    Download.files (final run) filename = Some (concat (firstn k chunks)) /\
    ((k < length chunks)%nat -> (0 < k)%nat /\ total (firstn k chunks) = n) /\
    (forall j, (0 < j < k)%nat -> total (firstn j chunks) <> n) /\
    (outcome run = Ok tt <-> total (firstn k chunks) = n) /\
    (total (firstn k chunks) <> n -> outcome run = Raise RuntimeError) /\
    (forall other, str_eqb other filename = false ->
       Download.files (final run) other = Download.files s other).
Proof.
  intros Hget Hlen Hopen chunks run.
  destruct (wget_run url chunk_size n s Hget Hlen Hopen) as (Hf & Hother & Ho).
  fold chunks in Hf, Ho. fold run in Hf, Hother, Ho.
  exists (taken chunks n). split; [apply taken_le|].
  split; [exact Hf|]. split; [apply taken_early|].
  split; [intros j; apply taken_first|].
  fold (total (firstn (taken chunks n) chunks)) in Ho.
  destruct (n =? total (firstn (taken chunks n) chunks))%Z eqn:E.
  - apply Z.eqb_eq in E. repeat split; auto; congruence.
  - apply Z.eqb_neq in E. repeat split; auto; congruence.
Qed.

(** X22: when the stream holds as many bytes as the header announces,
    [wget] returns and the file holds the whole stream. *)
Theorem wget_complete (url : str) (chunk_size n : Z) (s : Download.Device) :
  Download.requests_get env url = Ok tt ->
  Download.content_length env = Ok n ->
  Download.open_wb env filename = Ok tt ->
  let chunks := Download.iter_content env (Z.min n chunk_size) in
  let run := Download.wget env url filename chunk_size s in
  total chunks = n ->
  outcome run = Ok tt /\ Download.files (final run) filename = Some (concat chunks).
Proof.
  intros Hget Hlen Hopen chunks run Htotal.
  destruct (wget_run url chunk_size n s Hget Hlen Hopen) as (Hf & _ & Ho).
  fold chunks in Hf, Ho. fold run in Hf, Ho.
  assert (Hdata : concat (firstn (taken chunks n) chunks) = concat chunks).
  { destruct (Nat.lt_ge_cases (taken chunks n) (length chunks)) as [Hlt|Hge].
    - destruct (taken_early chunks n Hlt) as [_ Hk].
      rewrite <- (firstn_skipn (taken chunks n) chunks) in Htotal at 1.
      rewrite total_app in Htotal.
      assert (Hrest : concat (skipn (taken chunks n) chunks) = []).
      { apply length_zero_iff_nil. unfold total in *. lia. }
      transitivity (concat (firstn (taken chunks n) chunks
                            ++ skipn (taken chunks n) chunks));
        [|rewrite firstn_skipn; reflexivity].
      rewrite concat_app, Hrest, app_nil_r. reflexivity.
    - rewrite firstn_all2 by exact Hge. reflexivity. }
  rewrite Hdata in Hf, Ho. split; [|exact Hf].
  rewrite Ho. unfold total in Htotal. rewrite Htotal, Z.eqb_refl. reflexivity.
Qed.

(** X23: when the stream ends before the announced length, [wget] raises
    [RuntimeError], and the file holds what was received. *)
Theorem wget_incomplete (url : str) (chunk_size n : Z) (s : Download.Device) :
  Download.requests_get env url = Ok tt ->
  Download.content_length env = Ok n ->
  Download.open_wb env filename = Ok tt ->
  let chunks := Download.iter_content env (Z.min n chunk_size) in
  let run := Download.wget env url filename chunk_size s in
  (total chunks < n)%Z ->
  outcome run = Raise RuntimeError /\
  Download.files (final run) filename = Some (concat chunks).
Proof.
  intros Hget Hlen Hopen chunks run Htotal.
  destruct (wget_run url chunk_size n s Hget Hlen Hopen) as (Hf & _ & Ho).
  fold chunks in Hf, Ho. fold run in Hf, Ho.
  assert (Hall : firstn (taken chunks n) chunks = chunks).
  { destruct (Nat.lt_ge_cases (taken chunks n) (length chunks)) as [Hlt|Hge];
      [|apply firstn_all2, Hge].
    destruct (taken_early chunks n Hlt) as [_ Hk]. exfalso.
    rewrite <- (firstn_skipn (taken chunks n) chunks) in Htotal.
    rewrite total_app in Htotal.
    pose proof (total_nonneg (skipn (taken chunks n) chunks)). lia. }
  rewrite Hall in Hf, Ho. split; [|exact Hf].
  rewrite Ho. fold (total chunks).
  destruct (n =? total chunks)%Z eqn:E; [apply Z.eqb_eq in E; lia|reflexivity].
Qed.

(** X24: when the request, the header or the opening of the file fails,
    [wget] raises that exception and leaves every file as it was. *)
Theorem wget_fails_early (url : str) (chunk_size : Z) (s : Download.Device) (e : exn) :
  Download.requests_get env url = Raise e \/
  (Download.requests_get env url = Ok tt /\
   (Download.content_length env = Raise e \/
    (exists n, Download.content_length env = Ok n) /\
    Download.open_wb env filename = Raise e)) ->
  let run := Download.wget env url filename chunk_size s in
  outcome run = Raise e /\ Download.files (final run) = Download.files s.
Proof.
  intros H run. subst run. unfold Download.wget.
  rewrite bind_outcome, bind_final.
  destruct (neo_status_run (100, 100, 0)%Z s) as [-> ->].
  unfold bind, emit, lift, outcome, final.
  destruct H as [-> | [-> [-> | [[n ->] ->]]]]; cbn; auto.
Qed.
End Wget.

Lemma wget_writes_prefix_witness :
  let run := Download.wget (four_bytes 2%Z) (lit "http://x/a.bmp") (lit "/cache.bmp")
               12000%Z blank_device in
  exists k,
    (k <= 2)%nat /\
    Download.files (final run) (lit "/cache.bmp")
    = Some (concat (firstn k [[Byte.x42; Byte.x4d]; [Byte.x00; Byte.x01]])) /\
    ((k < 2)%nat ->
     (0 < k)%nat /\ total (firstn k [[Byte.x42; Byte.x4d]; [Byte.x00; Byte.x01]]) = 2%Z).
Proof.
  intros run.
  destruct (wget_writes_prefix (four_bytes 2%Z) (lit "/cache.bmp") (lit "http://x/a.bmp")
              12000%Z 2%Z blank_device eq_refl eq_refl eq_refl)
    as (k & Hk & Hf & Hearly & _).
  exists k. split; [exact Hk|]. split; [exact Hf|exact Hearly].
Defined.

Lemma wget_complete_witness :
  let run := Download.wget (four_bytes 4%Z) (lit "http://x/a.bmp") (lit "/cache.bmp")
               12000%Z blank_device in
  outcome run = Ok tt /\
  Download.files (final run) (lit "/cache.bmp")
  = Some [Byte.x42; Byte.x4d; Byte.x00; Byte.x01].
Proof.
  apply (wget_complete (four_bytes 4%Z) (lit "/cache.bmp") (lit "http://x/a.bmp")
           12000%Z 4%Z blank_device); reflexivity.
Defined.

Lemma wget_incomplete_witness :
  let run := Download.wget (four_bytes 5%Z) (lit "http://x/a.bmp") (lit "/cache.bmp")
               12000%Z blank_device in
  outcome run = Raise RuntimeError /\
  Download.files (final run) (lit "/cache.bmp")
  = Some [Byte.x42; Byte.x4d; Byte.x00; Byte.x01].
Proof.
  apply (wget_incomplete (four_bytes 5%Z) (lit "/cache.bmp") (lit "http://x/a.bmp")
           12000%Z 5%Z blank_device); reflexivity.
Defined.

Lemma wget_fails_early_witness :
  let run := Download.wget no_server (lit "http://x/a.bmp") (lit "/cache.bmp")
               12000%Z blank_device in
  outcome run = Raise RuntimeError /\
  Download.files (final run) = Download.files blank_device.
Proof.
  apply (wget_fails_early no_server (lit "/cache.bmp") (lit "http://x/a.bmp")
           12000%Z blank_device RuntimeError).
  left. reflexivity.
Defined.

(** ** The bitmap of [show_QR] *)

Lemma rfold_app {A B} (f : B -> A -> result B) (l1 l2 : list A) (b : B) :
  rfold f (l1 ++ l2) b = rbind (rfold f l1 b) (rfold f l2).
Proof.
  revert b. induction l1 as [|a l1 IH]; intros b; cbn; [reflexivity|].
  destruct (f b a); cbn; auto.
Qed.

Lemma replace_nth_id {A} (l : list A) (n : nat) (a : A) :
  nth_error l n = Some a -> Legacy.replace_nth l n a = l.
Proof.
  revert n. induction l as [|x l IH]; intros [|n]; cbn; try discriminate.
  - intros [= ->]. reflexivity.
  - intros H. f_equal. auto.
Qed.

Lemma index_unique (w x y x' y' : nat) :
  (x < w)%nat -> (x' < w)%nat -> (y * w + x = y' * w + x')%nat -> x = x' /\ y = y'.
Proof.
  intros Hx Hx' H.
  assert (y = y').
  { destruct (Nat.lt_trichotomy y y') as [Hlt|[Heq|Hgt]]; [|exact Heq|]; exfalso; nia. }
  subst y'. split; [lia|reflexivity].
Qed.

(** An assignment inside the bitmap sets its pixel and no other. *)
Lemma set_xy_pixels (w h : nat) (b : QR.Bitmap) (x y : nat) (v : Z) :
  shaped w h b -> (x < w)%nat -> (y < h)%nat ->
  exists b',
    QR.set_xy b x y v = Ok b' /\ shaped w h b' /\
    forall x' y',
      QR.pixel b' x' y'
      = overwrites (if ((x' =? x) && (y' =? y))%nat then Some v else None)
                   (QR.pixel b x' y').
Proof.
  intros (Hw & Hh & Hlen) Hx Hy.
  assert (Hi : (y * w + x < length (QR.pixels b))%nat) by (rewrite Hlen; nia).
  unfold QR.set_xy, QR.set_index. rewrite Hw, Hh.
  destruct (Nat.ltb_spec x w); [|lia]. destruct (Nat.ltb_spec y h); [|lia].
  cbn [andb]. destruct (Nat.ltb_spec (y * w + x) (length (QR.pixels b))); [|lia].
  eexists. split; [reflexivity|]. split.
  - unfold shaped. cbn. rewrite replace_nth_length. auto.
  - intros x' y'. unfold QR.pixel. cbn [QR.width QR.height QR.pixels]. rewrite Hw, Hh.
    destruct (Nat.ltb_spec x' w); cbn [andb];
      [|destruct ((x' =? x) && (y' =? y))%nat eqn:E; [|reflexivity];
        apply andb_true_iff in E as [E _]; apply Nat.eqb_eq in E; lia].
    destruct (Nat.ltb_spec y' h);
      [|destruct ((x' =? x) && (y' =? y))%nat eqn:E; [|reflexivity];
        apply andb_true_iff in E as [_ E]; apply Nat.eqb_eq in E; lia].
    destruct ((x' =? x) && (y' =? y))%nat eqn:E; cbn [overwrites].
    + apply andb_true_iff in E as [E1 E2].
      apply Nat.eqb_eq in E1, E2. subst x' y'.
      destruct (nth_error (QR.pixels b) (y * w + x)) as [old|] eqn:Hold;
        [|apply nth_error_None in Hold; lia].
      apply (replace_nth_same _ _ _ _ Hold).
    + apply replace_nth_other. intros Heq.
      destruct (index_unique w x' y' x y) as [-> ->]; [lia|lia|exact Heq|].
      rewrite !Nat.eqb_refl in E. discriminate.
Qed.

(** A loop whose rounds write pixels: a pixel that no round writes stays,
    a pixel for which the rounds that write it agree holds their value. *)
Lemma rfold_pixels {A} (w h : nat) (step : QR.Bitmap -> A -> result QR.Bitmap)
      (writes : A -> nat -> nat -> option Z) (l : list A) :
  (forall a b, In a l -> shaped w h b ->
     exists b', step b a = Ok b' /\ shaped w h b' /\
                forall x y, QR.pixel b' x y = overwrites (writes a x y) (QR.pixel b x y)) ->
  forall b, shaped w h b ->
    exists b', rfold step l b = Ok b' /\ shaped w h b' /\
      forall x y,
        ((forall a, In a l -> writes a x y = None) -> QR.pixel b' x y = QR.pixel b x y) /\
        (forall v, (exists a, In a l /\ writes a x y = Some v) ->
                   (forall a v', In a l -> writes a x y = Some v' -> v' = v) ->
                   QR.pixel b' x y = Some v).
Proof.
  induction l as [|a l IH] using rev_ind; intros Hstep b Hb.
  - exists b. split; [reflexivity|]. split; [exact Hb|].
    intros x y. split; [reflexivity|]. intros v (a & [] & _).
  - destruct (IH (fun a' b' Hin => Hstep a' b' (in_or_app _ _ _ (or_introl Hin))) b Hb)
      as (b1 & Hrun & Hb1 & Hpix).
    assert (Hlast_in : In a (l ++ [a])) by (apply in_or_app; right; left; reflexivity).
    destruct (Hstep a b1 Hlast_in Hb1) as (b2 & Hlast & Hb2 & Hpix2).
    exists b2. rewrite rfold_app, Hrun. cbn [rbind rfold]. rewrite Hlast.
    split; [reflexivity|]. split; [exact Hb2|].
    intros x y. rewrite Hpix2. destruct (Hpix x y) as [Hnone Hsome]. split.
    + intros Hno. rewrite (Hno a) by (apply in_or_app; right; left; reflexivity).
      cbn. apply Hnone. intros a' Hin. apply Hno, in_or_app. left. exact Hin.
    + intros v (a0 & Hin0 & Hw0) Hagree.
      destruct (writes a x y) as [v'|] eqn:Hwa; cbn.
      * f_equal. apply (Hagree a); [apply in_or_app; right; left; reflexivity|exact Hwa].
      * apply in_app_or in Hin0 as [Hin0|[<-|[]]]; [|congruence].
        apply Hsome; [exists a0; auto|].
        intros a' v' Hin. apply Hagree, in_or_app. left. exact Hin.
Qed.

Section QRBitmap.
Variable m : QR.Matrix.

Let w := (QR.m_width m + 2)%nat.
Let h := (QR.m_height m + 2)%nat.
Let module (xx yy : nat) : Z := if QR.get m xx yy then 1%Z else 0%Z.

Lemma clear_new : QR.clear (QR.Bitmap_new w h) = Ok (QR.Bitmap_new w h).
Proof.
  unfold QR.clear. cbn [QR.Bitmap_new QR.width QR.height].
  assert (H : forall l, (forall i, In i l -> (i < w * h)%nat) ->
            rfold (fun b i => QR.set_index b i 0) l (QR.Bitmap_new w h)
            = Ok (QR.Bitmap_new w h)).
  { induction l as [|i l IH]; intros Hl; [reflexivity|].
    cbn [rfold]. unfold QR.set_index at 1. cbn [QR.Bitmap_new QR.pixels QR.width QR.height].
    rewrite repeat_length.
    destruct (Nat.ltb_spec i (w * h)); [|specialize (Hl i (or_introl eq_refl)); lia].
    rewrite replace_nth_id by (apply nth_error_repeat; assumption).
    cbn [rbind]. apply IH. intros j Hj. apply Hl. right. exact Hj. }
  apply H. intros i Hi. apply in_seq in Hi. lia.
Qed.

(** The inner loop, for the column [xx] of the code. *)
Lemma column_pixels (xx : nat) (b : QR.Bitmap) :
  (xx < QR.m_width m)%nat -> shaped w h b ->
  exists b',
    rfold (fun b yy => QR.set_xy b (xx + 1) (yy + 1) (module xx yy))
          (seq 0 (QR.m_height m)) b = Ok b' /\
    shaped w h b' /\
    forall x y,
      QR.pixel b' x y
      = overwrites (if ((x =? xx + 1) && (1 <=? y) && (y <=? QR.m_height m))%nat
                    then Some (module xx (y - 1)) else None)
                   (QR.pixel b x y).
Proof.
  intros Hxx Hb.
  destruct (rfold_pixels w h
              (fun b yy => QR.set_xy b (xx + 1) (yy + 1) (module xx yy))
              (fun yy x y => if ((x =? xx + 1) && (y =? yy + 1))%nat
                             then Some (module xx yy) else None)
              (seq 0 (QR.m_height m))) with (b := b) as (b' & Hrun & Hb' & Hpix).
  - intros yy b0 Hin Hb0. apply in_seq in Hin.
    apply (set_xy_pixels w h); [exact Hb0|unfold w; lia|unfold h; lia].
  - exact Hb.
  - exists b'. split; [exact Hrun|]. split; [exact Hb'|].
    intros x y. destruct (Hpix x y) as [Hnone Hsome].
    destruct ((x =? xx + 1) && (1 <=? y) && (y <=? QR.m_height m))%nat eqn:E;
      cbn [overwrites].
    + apply andb_true_iff in E as [E E3]. apply andb_true_iff in E as [E1 E2].
      apply Nat.eqb_eq in E1. apply Nat.leb_le in E2, E3.
      apply Hsome.
      * exists (y - 1)%nat. split; [apply in_seq; lia|].
        replace (y - 1 + 1)%nat with y by lia. subst x. rewrite !Nat.eqb_refl.
        reflexivity.
      * intros yy v' _ Hv'.
        destruct ((x =? xx + 1) && (y =? yy + 1))%nat eqn:E'; [|discriminate].
        apply andb_true_iff in E' as [_ E']. apply Nat.eqb_eq in E'.
        injection Hv' as <-. f_equal. lia.
    + apply Hnone. intros yy Hin. apply in_seq in Hin.
      destruct ((x =? xx + 1) && (y =? yy + 1))%nat eqn:E'; [|reflexivity].
      apply andb_true_iff in E' as [E1 E2]. apply Nat.eqb_eq in E1, E2.
      exfalso. rewrite E1, Nat.eqb_refl in E. cbn [andb] in E.
      apply andb_false_iff in E as [E|E];
        [apply Nat.leb_gt in E|apply Nat.leb_gt in E]; lia.
Qed.

(** X25: [show_QR] builds its bitmap without an index error: a bitmap two
    pixels wider and higher than the code, that holds the modules of the
    code, moved by one pixel in each direction, inside a border of one
    white pixel. *)
Theorem qr_bitmap_pixels :
  exists b,
    QR.qr_bitmap m = Ok b /\ shaped w h b /\
    forall x y, (x < w)%nat -> (y < h)%nat -> QR.pixel b x y = Some (qr_pixel m x y).
Proof.
  unfold QR.qr_bitmap. fold w h. rewrite clear_new. cbn [rbind]. unfold QR.transcribe.
  assert (Hnew : shaped w h (QR.Bitmap_new w h)).
  { unfold shaped. cbn. rewrite repeat_length. auto. }
  destruct (rfold_pixels w h
              (fun b xx =>
                 rfold (fun b yy => QR.set_xy b (xx + 1) (yy + 1) (module xx yy))
                       (seq 0 (QR.m_height m)) b)
              (fun xx x y => if ((x =? xx + 1) && (1 <=? y) && (y <=? QR.m_height m))%nat
                             then Some (module xx (y - 1)) else None)
              (seq 0 (QR.m_width m))) with (b := QR.Bitmap_new w h)
    as (b' & Hrun & Hb' & Hpix).
  - intros xx b0 Hin Hb0. apply in_seq in Hin. apply column_pixels; [lia|exact Hb0].
  - exact Hnew.
  - exists b'. split; [exact Hrun|]. split; [exact Hb'|].
    intros x y Hx Hy. destruct (Hpix x y) as [Hnone Hsome]. unfold qr_pixel.
    destruct ((1 <=? x) && (x <=? QR.m_width m) && (1 <=? y) && (y <=? QR.m_height m))%nat
      eqn:E.
    + apply andb_true_iff in E as [E E4]. apply andb_true_iff in E as [E E3].
      apply andb_true_iff in E as [E1 E2]. apply Nat.leb_le in E1, E2, E3, E4.
      apply Hsome.
      * exists (x - 1)%nat. split; [apply in_seq; lia|].
        replace (x - 1 + 1)%nat with x by lia. rewrite Nat.eqb_refl. cbn [andb].
        destruct (Nat.leb_spec 1 y); [|lia].
        destruct (Nat.leb_spec y (QR.m_height m)); [|lia]. reflexivity.
      * intros xx v' _ Hv'.
        destruct ((x =? xx + 1) && (1 <=? y) && (y <=? QR.m_height m))%nat eqn:E';
          [|discriminate].
        apply andb_true_iff in E' as [E' _]. apply andb_true_iff in E' as [E' _].
        apply Nat.eqb_eq in E'. injection Hv' as <-.
        replace xx with (x - 1)%nat by lia. reflexivity.
    + rewrite Hnone.
      * unfold QR.pixel. cbn [QR.Bitmap_new QR.width QR.height QR.pixels].
        destruct (Nat.ltb_spec x w); [|lia]. destruct (Nat.ltb_spec y h); [|lia].
        cbn [andb]. apply nth_error_repeat. nia.
      * intros xx Hin. apply in_seq in Hin.
        destruct ((x =? xx + 1) && (1 <=? y) && (y <=? QR.m_height m))%nat eqn:E';
          [|reflexivity].
        apply andb_true_iff in E' as [E' E4]. apply andb_true_iff in E' as [E1 E3].
        apply Nat.eqb_eq in E1. exfalso.
        rewrite E3, E4 in E. rewrite !andb_true_r in E.
        apply andb_false_iff in E as [E|E]; apply Nat.leb_gt in E; lia.
Qed.
End QRBitmap.

(** ** The group of [show_QR] *)

Lemma show_QR_run (m : QR.Matrix) (qr_size x y : Z) (s : QR.Screen) (b : QR.Bitmap) :
  QR.qr_bitmap m = Ok b ->
  let kept := match QR._qr_group s with
              | Some g => removelast (QR.items g)
              | None => []
              end in
  let group := {| QR.scale := qr_size; QR.gx := x; QR.gy := y;
                  QR.items := kept ++ [qr_sprite b] |} in
  QR.show_QR m qr_size x y s
  = (Ok tt,
     {| QR._qr_group := Some group;
        QR.splash := match QR._qr_group s with
                     | Some {| QR.items := _ :: _ |} => QR.splash s
                     | _ => S (QR.splash s)
                     end |},
     [QR.EvShow group]).
Proof.
  intros Hb. unfold QR.show_QR, bind, lift, get_self, put_self, emit. rewrite Hb.
  destruct (QR._qr_group s) as [[sc px py [|i its]]|]; reflexivity.
Qed.

(** X26: when the QR group holds at most one sprite, as it does before the
    first call, [show_QR] leaves in it the sprite of the new code alone,
    at the given scale and position, and shows it; a group is appended to
    [splash] only when there was no group or an empty one. *)
Theorem show_QR_one_sprite (m : QR.Matrix) (qr_size x y : Z) (s : QR.Screen)
        (b : QR.Bitmap) :
  one_code s ->
  QR.qr_bitmap m = Ok b ->
  let run := QR.show_QR m qr_size x y s in
  let group := {| QR.scale := qr_size; QR.gx := x; QR.gy := y;
                  QR.items := [qr_sprite b] |} in
  outcome run = Ok tt /\
  QR._qr_group (final run) = Some group /\
  trace run = [QR.EvShow group] /\
  one_code (final run) /\
  (QR.splash s <= QR.splash (final run) <= S (QR.splash s))%nat /\
  ((exists g i, QR._qr_group s = Some g /\ QR.items g = [i]) ->
   QR.splash (final run) = QR.splash s).
Proof.
  intros Hone Hb run group. subst run. rewrite (show_QR_run m qr_size x y s b Hb).
  cbn [outcome final trace fst snd QR._qr_group QR.splash].
  assert (Hkept : match QR._qr_group s with
                  | Some g => removelast (QR.items g)
                  | None => []
                  end = []).
  { destruct (QR._qr_group s) as [g|] eqn:Hg; [|reflexivity].
    specialize (Hone g Hg). destruct (QR.items g) as [|i [|i' its]]; cbn in *;
      [reflexivity|reflexivity|lia]. }
  rewrite Hkept. cbn [app]. fold group.
  split; [reflexivity|]. split; [reflexivity|]. split; [reflexivity|]. split.
  - intros g [= <-]. cbn. lia.
  - split.
    + destruct (QR._qr_group s) as [[sc px py [|i its]]|]; lia.
    + intros (g & i & -> & Hi). destruct g as [sc px py its]. cbn in Hi. subst its.
      reflexivity.
Qed.

(** X27: a second call of [show_QR] replaces the code of the first: the
    group holds the sprite of the second code alone, and nothing is
    appended to [splash]. *)
Theorem show_QR_replaces (m1 m2 : QR.Matrix) (size1 x1 y1 size2 x2 y2 : Z)
        (s : QR.Screen) (b1 b2 : QR.Bitmap) :
  one_code s ->
  QR.qr_bitmap m1 = Ok b1 ->
  QR.qr_bitmap m2 = Ok b2 ->
  let first := final (QR.show_QR m1 size1 x1 y1 s) in
  let second := final (QR.show_QR m2 size2 x2 y2 first) in
  QR._qr_group second
  = Some {| QR.scale := size2; QR.gx := x2; QR.gy := y2;
            QR.items := [qr_sprite b2] |} /\
  QR.splash second = QR.splash first.
Proof.
  intros Hone H1 H2 first second. subst second first.
  rewrite (show_QR_run m1 size1 x1 y1 s b1 H1). cbn [final fst snd].
  rewrite (show_QR_run m2 size2 x2 y2 _ b2 H2).
  cbn [final fst snd QR._qr_group QR.splash QR.items].
  assert (Hkept : match QR._qr_group s with
                  | Some g => removelast (QR.items g)
                  | None => []
                  end = []).
  { destruct (QR._qr_group s) as [g|] eqn:Hg; [|reflexivity].
    specialize (Hone g Hg). destruct (QR.items g) as [|i [|i' its]]; cbn in *;
      [reflexivity|reflexivity|lia]. }
  rewrite Hkept. cbn. auto.
Qed.

Lemma show_QR_one_sprite_witness :
  let run := QR.show_QR dot 2 10 20 no_code in
  let group := {| QR.scale := 2; QR.gx := 10; QR.gy := 20;
                  QR.items := [qr_sprite (framed 1)] |} in
  outcome run = Ok tt /\
  QR._qr_group (final run) = Some group /\
  trace run = [QR.EvShow group] /\
  one_code (final run) /\
  (QR.splash no_code <= QR.splash (final run) <= S (QR.splash no_code))%nat /\
  ((exists g i, QR._qr_group no_code = Some g /\ QR.items g = [i]) ->
   QR.splash (final run) = QR.splash no_code).
Proof.
  apply (show_QR_one_sprite dot 2 10 20 no_code (framed 1)).
  - intros g H. discriminate.
  - reflexivity.
Defined.

Lemma show_QR_replaces_witness :
  let first := final (QR.show_QR dot 2 10 20 no_code) in
  let second := final (QR.show_QR blank 1 0 0 first) in
  QR._qr_group second
  = Some {| QR.scale := 1; QR.gx := 0; QR.gy := 0;
            QR.items := [qr_sprite (framed 0)] |} /\
  QR.splash second = QR.splash first.
Proof.
  apply (show_QR_replaces dot blank 2 10 20 1 0 0 no_code (framed 1) (framed 0)).
  - intros g H. discriminate.
  - reflexivity.
  - reflexivity.
Defined.

(** ** The card of the constructor and the cache of [fetch] *)

Lemma emits_at {S E A B} (P : E -> Prop) (c : M S E A) (f : A -> M S E B) (s : S) :
  keeps_state c ->
  Forall P (trace (c s)) ->
  (forall a, Forall P (trace (f a s))) ->
  Forall P (trace (bind c f s)).
Proof.
  intros Hk Hc Hf. rewrite bind_trace.
  destruct (outcome (c s)) as [a|e]; [|exact Hc].
  rewrite Hk. apply Forall_app. auto.
Qed.

Section CardCache.
Variable env : Legacy.Env.

Lemma fetch_image_sd (image_url : pyval) (s : Legacy.PyPortal) :
  Legacy._sdcard s = true ->
  Forall sd_download (trace (Legacy.fetch_image env image_url s)).
Proof.
  intros Hsd. unfold Legacy.fetch_image.
  rewrite bind_trace. cbn [get_self outcome final trace fst snd app].
  destruct (truthy image_url); [|constructor].
  unfold Legacy.cache_file. rewrite Hsd.
  match goal with
  | |- Forall _ (trace (?c s)) => assert (H : emits_only sd_download c); [|apply H]
  end.
  unfold Legacy.set_background.
  repeat first
    [ apply emits_only_emit; cbn; solve [exact I | auto]
    | progress emits ].
Qed.

(** With a card object, every download of [fetch] goes to the card. *)
Lemma fetch_downloads_sd (refresh_url : option str) (self : Legacy.PyPortal) :
  Legacy._sdcard self = true ->
  Forall sd_download (trace (Legacy.fetch env refresh_url self)).
Proof.
  intros Hsd. unfold Legacy.fetch.
  rewrite bind_trace, fetch_refresh_run. cbn [outcome final trace fst snd app].
  fold (refreshed self refresh_url).
  assert (Hs1 : Legacy._sdcard (refreshed self refresh_url) = true)
    by (unfold refreshed; destruct (some_nonempty refresh_url); exact Hsd).
  generalize dependent (refreshed self refresh_url). intros s1 Hs1.
  apply emits_at; [apply fetch_response_keeps| |intros r].
  { eapply Forall_impl; [|apply (fetch_response_extraction env s1)].
    intros []; cbn; tauto. }
  apply emits_at; [apply fetch_json_keeps| |intros j].
  { eapply Forall_impl; [|apply (fetch_json_extraction r s1)]. intros []; cbn; tauto. }
  apply emits_at; [apply keeps_state_get|constructor|intros me].
  apply emits_at; [apply fetch_values_keeps| |intros values].
  { eapply Forall_impl; [|apply (fetch_values_extraction env r j s1)].
    intros []; cbn; tauto. }
  apply emits_at; [apply fetch_image_url_keeps| |intros u].
  { assert (H : emits_only sd_download
                  (Legacy.fetch_image_url env j (Legacy.image_url_path me)))
      by (unfold Legacy.fetch_image_url, Legacy.set_background; emits).
    apply H. }
  apply emits_at; [apply keeps_state_emit|repeat constructor|intros _].
  apply emits_at; [apply fetch_image_keeps|apply fetch_image_sd, Hs1|intros _].
  apply emits_at; [apply fetch_callback_keeps| |intros _].
  { assert (H : emits_only sd_download (Legacy.fetch_callback values))
      by (unfold Legacy.fetch_callback; emits).
    apply H. }
  match goal with
  | |- Forall _ (trace (?c s1)) => assert (H : emits_only sd_download c); [|apply H]
  end.
  apply emits_only_bind;
    [unfold Legacy.fetch_text, Legacy.fill_text, Legacy.set_text; emits|intros _].
  unfold Legacy.fetch_return. emits.
Qed.

(** X28: in [adafruit_pyportal.py] too the card object is kept when the
    file system or the mount fails: the constructor prints that no card
    was found and goes on, [self._sdcard] is set, and every image that
    [fetch] downloads afterwards goes to [/sd/cache.bmp], under the mount
    point that is not there. *)
Theorem cache_after_failed_mount (board : Package.Board) (self : Legacy.PyPortal)
        (refresh_url : option str) :
  Package.sdcard_new board = Ok tt ->
  Package.vfs_new board = Raise OSError \/
  (Package.vfs_new board = Ok tt /\ Package.mount board = Raise OSError) ->
  let built := Setup.init_sdcard board self in
  outcome built = Ok tt /\
  In Package.EvNoCard (trace built) /\
  ~ Package.mount_succeeded board /\
  Legacy.cache_file (final built) = (lit "/sd/cache.bmp", 512%Z) /\
  Forall sd_download (trace (Legacy.fetch env refresh_url (final built))).
Proof.
  intros Hcard Hfail built.
  assert (Hrun : outcome built = Ok tt /\ In Package.EvNoCard (trace built) /\
                 final built = Setup.with_sdcard (Setup.with_sdcard self false) true).
  { subst built. unfold Setup.init_sdcard, bind, try_except, get_self, put_self,
      emit, lift, outcome, final, trace.
    rewrite Hcard. destruct Hfail as [-> | [-> ->]]; cbn; auto 10. }
  destruct Hrun as (Ho & Hin & Hfinal).
  split; [exact Ho|]. split; [exact Hin|]. split.
  - intros (_ & Hv & Hm). destruct Hfail as [H | [_ H]]; congruence.
  - rewrite Hfinal. split; [reflexivity|].
    apply fetch_downloads_sd. reflexivity.
Qed.
End CardCache.

Lemma cache_after_failed_mount_witness :
  let built := Setup.init_sdcard unformatted_card image_portal in
  outcome built = Ok tt /\
  In Package.EvNoCard (trace built) /\
  ~ Package.mount_succeeded unformatted_card /\
  Legacy.cache_file (final built) = (lit "/sd/cache.bmp", 512%Z) /\
  Forall sd_download (trace (Legacy.fetch price_env None (final built))).
Proof.
  apply (cache_after_failed_mount price_env unformatted_card image_portal None).
  - reflexivity.
  - left. reflexivity.
Defined.

(** ** The background *)

Lemma closed_all (fo : list bool) (n i : nat) :
  (nth_error fo i = Some true -> i = n) ->
  nth_error (Legacy.replace_nth fo n false) i <> Some true.
Proof.
  intros Hone H. destruct (Nat.eq_dec i n) as [->|Hne].
  - destruct (nth_error fo n) as [b|] eqn:Hn.
    + rewrite (replace_nth_same _ _ _ _ Hn) in H. discriminate.
    + assert (Hlen : nth_error (Legacy.replace_nth fo n false) n <> None) by congruence.
      apply nth_error_Some in Hlen. rewrite replace_nth_length in Hlen.
      apply nth_error_None in Hn. lia.
  - rewrite replace_nth_other in H by exact Hne. auto.
Qed.

Lemma opened_last (fo : list bool) (i : nat) :
  (forall j, nth_error fo j <> Some true) ->
  nth_error (fo ++ [true]) i = Some true -> i = length fo.
Proof.
  intros Hclosed H. destruct (Nat.lt_ge_cases i (length fo)) as [Hlt|Hge].
  - rewrite nth_error_app1 in H by exact Hlt. destruct (Hclosed i H).
  - destruct (Nat.eq_dec i (length fo)) as [->|Hne]; [reflexivity|].
    assert (Hnone : nth_error (fo ++ [true]) i = None)
      by (apply nth_error_None; rewrite length_app; cbn; lia).
    congruence.
Qed.

Section BackgroundFacts.
Variable env : Background.Env.

(** X29: whatever it is called with, [set_background] leaves at most one
    sprite in the background group: one when it returns from an argument
    that is true, none otherwise.  An argument that is false, as [None]
    and the colour 0, empties the group and returns at once: no file is
    closed and nothing is shown. *)
Theorem set_background_group (file_or_color : pyval) (position : option (Z * Z))
        (s : Background.Screen) :
  let run := Background.set_background env file_or_color position s in
  (length (Background._bg_group (final run)) <= 1)%nat /\
  (Background._bg_group (final run) <> [] <->
   outcome run = Ok tt /\ truthy file_or_color = true) /\
  (truthy file_or_color = false ->
   run = (Ok tt,
          {| Background._bg_group := [];
             Background.file_objects := Background.file_objects s;
             Background._bg_file := Background._bg_file s |},
          [])).
Proof.
  intros run. subst run.
  unfold Background.set_background, bind, get_self, put_self, emit, lift, ret, raise,
    outcome, final.
  destruct (truthy file_or_color) eqn:Ht; cbn [negb].
  - cbn. destruct (Background._bg_file s) as [n|]; cbn;
      destruct file_or_color as [|b|z|q|file|l|d]; cbn;
      try (destruct (Background.open_rb env file) as [[]|e]; cbn;
           try (destruct (Background.on_disk_bitmap env file) as [[]|e']; cbn));
      (split; [lia|]); (split; [|discriminate]);
      split; try solve [intros _; auto | intros []; discriminate | intros []; auto
                        | intros H; exfalso; apply H; reflexivity
                        | discriminate].
  - cbn. split; [lia|]. split; [|reflexivity].
    split; [intros H; exfalso; apply H; reflexivity|intros []; discriminate].
Qed.

(** X30: [set_background] closes the file it had before it opens another:
    when at most the file object of [self._bg_file] is open before a
    call, this is so after the call, whatever its outcome. *)
Theorem set_background_files (file_or_color : pyval) (position : option (Z * Z))
        (s : Background.Screen) :
  one_open_file s ->
  one_open_file (final (Background.set_background env file_or_color position s)).
Proof.
  intros Hone.
  assert (Hclosed : forall n, Background._bg_file s = Some n ->
            forall i, nth_error (Legacy.replace_nth (Background.file_objects s) n false) i
                      <> Some true).
  { intros n Hn i. apply closed_all. intros Hi. specialize (Hone i Hi). congruence. }
  assert (Hnone : Background._bg_file s = None ->
                  forall i, nth_error (Background.file_objects s) i <> Some true).
  { intros Hn i Hi. specialize (Hone i Hi). congruence. }
  unfold Background.set_background, bind, get_self, put_self, emit, lift, ret, raise,
    final.
  destruct (truthy file_or_color) eqn:Ht; cbn [negb]; [|exact Hone].
  cbn. destruct (Background._bg_file s) as [n|] eqn:Hn; cbn;
    destruct file_or_color as [|b|z|q|file|l|d]; cbn;
    try (destruct (Background.open_rb env file) as [[]|e]; cbn;
         try (destruct (Background.on_disk_bitmap env file) as [[]|e']; cbn));
    unfold one_open_file; cbn; intros i Hi;
    try solve [ destruct (Hclosed n eq_refl i Hi)
              | destruct (Hnone eq_refl i Hi)
              | f_equal; symmetry; apply opened_last;
                [apply (Hclosed n eq_refl)|exact Hi]
              | f_equal; symmetry; apply opened_last;
                [apply (Hnone eq_refl)|exact Hi] ].
Qed.
End BackgroundFacts.

Lemma set_background_files_witness :
  one_open_file
    (final (Background.set_background bitmaps (PStr (lit "/b.bmp")) None picture_screen)).
Proof.
  apply (set_background_files bitmaps (PStr (lit "/b.bmp")) None picture_screen).
  intros [|[|n]] H; cbn in H; try discriminate. reflexivity.
Defined.
